(** * gurilla7: the per-client store, the ingestion loop and the onboarding

    A shallow embedding of [database/db_manager.py] (class
    [DatabaseManager]), of the batch loop of
    [src/scraping/industry/crawler.py] (class [IndustryCrawler]) and of
    the conversation of [src/onboarding/bot.py] (class [OnboardingBot]),
    followed by the properties the specification states about them.

    Conventions.
    - Python [str] is [string]; Python [int] is [Z]; [Optional[T]] is
      [option T].  The [Dict[str, Any]] of [update_lead] is the list of
      its items in insertion order, with values of type [py_value].
    - A call returns a value or raises: [outcome] where the code meets an
      exception it does not catch, a plain value where it cannot.
    - An [int] parameter of a method (an id, a limit) reaches SQLite as a
      bound parameter.  sqlite3 binds the integers of the signed 64-bit
      range, [int64], and raises [OverflowError] for the others before
      the statement runs.  [update_lead], which binds values of any
      type, renders that; the other methods are rendered for ids and
      limits in range.
    - A table is the list of its rows in insertion (ROWID) order, and a
      query without [ORDER BY], or rows equal under it, come in that
      order.
    - [CURRENT_TIMESTAMP] and [datetime.now()] are read from an explicit
      [now] argument: the clock is an input of every writing statement.
    - Every method opens its own connection to [self.db_path]; a method
      is therefore a function from the file's content to the new content
      and the returned value.  Which paths [sqlite3.connect] opens is a
      parameter, [FileSystem]. *)

From stdpp Require Import gmap strings list fin_maps sorting.
From Stdlib Require Import ZArith Ascii DecimalString.

Set Warnings "-register-all".

Open Scope Z_scope.

(** ** Python and library primitives *)

(** Truth value of a [str] in a condition: [if s:] holds unless [s] is
    empty. *)
Definition str_truthy (s : string) : bool :=
  match s with
  | EmptyString => false
  | String _ _ => true
  end.

(** Truth value of an [Optional[str]]: [None] and [""] are false. *)
Definition opt_str_truthy (o : option string) : bool :=
  match o with
  | None => false
  | Some s => str_truthy s
  end.

(** Truth value of an [Optional[List[T]]]: [None] and [[]] are false. *)
Definition opt_list_truthy {A} (o : option (list A)) : bool :=
  match o with
  | None => false
  | Some [] => false
  | Some (_ :: _) => true
  end.

Definition startswith_sep (s : string) : bool :=
  match s with
  | String "/" _ => true
  | _ => false
  end.

Fixpoint endswith_sep (s : string) : bool :=
  match s with
  | EmptyString => false
  | String c EmptyString => if Ascii.eqb c "/" then true else false
  | String _ s' => endswith_sep s'
  end.

(** [os.path.join(a, b)] of [posixpath]: an absolute [b] replaces [a];
    otherwise [b] is appended, with a separator unless [a] is empty or
    already ends with one. *)
Definition os_path_join (a b : string) : string :=
  if startswith_sep b then b
  else if negb (str_truthy a) || endswith_sep a then a +:+ b
  else a +:+ "/" +:+ b.

Fixpoint from_last_sep (reversed : list ascii) : list ascii :=
  match reversed with
  | [] => []
  | c :: rest => if Ascii.eqb c "/" then reversed else from_last_sep rest
  end.

Fixpoint rstrip_sep (reversed : list ascii) : list ascii :=
  match reversed with
  | [] => []
  | c :: rest => if Ascii.eqb c "/" then rstrip_sep rest else reversed
  end.

(** [os.path.dirname(p)] of [posixpath]: [p] up to its last separator,
    without the separators at the end unless it consists of them. *)
Definition os_path_dirname (p : string) : string :=
  let head := from_last_sep (reverse (String.list_ascii_of_string p)) in
  String.string_of_list_ascii
    (reverse (if forallb (Ascii.eqb "/") head then head else rstrip_sep head)).

(** Does the string contain the path separator? *)
Fixpoint has_sep (s : string) : bool :=
  match s with
  | EmptyString => false
  | String c s' => if Ascii.eqb c "/" then true else has_sep s'
  end.

(** [str(n)] for an [int]: the decimal digits, after a minus sign for a
    negative one.  SQLite writes an INTEGER as text the same way. *)
Definition str_of_int (n : Z) : string := NilZero.string_of_int (Z.to_int n).

(** [s[:n]] for a non-negative [n]. *)
Definition str_prefix (n : nat) (s : string) : string := String.substring 0 n s.

(** *** Exceptions *)

(** The exceptions the code meets.  The last two are subclasses of
    [sqlite3.Error]. *)
Inductive exn : Type :=
  | JSONDecodeError                    (* json.JSONDecodeError *)
  | RecursionError
  | ValueError
  | TypeError
  | OverflowError
  | ProgrammingError                   (* sqlite3.ProgrammingError *)
  | OperationalError.                  (* sqlite3.OperationalError *)

#[export] Instance exn_eq_dec : EqDecision exn.
Proof. solve_decision. Defined.

(** [isinstance(e, sqlite3.Error)]: what [except sqlite3.Error] catches. *)
Definition sqlite3_Error (e : exn) : bool :=
  match e with
  | ProgrammingError | OperationalError => true
  | _ => false
  end.

(** What a call gives back: a value, or an exception that leaves it. *)
Inductive outcome (A : Type) : Type :=
  | Return (a : A)
  | Raise (e : exn).
Arguments Return {A} a.
Arguments Raise {A} e.

#[export] Instance outcome_eq_dec {A} `{EqDecision A} : EqDecision (outcome A).
Proof. solve_decision. Defined.

(** *** JSON values and the [json] module *)

Inductive json_value : Type :=
  | JNull
  | JBool (b : bool)
  | JNum (n : Z)
  | JStr (s : string)
  | JArr (a : list json_value)
  | JObj (o : list (string * json_value)).

(** A Python [List[str]] as the value [json.dumps] receives. *)
Definition json_of_strings (l : list string) : json_value := JArr (JStr <$> l).

(** The two functions of the standard [json] module the store calls.
    [json_loads] returns the value of a document or raises:
    [json.JSONDecodeError] for a text that is no document, and other
    exceptions for some that are ([RecursionError] when the nesting
    exceeds the interpreter's recursion limit, [ValueError] for an
    integer of more digits than [int] converts).  What is assumed of
    them: the empty text is not a document, and a list of strings is read
    back as written. *)
Class JsonCodec := {
  json_dumps : json_value → string;
  json_loads : string → outcome json_value;
  json_loads_empty : json_loads "" = Raise JSONDecodeError;
  json_loads_dumps_strings :
    ∀ l : list string,
      json_loads (json_dumps (json_of_strings l)) = Return (json_of_strings l)
}.

(** *** A codec for the texts the store writes

    An instance of the interface above that runs: the printer writes
    values the way [json.dumps] does (separators [", "] and [": "],
    non-ASCII and control characters escaped), and the reader accepts the
    documents the tags column holds, arrays of strings, plus the three
    literals; a text that opens [recursion_limit] arrays inside one
    another is beyond the recursion limit.  Other documents (numbers,
    objects, nested arrays) are refused by this reader; nothing below
    depends on them. *)

Module fragment_codec.

Definition dquote : ascii := ascii_of_nat 34.
Definition backslash : ascii := ascii_of_nat 92.

Definition hex_digit (n : nat) : ascii :=
  match n with
  | 0 => "0" | 1 => "1" | 2 => "2" | 3 => "3" | 4 => "4" | 5 => "5"
  | 6 => "6" | 7 => "7" | 8 => "8" | 9 => "9" | 10 => "a" | 11 => "b"
  | 12 => "c" | 13 => "d" | 14 => "e" | _ => "f"
  end%nat%char.

Definition hex_value (c : ascii) : option nat :=
  let n := nat_of_ascii c in
  if (48 <=? n)%nat && (n <=? 57)%nat then Some (n - 48)%nat
  else if (97 <=? n)%nat && (n <=? 102)%nat then Some (n - 87)%nat
  else if (65 <=? n)%nat && (n <=? 70)%nat then Some (n - 55)%nat
  else None.

(** One character inside a string literal. *)
Definition escape_char (c : ascii) : list ascii :=
  let n := nat_of_ascii c in
  if (n =? 34)%nat then [backslash; dquote]
  else if (n =? 92)%nat then [backslash; backslash]
  else if (n =? 10)%nat then [backslash; "n"%char]
  else if (n =? 13)%nat then [backslash; "r"%char]
  else if (n =? 9)%nat then [backslash; "t"%char]
  else if (n =? 8)%nat then [backslash; "b"%char]
  else if (n =? 12)%nat then [backslash; "f"%char]
  else if (n <? 32)%nat || (126 <? n)%nat
    then [backslash; "u"%char; "0"%char; "0"%char;
          hex_digit (n / 16); hex_digit (n mod 16)]
  else [c].

Definition quote (s : string) : list ascii :=
  dquote :: mbind escape_char (String.list_ascii_of_string s) ++ [dquote].

Fixpoint join (sep : list ascii) (parts : list (list ascii)) : list ascii :=
  match parts with
  | [] => []
  | [x] => x
  | x :: rest => x ++ sep ++ join sep rest
  end.

Definition comma_space : list ascii := [","; " "]%char.
Definition colon_space : list ascii := [":"; " "]%char.

Fixpoint print (v : json_value) : list ascii :=
  match v with
  | JNull => String.list_ascii_of_string "null"
  | JBool true => String.list_ascii_of_string "true"
  | JBool false => String.list_ascii_of_string "false"
  | JNum n => String.list_ascii_of_string (NilZero.string_of_int (Z.to_int n))
  | JStr s => quote s
  | JArr a => "["%char :: join comma_space (List.map print a) ++ ["]"%char]
  | JObj o =>
      "{"%char
        :: join comma_space
             (List.map (λ kv, quote (fst kv) ++ colon_space ++ print (snd kv)) o)
        ++ ["}"%char]
  end.

Definition dumps (v : json_value) : string := String.string_of_list_ascii (print v).

(** The reader of arrays of strings: one pass over the characters. *)
Inductive state : Type :=
  | Start
  | Open
  | Element (done : list string)
  | InString (done : list string) (cur : list ascii)
  | Escape (done : list string) (cur : list ascii)
  | Hex (done : list string) (cur : list ascii) (seen value : nat)
  | After (done : list string)
  | Closed (done : list string)
  | Reject.

Definition is_space (c : ascii) : bool :=
  let n := nat_of_ascii c in
  (n =? 32)%nat || (n =? 9)%nat || (n =? 10)%nat || (n =? 13)%nat.

Definition unescape (c : ascii) : option ascii :=
  let n := nat_of_ascii c in
  if (n =? 34)%nat || (n =? 92)%nat || (n =? 47)%nat then Some c
  else if (n =? 110)%nat then Some (ascii_of_nat 10)
  else if (n =? 114)%nat then Some (ascii_of_nat 13)
  else if (n =? 116)%nat then Some (ascii_of_nat 9)
  else if (n =? 98)%nat then Some (ascii_of_nat 8)
  else if (n =? 102)%nat then Some (ascii_of_nat 12)
  else None.

Definition step (s : state) (c : ascii) : state :=
  match s with
  | Start =>
      if Ascii.eqb c "[" then Open
      else if is_space c then Start else Reject
  | Open =>
      if Ascii.eqb c "]" then Closed []
      else if Ascii.eqb c dquote then InString [] []
      else if is_space c then Open else Reject
  | Element done =>
      if Ascii.eqb c dquote then InString done []
      else if is_space c then Element done else Reject
  | InString done cur =>
      if Ascii.eqb c dquote then After (done ++ [String.string_of_list_ascii cur])
      else if Ascii.eqb c backslash then Escape done cur
      else if (nat_of_ascii c <? 32)%nat then Reject
      else InString done (cur ++ [c])
  | Escape done cur =>
      if Ascii.eqb c "u" then Hex done cur 0 0
      else match unescape c with
           | Some c' => InString done (cur ++ [c'])
           | None => Reject
           end
  | Hex done cur seen value =>
      match hex_value c with
      | None => Reject
      | Some h =>
          let value' := (16 * value + h)%nat in
          if (seen =? 3)%nat
          then if (value' <? 256)%nat
               then InString done (cur ++ [ascii_of_nat value'])
               else Reject
          else Hex done cur (S seen) value'
      end
  | After done =>
      if Ascii.eqb c "," then Element done
      else if Ascii.eqb c "]" then Closed done
      else if is_space c then After done else Reject
  | Closed done => if is_space c then Closed done else Reject
  | Reject => Reject
  end.

(** [sys.getrecursionlimit()] as CPython sets it. *)
Definition recursion_limit : nat := 1000.

(** The number of arrays a text opens before anything else: its leading
    [[] characters, white space between them skipped. *)
Fixpoint opening (chars : list ascii) : nat :=
  match chars with
  | [] => 0
  | c :: rest =>
      if Ascii.eqb c "[" then S (opening rest)
      else if is_space c then opening rest
      else 0
  end.

(** The scanner calls itself once per array it enters, so a text that
    opens [recursion_limit] arrays exhausts the limit at whatever depth
    [json.loads] was called. *)
Definition loads (text : string) : outcome json_value :=
  if (recursion_limit <=? opening (String.list_ascii_of_string text))%nat
  then Raise RecursionError
  else
    match text with
    | "null" => Return JNull
    | "true" => Return (JBool true)
    | "false" => Return (JBool false)
    | _ =>
        match foldl step Start (String.list_ascii_of_string text) with
        | Closed done => Return (json_of_strings done)
        | _ => Raise JSONDecodeError
        end
    end.

(** What follows the first element of a printed array of strings. *)
Fixpoint tail_of (l : list string) : list ascii :=
  match l with
  | [] => ["]"%char]
  | s :: l' => comma_space ++ quote s ++ tail_of l'
  end.

End fragment_codec.

(** [value in array] for a [str] value and a decoded array: Python
    compares with [==], and a [str] equals only an equal [str]. *)
Definition py_str_in (value : string) (array : list json_value) : bool :=
  existsb (λ e, match e with
                | JStr s => bool_decide (s = value)
                | _ => false
                end) array.

(** ** SQL primitives *)

(** [LIMIT n]: the first [n] rows; a negative [n] puts no upper bound on
    the number of rows (SQLite). *)
Definition sql_limit {A} (n : Z) (rows : list A) : list A :=
  if n <? 0 then rows else take (Z.to_nat n) rows.

(** [ORDER BY key DESC], as a stable insertion sort: rows with equal keys
    keep their scan order, which is how SQLite's sorter returns them.
    [insert_desc] puts a row before the rows of the same or a smaller key
    that were scanned after it. *)
Fixpoint insert_desc {A} (key : A → Z) (x : A) (l : list A) : list A :=
  match l with
  | [] => [x]
  | y :: l' => if key y <=? key x then x :: y :: l' else y :: insert_desc key x l'
  end.

Definition order_by_desc {A} (key : A → Z) (rows : list A) : list A :=
  foldr (insert_desc key) [] rows.

(** The next ROWID of an [INTEGER PRIMARY KEY AUTOINCREMENT] column: one
    more than the largest ROWID the table ever held.  No statement of the
    module deletes a row, so that is the largest ROWID present. *)
Definition next_rowid (ids : list Z) : Z := 1 + foldr Z.max 0 ids.

(** ASCII case folding of [LIKE]. *)
Definition ascii_lower (c : ascii) : ascii :=
  let n := nat_of_ascii c in
  if (65 <=? n)%nat && (n <=? 90)%nat then ascii_of_nat (n + 32) else c.

Definition like_char (p c : ascii) : bool :=
  Ascii.eqb (ascii_lower p) (ascii_lower c).

(** [s LIKE p]: [%] matches any run of characters, [_] any one character,
    every other character itself up to ASCII case. *)
Fixpoint like (p : string) (s : string) : bool :=
  match p with
  | EmptyString => negb (str_truthy s)
  | String "%" p' =>
      (fix star (t : string) : bool :=
         like p' t || match t with
                      | EmptyString => false
                      | String _ t' => star t'
                      end) s
  | String "_" p' =>
      match s with
      | EmptyString => false
      | String _ s' => like p' s'
      end
  | String c p' =>
      match s with
      | EmptyString => false
      | String d s' => like_char c d && like p' s'
      end
  end.

(** [col LIKE ?] on a nullable column: NULL never satisfies a [WHERE]. *)
Definition like_nullable (p : string) (col : option string) : bool :=
  match col with
  | None => false
  | Some s => like p s
  end.

(** [COUNT( * )]. *)
Definition sql_count {A} (rows : list A) : Z := Z.of_nat (length rows).

(** [SUM(e)] over the selected rows: NULL when there is no row. *)
Definition sql_sum (values : list Z) : option Z :=
  match values with
  | [] => None
  | _ :: _ => Some (foldr Z.add 0 values)
  end.

(** *** Parameters of a statement

    A Python value as a parameter of a statement, by what sqlite3 does
    with it.  A [float] is given by the text SQLite renders it to when a
    column of TEXT affinity takes it ([5.0] is ["5.0"]); NaN, which SQLite
    binds as NULL, is [PyNone].  A value sqlite3 has an adapter for (a
    [date], a [datetime]) is the [str] the adapter returns.  [PyObject]
    is a value of any other type, under the name of its type: a [list],
    a [dict], a [tuple]. *)
Inductive py_value : Type :=
  | PyNone
  | PyBool (b : bool)
  | PyInt (n : Z)
  | PyFloat (text : string)
  | PyStr (s : string)
  | PyBytes (b : string)
  | PyObject (type_name : string).

(** A value of one of SQLite's five storage classes. *)
Inductive sql_value : Type :=
  | SqlNull
  | SqlInteger (n : Z)
  | SqlReal (text : string)
  | SqlText (s : string)
  | SqlBlob (b : string).

(** The integers SQLite holds. *)
Definition int64 (n : Z) : Prop := - 2 ^ 63 ≤ n < 2 ^ 63.

#[export] Instance int64_dec n : Decision (int64 n).
Proof. unfold int64. apply _. Defined.

(** Binding one parameter: an [int] beyond 64 bits raises
    [OverflowError], a value of a type sqlite3 does not know raises
    [sqlite3.ProgrammingError]. *)
Definition bind_parameter (v : py_value) : outcome sql_value :=
  match v with
  | PyNone => Return SqlNull
  | PyBool b => Return (SqlInteger (if b then 1 else 0))
  | PyInt n => if bool_decide (int64 n) then Return (SqlInteger n) else Raise OverflowError
  | PyFloat text => Return (SqlReal text)
  | PyStr s => Return (SqlText s)
  | PyBytes b => Return (SqlBlob b)
  | PyObject _ => Raise ProgrammingError
  end.

(** Binding the parameters of [execute(query, params)], in order: the
    first one that cannot be bound raises, and the statement does not
    run. *)
Fixpoint bind_parameters (params : list py_value) : outcome (list sql_value) :=
  match params with
  | [] => Return []
  | v :: rest =>
      match bind_parameter v with
      | Raise e => Raise e
      | Return b =>
          match bind_parameters rest with
          | Raise e => Raise e
          | Return bs => Return (b :: bs)
          end
      end
  end.

(** What a column of TEXT affinity holds: NULL, a text, or a BLOB. *)
Inductive text_cell : Type :=
  | Null
  | Text (s : string)
  | Blob (b : string).

(** A value stored into a column of TEXT affinity: an INTEGER or a REAL
    is converted to its text, a BLOB is stored as it is. *)
Definition text_affinity (v : sql_value) : text_cell :=
  match v with
  | SqlNull => Null
  | SqlInteger n => Text (str_of_int n)
  | SqlReal text => Text text
  | SqlText s => Text s
  | SqlBlob b => Blob b
  end.

(** ** The schema ([_init_database]) *)

Module client.
Record row := {
  telegram_handle : string;          (* TEXT PRIMARY KEY *)
  email : string;
  industry : string;
  location : string;
  campaign_parameters : string;      (* JSON text *)
  created_at : Z
}.
End client.

Module industry.
Record row := {
  id : Z;
  source : string;
  title : option string;
  content : string;
  pain_points : string;
  tags : option string;              (* JSON array of tags, or NULL *)
  crawled_at : option string;
  created_at : Z
}.
End industry.

Module lead.
Record row := {
  id : Z;
  company_name : text_cell;          (* TEXT *)
  website : text_cell;
  contact_info : text_cell;
  details : text_cell;
  created_at : Z
}.
End lead.

Module solution.
Record row := {
  id : Z;
  lead_id : Z;
  solution_text : string;
  generated_at : Z;
  status : string                    (* DEFAULT 'pending' *)
}.
End solution.

Module outreach.
Record row := {
  id : Z;
  lead_id : Z;
  message_sent : string;
  sent_at : Z;
  response : option string;
  updated_at : option Z
}.
End outreach.

(** The content of one client's database file. *)
Record database := {
  clients : list client.row;
  industry_data : list industry.row;
  lead_bucket : list lead.row;
  tailored_solutions : list solution.row;
  outreach_log : list outreach.row
}.

(** The file right after [CREATE TABLE IF NOT EXISTS] on a new path. *)
Definition empty_database : database :=
  {| clients := []; industry_data := []; lead_bucket := [];
     tailored_solutions := []; outreach_log := [] |}.

(** ** What the read methods return *)

(** [dict(row)] of a client with [campaign_parameters] decoded. *)
Record client_info := {
  ci_telegram_handle : string;
  ci_email : string;
  ci_industry : string;
  ci_location : string;
  ci_campaign_parameters : json_value;
  ci_created_at : Z
}.

(** [dict(row)] of an industry entry after the decoding loop: [e_tags] is
    the Python value left under ['tags']. *)
Record industry_entry := {
  e_id : Z;
  e_source : string;
  e_title : option string;
  e_content : string;
  e_pain_points : string;
  e_tags : option json_value;
  e_crawled_at : option string;
  e_created_at : Z
}.

Record outreach_stats := {
  total_outreach : Z;
  responses : option Z
}.

Record campaign_stats := {
  total_leads : Z;
  solution_stats : gmap string Z;
  outreach_stats_of : outreach_stats
}.

Record campaign_export := {
  x_client_info : client.row;
  x_industry_data : list industry_entry;
  x_leads : list (lead.row * option string);
  x_solutions : list solution.row;
  x_outreach_history : list (outreach.row * text_cell);
  x_campaign_stats : campaign_stats
}.

(** ** The directory of the database files *)

(** Whether [sqlite3.connect] opens the file at a path, creating it when
    it is not there.  It does not when the directory of the path is
    missing: [_get_db_path] makes [client_dbs] but no directory below it,
    so a [client_id] such as [nodir/acme] names a file that cannot be
    opened unless [client_dbs/nodir] happens to exist. *)
Class FileSystem := {
  can_open : string → bool
}.

(** ** [DatabaseManager]: the methods, on the content of [self.db_path] *)

Section DatabaseManager.
Context `{!JsonCodec} `{!FileSystem}.

(** [_json_array_contains(json_array, value)], the function registered
    with SQLite as [json_array_contains].  [except json.JSONDecodeError]
    catches that exception and no other. *)
Definition _json_array_contains (json_array : option string) (value : string)
    : outcome bool :=
  if negb (opt_str_truthy json_array) then Return false
  else
    match json_array with
    | None => Return false
    | Some text =>
        match json_loads text with
        | Return (JArr array) => Return (py_str_in value array)   (* value in array *)
        | Return _ => Return false                                (* not a list *)
        | Raise JSONDecodeError => Return false
        | Raise e => Raise e
        end
    end.

(** [create_client]: the INSERT violates the primary key, and raises
    [sqlite3.IntegrityError], when a row has the handle already. *)
Definition create_client (telegram_handle email industry location : string)
    (campaign_parameters : json_value) (now : Z) (d : database) : database * bool :=
  if bool_decide (telegram_handle ∈ client.telegram_handle <$> clients d) then (d, false)
  else
    let r := {| client.telegram_handle := telegram_handle;
                client.email := email;
                client.industry := industry;
                client.location := location;
                client.campaign_parameters := json_dumps campaign_parameters;
                client.created_at := now |} in
    ({| clients := clients d ++ [r];
        industry_data := industry_data d;
        lead_bucket := lead_bucket d;
        tailored_solutions := tailored_solutions d;
        outreach_log := outreach_log d |}, true).

(** [get_client]: [fetchone] of the rows with the handle. *)
Definition get_client (telegram_handle : string) (d : database)
    : outcome (option client_info) :=
  match filter (λ r, client.telegram_handle r = telegram_handle) (clients d) with
  | [] => Return None
  | r :: _ =>
      match json_loads (client.campaign_parameters r) with
      | Raise e => Raise e
      | Return params =>
          Return (Some {| ci_telegram_handle := client.telegram_handle r;
                          ci_email := client.email r;
                          ci_industry := client.industry r;
                          ci_location := client.location r;
                          ci_campaign_parameters := params;
                          ci_created_at := client.created_at r |})
      end
  end.

(** [add_industry_data]: [json.dumps(tags) if tags else None]. *)
Definition add_industry_data (source content pain_points : string)
    (title : option string) (tags : option (list string))
    (crawled_at : option string) (now : Z) (d : database) : database * Z :=
  let rowid := next_rowid (industry.id <$> industry_data d) in
  let cell :=
    match tags with
    | Some (t :: l) => Some (json_dumps (json_of_strings (t :: l)))
    | _ => None
    end in
  let r := {| industry.id := rowid;
              industry.source := source;
              industry.title := title;
              industry.content := content;
              industry.pain_points := pain_points;
              industry.tags := cell;
              industry.crawled_at := crawled_at;
              industry.created_at := now |} in
  ({| clients := clients d;
      industry_data := industry_data d ++ [r];
      lead_bucket := lead_bucket d;
      tailored_solutions := tailored_solutions d;
      outreach_log := outreach_log d |}, rowid).

(** The two queries over the industry entries call [json.loads] on the
    tags cells, in the registered function and in the loop over the
    fetched rows, and catch [json.JSONDecodeError] alone.  Another
    exception of [json.loads] ends the query: sqlite3 aborts a statement
    whose function raised with [OperationalError], and the loop lets the
    exception through.  The queries are rendered as the lists they
    return, on the stores where that does not happen: those whose cells
    [json.loads] reads or rejects, which [decodable] names and which
    include every store the methods have written. *)
Definition loads_or_rejects (text : string) : Prop :=
  ∀ e, json_loads text = Raise e → e = JSONDecodeError.

Definition decodable (d : database) : Prop :=
  Forall (λ r, ∀ text, industry.tags r = Some text → loads_or_rejects text)
         (industry_data d).

(** [json_array_contains(tags, ?) OR ... OR json_array_contains(tags, ?)],
    one disjunct per requested tag: a disjunct holds on a row where the
    function returns [True]. *)
Definition tag_conditions (tags : list string) (r : industry.row) : bool :=
  existsb (λ t, bool_decide (_json_array_contains (industry.tags r) t = Return true)) tags.

(** The body of the loop over [cursor.fetchall()]: decode a truthy
    ['tags'] cell, [None] when [json.loads] rejects it; a falsy cell
    stays as it is. *)
Definition decode_tags (cell : option string) : option json_value :=
  match cell with
  | None => None
  | Some text =>
      if str_truthy text
      then match json_loads text with
           | Return tags => Some tags
           | Raise _ => None
           end
      else Some (JStr text)
  end.

Definition decode_row (r : industry.row) : industry_entry :=
  {| e_id := industry.id r;
     e_source := industry.source r;
     e_title := industry.title r;
     e_content := industry.content r;
     e_pain_points := industry.pain_points r;
     e_tags := decode_tags (industry.tags r);
     e_crawled_at := industry.crawled_at r;
     e_created_at := industry.created_at r |}.

(** [get_industry_data(limit, tags)]. *)
Definition get_industry_data (limit : Z) (tags : option (list string))
    (d : database) : list industry_entry :=
  let selected :=
    if opt_list_truthy tags
    then filter (λ r, tag_conditions (default [] tags) r = true) (industry_data d)
    else industry_data d in
  decode_row <$> sql_limit limit (order_by_desc industry.created_at selected).

(** [search_industry_data(keyword, tags)]: both [LIKE] patterns are
    [f"%{keyword}%"]. *)
Definition search_industry_data (keyword : string) (tags : option (list string))
    (d : database) : list industry_entry :=
  let pattern := "%" +:+ keyword +:+ "%" in
  let matches (r : industry.row) : bool :=
    like pattern (industry.content r) || like_nullable pattern (industry.title r) in
  let selected :=
    if opt_list_truthy tags
    then filter (λ r, tag_conditions (default [] tags) r && matches r = true)
                (industry_data d)
    else filter (λ r, matches r = true) (industry_data d) in
  decode_row <$> order_by_desc industry.created_at selected.

(** [add_lead]. *)
Definition add_lead (company_name website contact_info details : string)
    (now : Z) (d : database) : database * Z :=
  let rowid := next_rowid (lead.id <$> lead_bucket d) in
  let r := {| lead.id := rowid;
              lead.company_name := Text company_name;
              lead.website := Text website;
              lead.contact_info := Text contact_info;
              lead.details := Text details;
              lead.created_at := now |} in
  ({| clients := clients d;
      industry_data := industry_data d;
      lead_bucket := lead_bucket d ++ [r];
      tailored_solutions := tailored_solutions d;
      outreach_log := outreach_log d |}, rowid).

(** [add_solution]: [status] takes its default. *)
Definition add_solution (lead_id : Z) (solution_text : string)
    (now : Z) (d : database) : database * Z :=
  let rowid := next_rowid (solution.id <$> tailored_solutions d) in
  let r := {| solution.id := rowid;
              solution.lead_id := lead_id;
              solution.solution_text := solution_text;
              solution.generated_at := now;
              solution.status := "pending" |} in
  ({| clients := clients d;
      industry_data := industry_data d;
      lead_bucket := lead_bucket d;
      tailored_solutions := tailored_solutions d ++ [r];
      outreach_log := outreach_log d |}, rowid).

(** [log_outreach]: [response] and [updated_at] start as NULL. *)
Definition log_outreach (lead_id : Z) (message_sent : string)
    (now : Z) (d : database) : database * Z :=
  let rowid := next_rowid (outreach.id <$> outreach_log d) in
  let r := {| outreach.id := rowid;
              outreach.lead_id := lead_id;
              outreach.message_sent := message_sent;
              outreach.sent_at := now;
              outreach.response := None;
              outreach.updated_at := None |} in
  ({| clients := clients d;
      industry_data := industry_data d;
      lead_bucket := lead_bucket d;
      tailored_solutions := tailored_solutions d;
      outreach_log := outreach_log d ++ [r] |}, rowid).

(** [SET response = ?, updated_at = CURRENT_TIMESTAMP] on one row. *)
Definition set_response (response : string) (now : Z) (r : outreach.row) : outreach.row :=
  {| outreach.id := outreach.id r;
     outreach.lead_id := outreach.lead_id r;
     outreach.message_sent := outreach.message_sent r;
     outreach.sent_at := outreach.sent_at r;
     outreach.response := Some response;
     outreach.updated_at := Some now |}.

(** [update_outreach_response], for an [outreach_id] in range: the UPDATE
    touches the rows [WHERE id = ?]. *)
Definition update_outreach_response (outreach_id : Z) (response : string)
    (now : Z) (d : database) : database * bool :=
  ({| clients := clients d;
      industry_data := industry_data d;
      lead_bucket := lead_bucket d;
      tailored_solutions := tailored_solutions d;
      outreach_log :=
        (λ r, if bool_decide (outreach.id r = outreach_id)
              then set_response response now r else r) <$> outreach_log d |}, true).

(** [lead_bucket lb LEFT JOIN tailored_solutions ts ON lb.id = ts.lead_id]
    with the columns [lb.*, ts.status]: one row per matching solution,
    and one row with a NULL status for a lead without solution. *)
Definition leads_left_join_solutions (d : database) : list (lead.row * option string) :=
  lb ← lead_bucket d;
  match filter (λ ts, solution.lead_id ts = lead.id lb) (tailored_solutions d) with
  | [] => [(lb, None)]
  | matching => (λ ts, (lb, Some (solution.status ts))) <$> matching
  end.

(** [get_leads(status, limit)]. *)
Definition get_leads (status : option string) (limit : Z) (d : database)
    : list (lead.row * option string) :=
  let joined := leads_left_join_solutions d in
  let selected :=
    if opt_str_truthy status
    then filter (λ row, row.2 = status) joined
    else joined in
  sql_limit limit (order_by_desc (λ row, lead.created_at row.1) selected).

(** [valid_fields] of [update_lead]. *)
Definition valid_fields : gset string :=
  {[ "company_name"; "website"; "contact_info"; "details" ]}.

(** [{k: v for k, v in updates.items() if k in valid_fields}]: the items
    under a recognised name, in the order of the mapping. *)
Definition update_fields (updates : list (string * py_value)) : list (string * py_value) :=
  filter (λ kv, kv.1 ∈ valid_fields) updates.

(** The value a [SET] clause gives a column: that of the rightmost
    assignment to it, if there is one. *)
Definition assigned (column : string) (sets : list (string * text_cell)) : option text_cell :=
  (list_to_map (reverse sets) : gmap string text_cell) !! column.

(** The effect of [SET k1 = ?, ..., kn = ?] on one lead: a column named
    by the clause takes the bound value, every other column stays. *)
Definition assign_lead (sets : list (string * text_cell)) (r : lead.row) : lead.row :=
  {| lead.id := lead.id r;
     lead.company_name := default (lead.company_name r) (assigned "company_name" sets);
     lead.website := default (lead.website r) (assigned "website" sets);
     lead.contact_info := default (lead.contact_info r) (assigned "contact_info" sets);
     lead.details := default (lead.details r) (assigned "details" sets);
     lead.created_at := lead.created_at r |}.

(** [update_lead(lead_id, updates)].  The parameters are the values of
    the recognised fields followed by [lead_id]; binding them comes
    before the statement runs.  [except sqlite3.Error] turns the
    [ProgrammingError] of a value sqlite3 cannot bind into [False]; the
    [OverflowError] of an [int] beyond 64 bits is no [sqlite3.Error] and
    leaves the method. *)
Definition update_lead (lead_id : Z) (updates : list (string * py_value))
    (d : database) : database * outcome bool :=
  let fields := update_fields updates in
  match fields with
  | [] => (d, Return false)
  | _ :: _ =>
      match bind_parameters (fields.*2 ++ [PyInt lead_id]) with
      | Raise e => (d, if sqlite3_Error e then Return false else Raise e)
      | Return bound =>
          let sets := zip fields.*1 (text_affinity <$> bound) in
          ({| clients := clients d;
              industry_data := industry_data d;
              lead_bucket :=
                (λ r, if bool_decide (lead.id r = lead_id)
                      then assign_lead sets r else r) <$> lead_bucket d;
              tailored_solutions := tailored_solutions d;
              outreach_log := outreach_log d |}, Return true)
      end
  end.

(** [get_solutions(lead_id, status)]: the two optional conditions, then
    [ORDER BY generated_at DESC]. *)
Definition get_solutions (lead_id : option Z) (status : option string)
    (d : database) : list solution.row :=
  let by_lead (ts : solution.row) : bool :=
    match lead_id with
    | Some l => bool_decide (solution.lead_id ts = l)
    | None => true
    end in
  let by_status (ts : solution.row) : bool :=
    if opt_str_truthy status
    then bool_decide (Some (solution.status ts) = status)
    else true in
  order_by_desc solution.generated_at
    (filter (λ ts, by_lead ts && by_status ts = true) (tailored_solutions d)).

(** [valid_statuses] of [update_solution_status]. *)
Definition valid_statuses : gset string :=
  {[ "pending"; "sent"; "reviewed"; "approved"; "rejected" ]}.

Definition set_status (status : string) (ts : solution.row) : solution.row :=
  {| solution.id := solution.id ts;
     solution.lead_id := solution.lead_id ts;
     solution.solution_text := solution.solution_text ts;
     solution.generated_at := solution.generated_at ts;
     solution.status := status |}.

(** [update_solution_status(solution_id, status)], for a [solution_id]
    in range. *)
Definition update_solution_status (solution_id : Z) (status : string)
    (d : database) : database * bool :=
  if bool_decide (status ∉ valid_statuses) then (d, false)
  else
    ({| clients := clients d;
        industry_data := industry_data d;
        lead_bucket := lead_bucket d;
        tailored_solutions :=
          (λ ts, if bool_decide (solution.id ts = solution_id)
                 then set_status status ts else ts) <$> tailored_solutions d;
        outreach_log := outreach_log d |}, true).

(** [outreach_log ol JOIN lead_bucket lb ON ol.lead_id = lb.id] with the
    columns [ol.*, lb.company_name]. *)
Definition outreach_join_leads (d : database) : list (outreach.row * text_cell) :=
  ol ← outreach_log d;
  (λ lb, (ol, lead.company_name lb))
    <$> filter (λ lb, lead.id lb = outreach.lead_id ol) (lead_bucket d).

(** [get_outreach_history(lead_id, limit)]. *)
Definition get_outreach_history (lead_id : option Z) (limit : Z) (d : database)
    : list (outreach.row * text_cell) :=
  let joined := outreach_join_leads d in
  let selected :=
    match lead_id with
    | Some l => filter (λ row, outreach.lead_id row.1 = l) joined
    | None => joined
    end in
  sql_limit limit (order_by_desc (λ row, outreach.sent_at row.1) selected).

(** [get_pending_responses()]: [WHERE ol.response IS NULL]. *)
Definition get_pending_responses (d : database) : list (outreach.row * text_cell) :=
  order_by_desc (λ row, outreach.sent_at row.1)
    (filter (λ row, outreach.response row.1 = None) (outreach_join_leads d)).

(** [SELECT status, COUNT( * ) ... GROUP BY status] collected into a
    dict. *)
Definition count_by_status (rows : list solution.row) : gmap string Z :=
  foldr (λ ts m, <[solution.status ts := 1 + default 0 (m !! solution.status ts)]> m)
        ∅ rows.

(** [get_campaign_stats()]. *)
Definition get_campaign_stats (d : database) : campaign_stats :=
  {| total_leads := sql_count (lead_bucket d);
     solution_stats := count_by_status (tailored_solutions d);
     outreach_stats_of :=
       {| total_outreach := sql_count (outreach_log d);
          responses :=
            sql_sum ((λ ol, match outreach.response ol with
                            | Some _ => 1
                            | None => 0
                            end) <$> outreach_log d) |} |}.

(** [export_campaign_data()]: [dict(cursor.fetchone())] raises
    [TypeError] when the clients table is empty. *)
Definition export_campaign_data (d : database) : outcome campaign_export :=
  match sql_limit 1 (clients d) with
  | [] => Raise TypeError
  | c :: _ =>
      Return {| x_client_info := c;
                x_industry_data := get_industry_data 1000 None d;
                x_leads := get_leads None 1000 d;
                x_solutions := get_solutions None None d;
                x_outreach_history := get_outreach_history None 1000 d;
                x_campaign_stats := get_campaign_stats d |}
  end.

(** *** One call on a manager *)

(** The public methods with their arguments. *)
Inductive call : Type :=
  | CreateClient (telegram_handle email industry location : string)
                 (campaign_parameters : json_value)
  | GetClient (telegram_handle : string)
  | AddIndustryData (source content pain_points : string) (title : option string)
                    (tags : option (list string)) (crawled_at : option string)
  | GetIndustryData (limit : Z) (tags : option (list string))
  | SearchIndustryData (keyword : string) (tags : option (list string))
  | AddLead (company_name website contact_info details : string)
  | AddSolution (lead_id : Z) (solution_text : string)
  | LogOutreach (lead_id : Z) (message_sent : string)
  | UpdateOutreachResponse (outreach_id : Z) (response : string)
  | GetLeads (status : option string) (limit : Z)
  | UpdateLead (lead_id : Z) (updates : list (string * py_value))
  | GetSolutions (lead_id : option Z) (status : option string)
  | UpdateSolutionStatus (solution_id : Z) (status : string)
  | GetOutreachHistory (lead_id : option Z) (limit : Z)
  | GetPendingResponses
  | GetCampaignStats
  | ExportCampaignData.

(** The value a call returns (or the exception it raises). *)
Inductive reply : Type :=
  | RRaise (e : exn)
  | RBool (b : bool)
  | RRowid (rowid : Z)
  | RClient (c : outcome (option client_info))
  | REntries (l : list industry_entry)
  | RLeads (l : list (lead.row * option string))
  | RSolutions (l : list solution.row)
  | ROutreach (l : list (outreach.row * text_cell))
  | RStats (s : campaign_stats)
  | RExport (x : outcome campaign_export).

Definition perform (c : call) (now : Z) (d : database) : database * reply :=
  match c with
  | CreateClient h e i l p => prod_map id RBool (create_client h e i l p now d)
  | GetClient h => (d, RClient (get_client h d))
  | AddIndustryData s c p t tags at_ =>
      prod_map id RRowid (add_industry_data s c p t tags at_ now d)
  | GetIndustryData limit tags => (d, REntries (get_industry_data limit tags d))
  | SearchIndustryData k tags => (d, REntries (search_industry_data k tags d))
  | AddLead n w c x => prod_map id RRowid (add_lead n w c x now d)
  | AddSolution l t => prod_map id RRowid (add_solution l t now d)
  | LogOutreach l m => prod_map id RRowid (log_outreach l m now d)
  | UpdateOutreachResponse o r => prod_map id RBool (update_outreach_response o r now d)
  | GetLeads s limit => (d, RLeads (get_leads s limit d))
  | UpdateLead l u =>
      prod_map id (λ r, match r with Return b => RBool b | Raise e => RRaise e end)
               (update_lead l u d)
  | GetSolutions l s => (d, RSolutions (get_solutions l s d))
  | UpdateSolutionStatus i s => prod_map id RBool (update_solution_status i s d)
  | GetOutreachHistory l limit => (d, ROutreach (get_outreach_history l limit d))
  | GetPendingResponses => (d, ROutreach (get_pending_responses d))
  | GetCampaignStats => (d, RStats (get_campaign_stats d))
  | ExportCampaignData => (d, RExport (export_campaign_data d))
  end.

(** A session on one store: calls in sequence, each with the time at
    which it runs. *)
Definition run_calls (session : list (call * Z)) (d : database) : database :=
  foldl (λ d cn, (perform cn.1 cn.2 d).1) d session.

(** *** Managers of several clients over one directory *)

(** [module_dir] is [os.path.dirname(__file__)] of [db_manager.py]. *)
Definition _get_db_path (module_dir client_id : string) : string :=
  let db_dir := os_path_join module_dir "client_dbs" in
  os_path_join db_dir (client_id +:+ ".db").

(** [sqlite3.connect(self.db_path)] after [_init_database]: a path
    without file yields the empty schema. *)
Definition connect (db_path : string) (files : gmap string database) : database :=
  default empty_database (files !! db_path).

(** [DatabaseManager(client_id).method(...)]: the constructor opens the
    file at the client's path, which raises [sqlite3.OperationalError]
    when it cannot be opened; otherwise the call runs on the file and the
    file keeps the result. *)
Definition call_method (module_dir client_id : string) (c : call) (now : Z)
    (files : gmap string database) : gmap string database * reply :=
  let db_path := _get_db_path module_dir client_id in
  if can_open db_path then
    let dr := perform c now (connect db_path files) in
    (<[db_path := dr.1]> files, dr.2)
  else (files, RRaise OperationalError).

(** ** [IndustryCrawler.crawl_industry_data] *)

Record crawl_result := {
  r_id : Z;
  r_source : string;
  r_title : option string;
  r_content : string;                (* content[:200] + "..." *)
  r_pain_points : string;
  r_tags : option (list string)
}.

Section Crawler.
(** [page_content i url] is what the [i]-th iteration gets from
    [await self._get_page_content(url)]: [None] after any fetch
    failure, which that method logs and swallows. *)
Variable page_content : nat → string → option string.
(** The statements from [BeautifulSoup(content, ...)] to [md(...)]:
    the title and the markdown, or [None] when one of them raises. *)
Variable normalize : string → option (option string * string).
(** [CURRENT_TIMESTAMP] and [datetime.now().isoformat()] in the
    [i]-th iteration. *)
Variable clock : nat → Z.
Variable isoformat_now : nat → string.

Definition pain_points_placeholder : string :=
  "TODO: Extract pain points using LLM".

(** The body of the [for] loop on the [i]-th url: [None] stands for
    [continue] and for the [except Exception] branch, which both go
    on with the next url and leave the store as it was. *)
Definition crawl_one (i : nat) (url : string) (tags : option (list string))
    (d : database) : option (database * crawl_result) :=
  match page_content i url with
  | None => None
  | Some content =>
      if negb (str_truthy content) then None
      else
        match normalize content with
        | None => None
        | Some (title, markdown) =>
            let '(d', entry_id) :=
              add_industry_data url markdown pain_points_placeholder title tags
                                (Some (isoformat_now i)) (clock i) d in
            Some (d', {| r_id := entry_id;
                         r_source := url;
                         r_title := title;
                         r_content := str_prefix 200 markdown +:+ "...";
                         r_pain_points := pain_points_placeholder;
                         r_tags := tags |})
        end
  end.

Fixpoint crawl_from (i : nat) (urls : list string) (tags : option (list string))
    (d : database) (results : list crawl_result) : database * list crawl_result :=
  match urls with
  | [] => (d, results)
  | url :: rest =>
      match crawl_one i url tags d with
      | Some (d', result) => crawl_from (S i) rest tags d' (results ++ [result])
      | None => crawl_from (S i) rest tags d results
      end
  end.

(** [crawl_industry_data(urls, tags)]. *)
Definition crawl_industry_data (urls : list string) (tags : option (list string))
    (d : database) : database * list crawl_result :=
  crawl_from 0 urls tags d [].
End Crawler.
End DatabaseManager.

(** ** [IndustryCrawler]: the two read methods *)

Section CrawlerReads.
Context `{!JsonCodec}.

(** [get_recent_data(limit, tags)]: [self.db.get_industry_data]. *)
Definition get_recent_data (limit : Z) (tags : option (list string)) (d : database)
    : list industry_entry :=
  get_industry_data limit tags d.

(** [search_data(keyword, tags)]: [self.db.search_industry_data]. *)
Definition search_data (keyword : string) (tags : option (list string)) (d : database)
    : list industry_entry :=
  search_industry_data keyword tags d.
End CrawlerReads.

(** ** [OnboardingBot]: the conversation of [src/onboarding/bot.py] *)

(** [update.effective_user]: the numeric id and the optional username. *)
Record telegram_user := {
  user_id : Z;
  user_username : option string
}.

(** The states of the conversation; [END] is [ConversationHandler.END]. *)
Inductive conversation_state : Type :=
  | EMAIL
  | INDUSTRY
  | LOCATION
  | CAMPAIGN_PARAMS
  | END.

(** What a handler sends with [reply_text], by the message it is. *)
Inductive bot_reply : Type :=
  | Welcome (display_name : string)     (* "Welcome to Gorilla7, ..." *)
  | AskIndustry                         (* "What industry are you targeting?" *)
  | AskLocation                         (* "What's your target location/region?" *)
  | AskCampaignParams                   (* "Finally, let's set up ..." *)
  | OnboardingComplete                  (* "Onboarding complete! ..." *)
  | ProfileIssue                        (* "There was an issue creating your profile ..." *)
  | InvalidJson                         (* "Invalid JSON format. ..." *)
  | Cancelled.                          (* "Onboarding cancelled. ..." *)

(** What comes in: a command ([/start], [/cancel], ...) or a message
    that is no command, with its text; the text is empty for a message
    that carries none (a photo, a sticker). *)
Inductive incoming : Type :=
  | Command (name : string)
  | Message (text : string).

Section OnboardingBot.
Context `{!JsonCodec} `{!FileSystem}.
(** [os.path.dirname(__file__)] of [db_manager.py]. *)
Variable module_dir : string.

(** [_init_database] on a file that opens: [CREATE TABLE IF NOT EXISTS]
    leaves a file with the schema at the path, and the content of a file
    that was there. *)
Definition _init_database (db_path : string) (files : gmap string database)
    : gmap string database :=
  <[db_path := connect db_path files]> files.

(** [DatabaseManager(client_id)]: [sqlite3.connect] in [_init_database]
    raises [sqlite3.OperationalError] when the file at the client's path
    cannot be opened. *)
Definition DatabaseManager_init (client_id : string) (files : gmap string database)
    : outcome (gmap string database) :=
  let db_path := _get_db_path module_dir client_id in
  if can_open db_path then Return (_init_database db_path files)
  else Raise OperationalError.

(** What a handler leaves behind: [context.user_data], the files, and
    either the reply with the next state or [None] when the handler
    raised (the [KeyError] of a [context.user_data[...]] lookup, an
    exception of [json.loads] it does not catch, or the
    [OperationalError] of a file that cannot be opened). *)
Record handled := {
  h_user_data : gmap string string;
  h_files : gmap string database;
  h_result : option (bot_reply * conversation_state)
}.

(** [start]. *)
Definition start (user : telegram_user) (user_data : gmap string string)
    (files : gmap string database) : handled :=
  let user_id_str := str_of_int (user_id user) in
  let telegram_handle := user_username user in
  let client_id :=
    if opt_str_truthy telegram_handle then default "" telegram_handle else user_id_str in
  let display_name :=
    if opt_str_truthy telegram_handle then "@" +:+ default "" telegram_handle
    else "User " +:+ user_id_str in
  let user_data' :=
    <["display_name" := display_name]> (<["client_id" := client_id]> user_data) in
  match DatabaseManager_init client_id files with
  | Return files' =>
      {| h_user_data := user_data'; h_files := files';
         h_result := Some (Welcome display_name, EMAIL) |}
  | Raise _ => {| h_user_data := user_data'; h_files := files; h_result := None |}
  end.

(** The three handlers that store the text under a key, read
    ['display_name'] for the log line, and ask the next question. *)
Definition store_answer (key : string) (reply : bot_reply) (next : conversation_state)
    (text : string) (user_data : gmap string string) (files : gmap string database)
    : handled :=
  let user_data' := <[key := text]> user_data in
  {| h_user_data := user_data';
     h_files := files;
     h_result := match user_data' !! "display_name" with
                 | Some _ => Some (reply, next)
                 | None => None
                 end |}.

Definition handle_email := store_answer "email" AskIndustry INDUSTRY.
Definition handle_industry := store_answer "industry" AskLocation LOCATION.
Definition handle_location := store_answer "location" AskCampaignParams CAMPAIGN_PARAMS.

(** [handle_campaign_params]: the text is parsed first; the store is
    opened and the client created only for a text that parses.
    [except json.JSONDecodeError] answers a text that is no document; any
    other exception of [json.loads] leaves the handler, and so does the
    [OperationalError] of a store that cannot be opened. *)
Definition handle_campaign_params (text : string) (now : Z)
    (user_data : gmap string string) (files : gmap string database) : handled :=
  match json_loads text with
  | Raise JSONDecodeError =>
      {| h_user_data := user_data; h_files := files;
         h_result := Some (InvalidJson, CAMPAIGN_PARAMS) |}
  | Raise _ => {| h_user_data := user_data; h_files := files; h_result := None |}
  | Return campaign_params =>
      match user_data !! "display_name", user_data !! "client_id" with
      | Some display_name, Some client_id =>
          match DatabaseManager_init client_id files with
          | Raise _ => {| h_user_data := user_data; h_files := files; h_result := None |}
          | Return files' =>
              match user_data !! "email", user_data !! "industry",
                    user_data !! "location" with
              | Some email, Some industry, Some location =>
                  let db_path := _get_db_path module_dir client_id in
                  let created :=
                    create_client display_name email industry location campaign_params now
                                  (connect db_path files') in
                  {| h_user_data := user_data;
                     h_files := <[db_path := created.1]> files';
                     h_result := Some (if created.2 then OnboardingComplete
                                       else ProfileIssue, END) |}
              | _, _, _ =>
                  {| h_user_data := user_data; h_files := files'; h_result := None |}
              end
          end
      | _, _ => {| h_user_data := user_data; h_files := files; h_result := None |}
      end
  end.

(** [cancel]. *)
Definition cancel (user_data : gmap string string) (files : gmap string database)
    : handled :=
  {| h_user_data := user_data; h_files := files; h_result := Some (Cancelled, END) |}.

(** One user's side of the bot: the state of the conversation ([None]
    when there is none), [context.user_data] and the files. *)
Record bot := {
  conversation : option conversation_state;
  user_data : gmap string string;
  files : gmap string database
}.

(** A handler's result taken up by the [ConversationHandler]: a returned
    state becomes the state of the conversation, [END] closes it, and a
    handler that raised leaves the state where it was. *)
Definition settle (before : option conversation_state) (h : handled) : bot * option bot_reply :=
  ({| conversation := match h_result h with
                      | Some (_, END) => None
                      | Some (_, next) => Some next
                      | None => before
                      end;
      user_data := h_user_data h;
      files := h_files h |},
   fst <$> h_result h).

(** The [ConversationHandler] of [_setup_handlers]: [/start] is the entry
    point, each state hands a message to its handler when
    [filters.TEXT & ~filters.COMMAND] passes it, that is when it is no
    command and its text is not empty, [/cancel] is the fallback;
    anything else matches no handler. *)
Definition dispatch (user : telegram_user) (msg : incoming) (now : Z) (b : bot)
    : bot * option bot_reply :=
  match conversation b, msg with
  | None, Command name =>
      if bool_decide (name = "start") then settle None (start user (user_data b) (files b))
      else (b, None)
  | None, Message _ => (b, None)
  | Some state, Message text =>
      if negb (str_truthy text) then (b, None)
      else
        match state with
        | EMAIL => settle (Some state) (handle_email text (user_data b) (files b))
        | INDUSTRY => settle (Some state) (handle_industry text (user_data b) (files b))
        | LOCATION => settle (Some state) (handle_location text (user_data b) (files b))
        | CAMPAIGN_PARAMS =>
            settle (Some state) (handle_campaign_params text now (user_data b) (files b))
        | END => (b, None)
        end
  | Some state, Command name =>
      if bool_decide (name = "cancel") then settle (Some state) (cancel (user_data b) (files b))
      else (b, None)
  end.

(** A run of the bot over the messages of one user, with the replies it
    sent. *)
Definition dispatch_all (user : telegram_user) (msgs : list (incoming * Z)) (b : bot)
    : bot * list bot_reply :=
  foldl (λ br m, let '(b', r) := dispatch user m.1 m.2 br.1 in
                 (b', br.2 ++ option_list r))
        (b, []) msgs.
End OnboardingBot.

(** * The vocabulary of the specification *)

(** [a] may stand before [b] in a newest-first listing by [key]. *)
Definition not_older {A} (key : A → Z) (a b : A) : Prop := key b ≤ key a.

(** The requested tags and a tag set have a tag in common. *)
Definition intersects (requested stored : list string) : Prop :=
  ∃ t, t ∈ requested ∧ t ∈ stored.

#[export] Instance intersects_dec requested stored : Decision (intersects requested stored).
Proof.
  refine (cast_if (decide (Exists (λ t, t ∈ stored) requested)));
    unfold intersects; rewrite Exists_exists in *; done.
Defined.

(** The strings of a decoded array. *)
Definition strings_of (array : list json_value) : list string :=
  omap (λ e, match e with JStr s => Some s | _ => None end) array.

(** The handles the clients table holds. *)
Definition handles (d : database) : list string := client.telegram_handle <$> clients d.

(** The rows of one handle, as [get_client] selects them. *)
Definition rows_of_handle (h : string) (d : database) : list client.row :=
  filter (λ r, client.telegram_handle r = h) (clients d).

(** A value sqlite3 binds, and what a TEXT column then holds. *)
Definition bindable (v : py_value) : Prop := ∃ b, bind_parameter v = Return b.

Definition stored_as (v : py_value) (c : text_cell) : Prop :=
  ∃ b, bind_parameter v = Return b ∧ c = text_affinity b.

(** One column of a lead before ([old]) and after ([new]) [update_lead]:
    it holds what the mapping gives under the column's name, as a TEXT
    column stores it, or keeps its own when the mapping does not name
    it. *)
Definition column_updated (updates : list (string * py_value)) (name : string)
    (old new : text_cell) : Prop :=
  (∀ v, (name, v) ∈ updates → stored_as v new)
  ∧ (name ∉ updates.*1 → new = old).

(** The relation between a lead before and after [update_lead]: a lead
    with another id is the same row; the addressed lead keeps [id] and
    [created_at] and takes, column by column, the value the mapping gives
    under that column's name, or keeps its own. *)
Definition lead_updated (lead_id : Z) (updates : list (string * py_value))
    (r r' : lead.row) : Prop :=
  lead.id r' = lead.id r
  ∧ lead.created_at r' = lead.created_at r
  ∧ (lead.id r ≠ lead_id → r' = r)
  ∧ (lead.id r = lead_id →
     column_updated updates "company_name" (lead.company_name r) (lead.company_name r')
     ∧ column_updated updates "website" (lead.website r) (lead.website r')
     ∧ column_updated updates "contact_info" (lead.contact_info r) (lead.contact_info r')
     ∧ column_updated updates "details" (lead.details r) (lead.details r')).

(** [{**u1, **u2}], the mapping [u1] updated with [u2]: the items of
    [u1], those [u2] also names with the value [u2] gives, followed by
    the items of [u2] under names [u1] does not have. *)
Definition dict_get (k : string) (u : list (string * py_value)) : option py_value :=
  (list_to_map u : gmap string py_value) !! k.

Definition dict_merge (u1 u2 : list (string * py_value)) : list (string * py_value) :=
  ((λ kv, (kv.1, default kv.2 (dict_get kv.1 u2))) <$> u1)
  ++ filter (λ kv, kv.1 ∉ u1.*1) u2.

(** The number of solutions with a given status. *)
Definition solutions_with (status : string) (rows : list solution.row) : Z :=
  sql_count (filter (λ ts, solution.status ts = status) rows).

(** The number of outreach records that carry a response. *)
Definition responded (rows : list outreach.row) : Z :=
  sql_count (filter (λ ol, outreach.response ol ≠ None) rows).

(** The scenario of the specification: three leads, two solutions with
    the statuses [pending] and [approved], one outreach with a response. *)
Definition stats_scenario : list (call * Z) :=
  [ (AddLead "Tech Corp" "https://techcorp.com" "contact@techcorp.com" "a", 1);
    (AddLead "Cloud Solutions Inc" "https://cloudsolutions.com" "info@cloudsolutions.com" "b", 2);
    (AddLead "Third Ltd" "https://third.example" "hello@third.example" "c", 3);
    (AddSolution 1 "Custom solution for lead 1", 4);
    (AddSolution 2 "Custom solution for lead 2", 5);
    (UpdateSolutionStatus 2 "approved", 6);
    (LogOutreach 1 "Initial contact message for lead 1", 7);
    (UpdateOutreachResponse 1 "Interested in learning more", 8) ].

(** One url of a batch that went through: its position, the title and
    the markdown it was normalised to. *)
Record success := {
  s_index : nat;
  s_url : string;
  s_title : option string;
  s_markdown : string
}.

Section vocabulary.
Context `{!JsonCodec} `{!FileSystem}.

(** The tag set a stored cell stands for: the strings of the array it
    holds, and nothing when the cell is NULL or holds no array. *)
Definition tag_set (cell : option string) : list string :=
  match cell with
  | None => []
  | Some text =>
      match json_loads text with
      | Return (JArr array) => strings_of array
      | _ => []
      end
  end.

(** A cell that is absent, or whose text is not a parsable JSON array:
    [json.loads] does not return an array for it. *)
Definition malformed (cell : option string) : Prop :=
  match cell with
  | None => True
  | Some text => ∀ array, json_loads text ≠ Return (JArr array)
  end.

(** The rows [get_industry_data] selects before ordering, in the words of
    the specification: those whose tag set meets the requested tags, or
    all rows when no tag is requested. *)
Definition matching_rows (tags : option (list string)) (d : database) : list industry.row :=
  if opt_list_truthy tags
  then filter (λ r, intersects (default [] tags) (tag_set (industry.tags r))) (industry_data d)
  else industry_data d.

(** The cell [add_industry_data] writes for a tag list, and the value the
    read loop leaves under ['tags'] for it. *)
Definition stored_cell (tags : list string) : option string :=
  match tags with
  | [] => None
  | _ :: _ => Some (json_dumps (json_of_strings tags))
  end.

Definition read_back (tags : list string) : option json_value :=
  match tags with
  | [] => None
  | _ :: _ => Some (json_of_strings tags)
  end.

(** A session of one client: its calls in sequence on the shared
    directory. *)
Definition call_methods (module_dir client_id : string) (session : list (call * Z))
    (files : gmap string database) : gmap string database :=
  foldl (λ fs cn, (call_method module_dir client_id cn.1 cn.2 fs).1) files session.

Section crawl_vocabulary.
Variable page_content : nat → string → option string.
Variable normalize : string → option (option string * string).
Variable clock : nat → Z.
Variable isoformat_now : nat → string.

(** Fetch and normalisation of the [i]-th url, apart from the store: the
    url fails when no content comes back (or an empty one) or when the
    normalisation raises. *)
Definition processed (i : nat) (url : string) : option (option string * string) :=
  match page_content i url with
  | None => None
  | Some content => if str_truthy content then normalize content else None
  end.

(** The urls of a batch that succeed, in input order. *)
Fixpoint successes_from (i : nat) (urls : list string) : list success :=
  match urls with
  | [] => []
  | url :: rest =>
      match processed i url with
      | Some (title, markdown) =>
          {| s_index := i; s_url := url; s_title := title; s_markdown := markdown |}
            :: successes_from (S i) rest
      | None => successes_from (S i) rest
      end
  end.

(** The row and the outcome that belong to a success stored under
    [rowid]. *)
Definition row_of (tags : option (list string)) (rowid : Z) (s : success) : industry.row :=
  {| industry.id := rowid;
     industry.source := s_url s;
     industry.title := s_title s;
     industry.content := s_markdown s;
     industry.pain_points := pain_points_placeholder;
     industry.tags := stored_cell (default [] tags);
     industry.crawled_at := Some (isoformat_now (s_index s));
     industry.created_at := clock (s_index s) |}.

Definition outcome_of (tags : option (list string)) (rowid : Z) (s : success) : crawl_result :=
  {| r_id := rowid;
     r_source := s_url s;
     r_title := s_title s;
     r_content := str_prefix 200 (s_markdown s) +:+ "...";
     r_pain_points := pain_points_placeholder;
     r_tags := tags |}.

(** Successes numbered with consecutive row identifiers. *)
Fixpoint numbered {B} (f : Z → success → B) (rowid : Z) (ok : list success) : list B :=
  match ok with
  | [] => []
  | s :: rest => f rowid s :: numbered f (rowid + 1) rest
  end.
End crawl_vocabulary.
End vocabulary.

(** ** Vocabulary of the further properties *)




(** The integers [first], [first + 1], ..., [first + n - 1]. *)
Fixpoint consecutive (first : Z) (n : nat) : list Z :=
  match n with
  | O => []
  | S n' => first :: consecutive (first + 1) n'
  end.

(** The solutions that refer to a lead. *)
Definition solutions_of (lb : lead.row) (d : database) : list solution.row :=
  filter (λ ts, solution.lead_id ts = lead.id lb) (tailored_solutions d).


(** The keyword is made of [%] characters only (it may be empty). *)
Fixpoint percent_only (keyword : string) : bool :=
  match keyword with
  | EmptyString => true
  | String c k => Ascii.eqb c "%" && percent_only k
  end.

(** The row identifiers of the four numbered tables are 1, 2, ..., in
    insertion order. *)
Definition rowids_consecutive (d : database) : Prop :=
  industry.id <$> industry_data d = consecutive 1 (length (industry_data d))
  ∧ lead.id <$> lead_bucket d = consecutive 1 (length (lead_bucket d))
  ∧ solution.id <$> tailored_solutions d = consecutive 1 (length (tailored_solutions d))
  ∧ outreach.id <$> outreach_log d = consecutive 1 (length (outreach_log d)).

(** The identifier of a user's store and the handle of the user's client
    row, as the conversation derives them. *)
Definition client_id_of (user : telegram_user) : string :=
  match user_username user with
  | Some (String c u) => String c u
  | _ => str_of_int (user_id user)
  end.

Definition display_name_of (user : telegram_user) : string :=
  match user_username user with
  | Some (String c u) => "@" +:+ String c u
  | _ => "User " +:+ str_of_int (user_id user)
  end.

(** The five messages of a conversation that runs to its end. *)
Definition onboarding_messages (email industry location params : string)
    (t0 t1 t2 t3 t4 : Z) : list (incoming * Z) :=
  [ (Command "start", t0); (Message email, t1); (Message industry, t2);
    (Message location, t3); (Message params, t4) ].

(** The keys [context.user_data] holds when the conversation is in a
    state: those [start] wrote and one more per answered question.  The
    handler of a state reads some of them. *)
Definition keys_held (state : conversation_state) : list string :=
  match state with
  | EMAIL => ["display_name"; "client_id"]
  | INDUSTRY => ["display_name"; "client_id"; "email"]
  | LOCATION => ["display_name"; "client_id"; "email"; "industry"]
  | CAMPAIGN_PARAMS => ["display_name"; "client_id"; "email"; "industry"; "location"]
  | END => []
  end.

(** An open conversation is in one of the four asking states and finds
    the keys of its state in [context.user_data]. *)
Definition keys_present (b : bot) : Prop :=
  match conversation b with
  | None => True
  | Some END => False
  | Some state => Forall (λ k, is_Some (user_data b !! k)) (keys_held state)
  end.

(** An open conversation was entered through [start], which opened the
    store of the client: the file at the path of ['client_id'] opens. *)
Definition store_opens `{!FileSystem} (module_dir : string) (b : bot) : Prop :=
  match conversation b with
  | None => True
  | Some _ =>
      ∃ client_id, user_data b !! "client_id" = Some client_id
                   ∧ can_open (_get_db_path module_dir client_id) = true
  end.

(** A user of the bot, the parameters they send, and the files after a
    first onboarding of theirs. *)
Definition test_user : telegram_user := {| user_id := 42; user_username := Some "test_user" |}.
Definition test_params : json_value := json_of_strings ["iteration_count"; "search_depth"].
Definition test_module_dir : string := "/srv/gurilla7/database".

(** The directory tree of the examples: the directories on the way to
    [client_dbs] under [test_module_dir], the last of which
    [_get_db_path] makes, and no other; the working directory is the
    root.  A file is opened when the components of its directory lead,
    one after the other, to directories of the tree: an empty component
    and [.] stay, [..] goes up, a name goes down. *)
Definition test_directories : list string := ["srv"; "gurilla7"; "database"; "client_dbs"].

Fixpoint path_components (chars current : list ascii) : list string :=
  match chars with
  | [] => [String.string_of_list_ascii (reverse current)]
  | c :: rest =>
      if Ascii.eqb c "/"
      then String.string_of_list_ascii (reverse current) :: path_components rest []
      else path_components rest (c :: current)
  end.

Fixpoint walk_directories (directory components : list string) : option (list string) :=
  match components with
  | [] => Some directory
  | c :: rest =>
      if bool_decide (c = "" ∨ c = ".") then walk_directories directory rest
      else if bool_decide (c = "..") then walk_directories (removelast directory) rest
      else if bool_decide (directory ++ [c] `prefix_of` test_directories)
           then walk_directories (directory ++ [c]) rest
           else None
  end.

#[export] Instance test_file_system : FileSystem :=
  {| can_open := λ path,
       bool_decide (is_Some (walk_directories []
         (path_components (String.list_ascii_of_string (os_path_dirname path)) []))) |}.

Section onboarding_scenario.
Context `{!JsonCodec}.

Definition onboarded_files : gmap string database :=
  {[ _get_db_path test_module_dir "test_user" :=
       (create_client "@test_user" "first@example.com" "Retail" "Lisbon" test_params 1
                      empty_database).1 ]}.

(** A store with two crawled entries, one of which mentions sales. *)
Definition crawled_store : database :=
  (add_industry_data "https://example.com/trends" "Retail SALES grew by 4%" "TODO"
                     (Some "Trends") (Some ["industry_insights"; "statistics"]) None 2
     (add_industry_data "https://example.com/about" "About the company" "TODO"
                        None (Some ["industry_insights"]) None 1 empty_database).1).1.
End onboarding_scenario.

(** * Properties *)

(** ** The runnable codec satisfies the interface *)

Module fragment_codec_facts.
Import fragment_codec.

Lemma step_escape_char done cur c :
  foldl step (InString done cur) (escape_char c) = InString done (cur ++ [c]).
Proof.
  destruct c as [b0 b1 b2 b3 b4 b5 b6 b7].
  destruct b0, b1, b2, b3, b4, b5, b6, b7; reflexivity.
Qed.

Lemma step_escaped done cur (l : list ascii) :
  foldl step (InString done cur) (mbind escape_char l) = InString done (cur ++ l).
Proof.
  revert cur. induction l as [|c l IH]; intros cur; simpl.
  - by rewrite app_nil_r.
  - rewrite foldl_app, step_escape_char, IH. by rewrite <- app_assoc.
Qed.

(** Reading a quoted string from a state that expects one. *)
Lemma step_quote done s rest :
  foldl step (InString done []) (mbind escape_char (String.list_ascii_of_string s)
                                  ++ dquote :: rest)
  = foldl step (After (done ++ [s])) rest.
Proof.
  rewrite foldl_app, step_escaped. simpl.
  by rewrite String.string_of_list_ascii_of_string.
Qed.

Lemma print_strings_tail s l :
  join comma_space (List.map print (JStr <$> (s :: l))) ++ ["]"%char]
  = quote s ++ tail_of l.
Proof.
  revert s. induction l as [|s' l IH]; intros s.
  - reflexivity.
  - change (join comma_space (List.map print (JStr <$> s :: s' :: l)))
      with (quote s ++ comma_space
              ++ join comma_space (List.map print (JStr <$> s' :: l))).
    rewrite <- !app_assoc. rewrite IH. reflexivity.
Qed.

Lemma step_tail done l :
  foldl step (After done) (tail_of l) = Closed (done ++ l).
Proof.
  revert done. induction l as [|s l IH]; intros done; simpl.
  - by rewrite app_nil_r.
  - unfold quote. rewrite <- app_assoc. simpl.
    rewrite step_quote, IH. by rewrite <- app_assoc.
Qed.

Lemma loads_array (chars : list ascii) :
  opening chars = 0%nat →
  loads (String.string_of_list_ascii ("["%char :: chars))
  = match foldl step Open chars with
    | Closed done => Return (json_of_strings done)
    | _ => Raise JSONDecodeError
    end.
Proof.
  intros Hopen. unfold loads.
  rewrite String.list_ascii_of_string_of_list_ascii.
  change (opening ("["%char :: chars)) with (S (opening chars)). rewrite Hopen.
  change (recursion_limit <=? 1)%nat with false. cbv iota.
  reflexivity.
Qed.

Lemma loads_dumps_strings (l : list string) :
  loads (dumps (json_of_strings l)) = Return (json_of_strings l).
Proof.
  destruct l as [|s l]; [reflexivity|].
  unfold dumps, json_of_strings.
  change (print (JArr (JStr <$> s :: l)))
    with ("["%char :: join comma_space (List.map print (JStr <$> s :: l)) ++ ["]"%char]).
  rewrite print_strings_tail.
  rewrite loads_array by reflexivity. unfold quote. simpl.
  rewrite <- app_assoc. simpl.
  rewrite (step_quote [] s), step_tail. reflexivity.
Qed.

End fragment_codec_facts.

#[export] Instance fragment_json_codec : JsonCodec :=
  {| json_dumps := fragment_codec.dumps;
     json_loads := fragment_codec.loads;
     json_loads_empty := eq_refl;
     json_loads_dumps_strings := fragment_codec_facts.loads_dumps_strings |}.

(** ** Ordering, limits and row identifiers *)

Section sql_facts.
Context {A : Type} (key : A → Z).

Lemma insert_desc_perm x l : insert_desc key x l ≡ₚ x :: l.
Proof.
  induction l as [|y l IH]; simpl; [done|].
  destruct (key y <=? key x); [done|].
  rewrite IH. apply Permutation_swap.
Qed.

Lemma order_by_desc_perm l : order_by_desc key l ≡ₚ l.
Proof.
  induction l as [|x l IH]; simpl; [done|].
  fold (order_by_desc key l). by rewrite insert_desc_perm, IH.
Qed.

Lemma insert_desc_sorted x l :
  StronglySorted (not_older key) l → StronglySorted (not_older key) (insert_desc key x l).
Proof.
  induction 1 as [|y l Hl IH Hy]; simpl.
  - repeat constructor.
  - destruct (Z.leb_spec (key y) (key x)) as [Hle|Hgt].
    + constructor; [by constructor|].
      constructor; [exact Hle|].
      eapply Forall_impl; [exact Hy|]. unfold not_older. intros; lia.
    + constructor; [done|].
      rewrite insert_desc_perm. constructor; [unfold not_older; lia | exact Hy].
Qed.

(** The sort is stable: the rows of one key come out in the order they
    were scanned. *)
Lemma insert_desc_stable (k : Z) x l :
  filter (λ y, key y = k) (insert_desc key x l) = filter (λ y, key y = k) (x :: l).
Proof.
  induction l as [|y l IH]; simpl; [done|].
  destruct (Z.leb_spec (key y) (key x)) as [Hle|Hgt]; [done|].
  rewrite (filter_cons _ y), IH, !(filter_cons _ x), (filter_cons _ y).
  repeat case_decide; try done. lia.
Qed.

Lemma order_by_desc_stable (k : Z) l :
  filter (λ y, key y = k) (order_by_desc key l) = filter (λ y, key y = k) l.
Proof.
  induction l as [|x l IH]; [done|].
  change (order_by_desc key (x :: l)) with (insert_desc key x (order_by_desc key l)).
  by rewrite insert_desc_stable, !(filter_cons _ x), IH.
Qed.

Lemma order_by_desc_sorted l : StronglySorted (not_older key) (order_by_desc key l).
Proof.
  induction l as [|x l IH]; simpl; [constructor|].
  by apply insert_desc_sorted.
Qed.

Lemma elem_of_order_by_desc x l : x ∈ order_by_desc key l ↔ x ∈ l.
Proof. by rewrite order_by_desc_perm. Qed.

Lemma order_by_desc_length l : length (order_by_desc key l) = length l.
Proof. by rewrite order_by_desc_perm. Qed.
End sql_facts.

Section limit_facts.
Context {A : Type}.
Implicit Types (l : list A) (n : Z).

Lemma sql_limit_negative n l : n < 0 → sql_limit n l = l.
Proof. intros Hn. unfold sql_limit. by rewrite (proj2 (Z.ltb_lt _ _) Hn). Qed.

Lemma sql_limit_take n l : 0 ≤ n → sql_limit n l = take (Z.to_nat n) l.
Proof. intros Hn. unfold sql_limit. by rewrite (proj2 (Z.ltb_ge _ _) Hn). Qed.

Lemma sql_limit_all n l :
  n < 0 ∨ Z.of_nat (length l) ≤ n → sql_limit n l = l.
Proof.
  intros [Hn|Hn]; [by apply sql_limit_negative|].
  rewrite sql_limit_take by lia. apply take_ge. lia.
Qed.

Lemma sql_limit_length n l :
  0 ≤ n → Z.of_nat (length (sql_limit n l)) ≤ n.
Proof. intros Hn. rewrite sql_limit_take by done. rewrite length_take. lia. Qed.

Lemma sql_limit_prefix n l : sql_limit n l `prefix_of` l.
Proof.
  unfold sql_limit. destruct (n <? 0); [done|]. apply prefix_take.
Qed.

Lemma elem_of_sql_limit n l x : x ∈ sql_limit n l → x ∈ l.
Proof.
  destruct (sql_limit_prefix n l) as [k Hk]. intros Hx.
  rewrite Hk. apply elem_of_app. by left.
Qed.
End limit_facts.

Lemma next_rowid_fresh (ids : list Z) : Forall (λ i, i < next_rowid ids) ids.
Proof.
  unfold next_rowid. induction ids as [|i ids IH]; simpl; constructor.
  - lia.
  - eapply Forall_impl; [exact IH|]. simpl. intros; lia.
Qed.

Lemma next_rowid_positive (ids : list Z) : 0 < next_rowid ids.
Proof.
  unfold next_rowid. induction ids as [|i ids IH]; simpl; lia.
Qed.

Lemma filter_none {A} (P : A → Prop) `{!∀ x, Decision (P x)} (l : list A) :
  Forall (λ x, ¬ P x) l → filter P l = [].
Proof.
  induction 1 as [|x l Hx _ IH]; [done|]. by rewrite filter_cons_False.
Qed.

(** Rewriting the rows a [WHERE] clause selects changes nothing when it
    selects none. *)
Lemma fmap_unselected {A} (P : A → Prop) `{!∀ x, Decision (P x)} (f : A → A) (l : list A) :
  Forall (λ x, ¬ P x) l → (λ x, if bool_decide (P x) then f x else x) <$> l = l.
Proof.
  induction 1 as [|x l Hx _ IH]; [done|].
  rewrite fmap_cons, IH. by rewrite bool_decide_eq_false_2.
Qed.

(** ** The tag predicate *)

Section tag_facts.
Context `{!JsonCodec}.

Lemma strings_of_strings (l : list string) : strings_of (JStr <$> l) = l.
Proof. unfold strings_of. induction l as [|s l IH]; simpl; [done|by f_equal]. Qed.

Lemma py_str_in_spec value array :
  py_str_in value array = true ↔ value ∈ strings_of array.
Proof.
  unfold py_str_in, strings_of. induction array as [|e array IH]; simpl.
  - split; [done|]. by intros ?%elem_of_nil.
  - rewrite orb_true_iff, IH.
    destruct e; simpl; rewrite ?elem_of_cons, ?bool_decide_eq_true;
      intuition (congruence || auto).
Qed.

Lemma str_truthy_false s : str_truthy s = false → s = "".
Proof. by destruct s. Qed.

Lemma json_array_contains_spec cell value :
  _json_array_contains cell value = Return true ↔ value ∈ tag_set cell.
Proof.
  unfold _json_array_contains, tag_set.
  destruct cell as [text|]; simpl; [|by rewrite elem_of_nil].
  destruct (str_truthy text) eqn:Htext; simpl.
  - destruct (json_loads text) as [[]|[]]; rewrite ?elem_of_nil; try done.
    rewrite <- py_str_in_spec. split; [by intros [= ->]|by intros ->].
  - apply str_truthy_false in Htext as ->. rewrite json_loads_empty.
    by rewrite elem_of_nil.
Qed.

Lemma tag_conditions_spec requested r :
  tag_conditions requested r = true ↔ intersects requested (tag_set (industry.tags r)).
Proof.
  unfold tag_conditions, intersects. rewrite existsb_exists.
  setoid_rewrite <- list_elem_of_In. setoid_rewrite bool_decide_eq_true.
  setoid_rewrite json_array_contains_spec. done.
Qed.

Lemma malformed_tag_set cell : malformed cell → tag_set cell = [].
Proof.
  destruct cell as [text|]; simpl; [|done].
  intros Hbad. destruct (json_loads text) as [[]|]; try done.
  by destruct (Hbad a).
Qed.

(** The function returns on a cell whose text [json.loads] reads or
    rejects. *)
Lemma json_array_contains_returns cell value :
  (∀ text, cell = Some text → loads_or_rejects text) →
  ∃ b, _json_array_contains cell value = Return b.
Proof.
  intros Hcell. unfold _json_array_contains.
  destruct cell as [text|]; simpl; [|by eexists].
  destruct (str_truthy text); simpl; [|by eexists].
  destruct (json_loads text) as [[]|e] eqn:Hloads; try by eexists.
  rewrite (Hcell text eq_refl e Hloads). by eexists.
Qed.

(** What [add_industry_data] stores for a non-empty list is read as
    that list. *)
Lemma tag_set_dumps (l : list string) : tag_set (Some (json_dumps (json_of_strings l))) = l.
Proof.
  unfold tag_set. rewrite json_loads_dumps_strings. simpl. apply strings_of_strings.
Qed.

Lemma dumps_truthy (l : list string) : str_truthy (json_dumps (json_of_strings l)) = true.
Proof.
  destruct (str_truthy _) eqn:Hs; [done|].
  apply str_truthy_false in Hs. pose proof (json_loads_dumps_strings l) as Hl.
  rewrite Hs, json_loads_empty in Hl. done.
Qed.

Lemma decode_tags_dumps (l : list string) :
  decode_tags (Some (json_dumps (json_of_strings l))) = Some (json_of_strings l).
Proof.
  unfold decode_tags. by rewrite dumps_truthy, json_loads_dumps_strings.
Qed.
End tag_facts.

(** ** Queries over the industry entries *)

Section industry_queries.
Context `{!JsonCodec}.

Lemma opt_list_truthy_spec {A} (o : option (list A)) :
  opt_list_truthy o = true ↔ ∃ x l, o = Some (x :: l).
Proof.
  destruct o as [[|x l]|]; simpl; split; try done; try by intros (? & ? & ?).
  by exists x, l.
Qed.

Lemma where_tag_conditions (requested : list string) (rows : list industry.row) :
  filter (λ r, tag_conditions requested r = true) rows
  = filter (λ r, intersects requested (tag_set (industry.tags r))) rows.
Proof. apply list_filter_iff. intros r. apply tag_conditions_spec. Qed.

(** [get_industry_data] returns, newest first by [created_at], the
    entries whose stored tag set meets the requested tags (every entry
    when the tag list is empty or absent): the result is the [LIMIT]
    prefix of a newest-first arrangement of exactly those rows.  A
    non-negative limit caps the result at [limit] rows; a negative limit
    returns all of them; and when the limit does not cut, a row is
    returned exactly when it is stored and matches. *)
Lemma get_industry_data_newest_matching
    (d : database) (limit : Z) (tags : option (list string)) :
  ∃ newest_first : list industry.row,
    newest_first ≡ₚ matching_rows tags d
    ∧ StronglySorted (not_older industry.created_at) newest_first
    ∧ get_industry_data limit tags d = decode_row <$> sql_limit limit newest_first
    ∧ (0 ≤ limit →
       sql_limit limit newest_first = take (Z.to_nat limit) newest_first
       ∧ Z.of_nat (length (get_industry_data limit tags d)) ≤ limit)
    ∧ (limit < 0 → sql_limit limit newest_first = newest_first)
    ∧ (limit < 0 ∨ Z.of_nat (length (matching_rows tags d)) ≤ limit →
       ∀ r, r ∈ sql_limit limit newest_first ↔
            r ∈ industry_data d
            ∧ (opt_list_truthy tags = true →
               intersects (default [] tags) (tag_set (industry.tags r)))).
Proof.
  exists (order_by_desc industry.created_at (matching_rows tags d)).
  split; [apply order_by_desc_perm|].
  split; [apply order_by_desc_sorted|].
  assert (get_industry_data limit tags d
          = decode_row <$> sql_limit limit
              (order_by_desc industry.created_at (matching_rows tags d))) as Hget.
  { unfold get_industry_data, matching_rows.
    destruct (opt_list_truthy tags); [|done]. by rewrite where_tag_conditions. }
  split; [exact Hget|].
  split; [|split].
  - intros Hlimit. split; [by apply sql_limit_take|].
    rewrite Hget, length_fmap. by apply sql_limit_length.
  - apply sql_limit_negative.
  - intros Hall r. rewrite sql_limit_all by (by rewrite order_by_desc_length).
    rewrite elem_of_order_by_desc. unfold matching_rows.
    destruct (opt_list_truthy tags).
    + rewrite list_elem_of_filter. tauto.
    + intuition discriminate.
Qed.

(** C2: the claim holds of the code for a limit that is not negative and
    fails for a negative one.  The method hands [limit] to [LIMIT ?]
    unchecked, and SQLite reads a negative [LIMIT] as no limit: on a
    store whose tags cells [json.loads] reads or rejects, for every
    negative limit of the 64-bit range and a tag list short of the
    number of parameters and terms SQLite accepts in one statement, the
    result holds every entry that matches, newest first, however many
    there are, where the docstring promises at most [limit] entries. *)
Theorem get_industry_data_negative_limit_unbounded
    (d : database) (limit : Z) (tags : option (list string)) :
  decodable d → int64 limit → limit < 0 → (length (default [] tags) < 999)%nat →
  get_industry_data limit tags d
  = decode_row <$> order_by_desc industry.created_at (matching_rows tags d)
  ∧ length (get_industry_data limit tags d) = length (matching_rows tags d)
  ∧ (∀ r, r ∈ matching_rows tags d → decode_row r ∈ get_industry_data limit tags d)
  ∧ (matching_rows tags d ≠ [] →
     ¬ Z.of_nat (length (get_industry_data limit tags d)) ≤ Z.max 0 limit).
Proof.
  intros _ _ Hneg _.
  assert (get_industry_data limit tags d
          = decode_row <$> order_by_desc industry.created_at (matching_rows tags d)) as Hget.
  { unfold get_industry_data, matching_rows. rewrite sql_limit_negative by done.
    destruct (opt_list_truthy tags); [|done]. by rewrite where_tag_conditions. }
  split; [exact Hget|]. rewrite Hget, length_fmap, order_by_desc_length.
  split; [done|]. split.
  - intros r Hr. by apply list_elem_of_fmap_2, elem_of_order_by_desc.
  - intros Hsome. destruct (matching_rows tags d); [done|]. simpl. lia.
Qed.

(** A row a tag filter selects carries a decoded array. *)
Lemma selected_row_has_array (requested : list string) (r : industry.row) :
  tag_conditions requested r = true →
  ∃ array, decode_tags (industry.tags r) = Some (JArr array).
Proof.
  rewrite tag_conditions_spec. intros (t & _ & Ht).
  unfold tag_set, decode_tags in *. destruct (industry.tags r) as [text|].
  - destruct (str_truthy text) eqn:Htext.
    + destruct (json_loads text) as [[]|]; try by apply elem_of_nil in Ht. by eexists.
    + apply str_truthy_false in Htext as ->. rewrite json_loads_empty in Ht.
      by apply elem_of_nil in Ht.
  - by apply elem_of_nil in Ht.
Qed.

Lemma filtered_entries_have_arrays (d : database) (limit : Z) (keyword : string)
    (tags : option (list string)) (e : industry_entry) :
  opt_list_truthy tags = true →
  e ∈ get_industry_data limit tags d ∨ e ∈ search_industry_data keyword tags d →
  ∃ array, e_tags e = Some (JArr array).
Proof.
  intros Htags. unfold get_industry_data, search_industry_data. rewrite Htags.
  intros [He|He]; apply list_elem_of_fmap in He as (r & -> & Hr).
  - apply elem_of_sql_limit, elem_of_order_by_desc, list_elem_of_filter in Hr as [Hr _].
    by apply (selected_row_has_array (default [] tags)).
  - apply elem_of_order_by_desc, list_elem_of_filter in Hr as [Hr _].
    apply andb_true_iff in Hr as [Hr _].
    by apply (selected_row_has_array (default [] tags)).
Qed.

(** What the code does achieve for malformed tags: a cell that is NULL,
    or whose text [json.loads] rejects or reads as something other than
    an array, contains no tag.  The predicate answers [False] for every
    candidate; a row with such a cell satisfies no tag condition, so the
    queries under a tag filter never return it; without a filter
    [get_industry_data] still returns the row, and the decoding loop
    hands it back without an array under ['tags'] ([None] when the text
    is rejected). *)
Lemma malformed_tags_contain_nothing (cell : option string) :
  malformed cell →
  (∀ text, cell = Some text → loads_or_rejects text) →
  (∀ value, _json_array_contains cell value = Return false)
  ∧ (∀ requested r, industry.tags r = cell → tag_conditions requested r = false)
  ∧ (∀ array, decode_tags cell ≠ Some (JArr array))
  ∧ (∀ text, cell = Some text → str_truthy text = true →
     json_loads text = Raise JSONDecodeError → decode_tags cell = None)
  ∧ (∀ d limit keyword tags e,
       opt_list_truthy tags = true →
       e ∈ get_industry_data limit tags d ∨ e ∈ search_industry_data keyword tags d →
       e_tags e ≠ decode_tags cell)
  ∧ (∀ d limit r,
       r ∈ industry_data d → industry.tags r = cell →
       limit < 0 ∨ Z.of_nat (length (industry_data d)) ≤ limit →
       decode_row r ∈ get_industry_data limit None d).
Proof.
  intros Hbad Hreads.
  assert (∀ value, _json_array_contains cell value = Return false) as Hcontains.
  { intros value. destruct (json_array_contains_returns cell value Hreads) as [[] Hb]; [|done].
    apply json_array_contains_spec in Hb. rewrite (malformed_tag_set _ Hbad) in Hb.
    by apply elem_of_nil in Hb. }
  assert (∀ array, decode_tags cell ≠ Some (JArr array)) as Hdecode.
  { intros array. destruct cell as [text|]; simpl in *; [|done].
    destruct (str_truthy text); [|done].
    destruct (json_loads text) as [v|]; [|done]. intros [= ->]. by apply (Hbad array). }
  split; [exact Hcontains|]. split; [|split; [exact Hdecode|split; [|split]]].
  - intros requested r <-. apply not_true_is_false.
    rewrite tag_conditions_spec. intros (t & _ & Ht).
    rewrite (malformed_tag_set _ Hbad) in Ht. by apply elem_of_nil in Ht.
  - intros text -> Htruthy Hloads. simpl. by rewrite Htruthy, Hloads.
  - intros d limit keyword tags e Htags He Heq.
    destruct (filtered_entries_have_arrays d limit keyword tags e Htags He) as [array Ha].
    apply (Hdecode array). by rewrite <- Heq.
  - intros d limit r Hr _ Hall. unfold get_industry_data. simpl.
    rewrite sql_limit_all by (by rewrite order_by_desc_length).
    apply list_elem_of_fmap_2. by apply elem_of_order_by_desc.
Qed.

(** C3: the claim fails on a cell whose text makes [json.loads] raise
    anything but [JSONDecodeError], as a text nested beyond the recursion
    limit does with [RecursionError].  The cell holds no parsable JSON
    array, yet the predicate does not answer [False]:
    [except json.JSONDecodeError] does not catch the exception, which
    leaves [_json_array_contains] for every candidate value. *)
Theorem json_array_contains_lets_exceptions_through (text : string) (e : exn) :
  json_loads text = Raise e → e ≠ JSONDecodeError →
  malformed (Some text)
  ∧ (∀ value, _json_array_contains (Some text) value = Raise e)
  ∧ (∀ value, _json_array_contains (Some text) value ≠ Return false).
Proof.
  intros Hloads He.
  assert (∀ value, _json_array_contains (Some text) value = Raise e) as Hraise.
  { intros value. unfold _json_array_contains. simpl.
    destruct (str_truthy text) eqn:Htext; simpl.
    - rewrite Hloads. by destruct e.
    - apply str_truthy_false in Htext as ->. rewrite json_loads_empty in Hloads.
      by injection Hloads as <-. }
  split; [|split; [exact Hraise|]].
  - simpl. intros array. by rewrite Hloads.
  - intros value. by rewrite Hraise.
Qed.
End industry_queries.

(** C3's failing input: a cell that opens a thousand arrays inside one
    another. *)
Lemma json_array_contains_lets_exceptions_through_witness :
  let text := String.string_of_list_ascii (replicate 1000 "["%char) in
  malformed (Some text)
  ∧ (∀ value, _json_array_contains (Some text) value = Raise RecursionError)
  ∧ (∀ value, _json_array_contains (Some text) value ≠ Return false).
Proof.
  apply (json_array_contains_lets_exceptions_through
           (String.string_of_list_ascii (replicate 1000 "["%char)) RecursionError).
  - by vm_compute.
  - discriminate.
Defined.

(** C2's failing input: two entries tagged [x] and the limit [-1].  Both
    come back, where the limit 1 returns one and the limit 0 none. *)
Lemma get_industry_data_negative_limit_witness :
  let d1 := (add_industry_data "https://a.example" "first" "p" None (Some ["x"]) None 1
               empty_database).1 in
  let d2 := (add_industry_data "https://b.example" "second" "p" None (Some ["x"]) None 2
               d1).1 in
  (e_id <$> get_industry_data (-1) (Some ["x"]) d2 = [2; 1]
   ∧ e_id <$> get_industry_data 1 (Some ["x"]) d2 = [2]
   ∧ e_id <$> get_industry_data 0 (Some ["x"]) d2 = [])
  ∧ get_industry_data (-1) (Some ["x"]) d2
    = decode_row <$> order_by_desc industry.created_at (matching_rows (Some ["x"]) d2)
  ∧ length (get_industry_data (-1) (Some ["x"]) d2) = length (matching_rows (Some ["x"]) d2)
  ∧ (∀ r, r ∈ matching_rows (Some ["x"]) d2 →
          decode_row r ∈ get_industry_data (-1) (Some ["x"]) d2)
  ∧ (matching_rows (Some ["x"]) d2 ≠ [] →
     ¬ Z.of_nat (length (get_industry_data (-1) (Some ["x"]) d2)) ≤ Z.max 0 (-1)).
Proof.
  cbv zeta. split; [by vm_compute|].
  apply (get_industry_data_negative_limit_unbounded _ (-1) (Some ["x"])).
  - unfold decodable. repeat constructor.
    all: intros text [= <-] e Hraise; vm_compute in Hraise; discriminate Hraise.
  - unfold int64. lia.
  - lia.
  - simpl. lia.
Defined.

(** ** Stored tags *)

Section stored_tags.
Context `{!JsonCodec}.


Lemma decode_stored_cell (tags : list string) : decode_tags (stored_cell tags) = read_back tags.
Proof. destruct tags; [done|]. apply decode_tags_dumps. Qed.

Lemma tag_set_stored_cell (tags : list string) : tag_set (stored_cell tags) = tags.
Proof. destruct tags; [done|]. apply tag_set_dumps. Qed.

End stored_tags.


(** ** Client creation *)

(** [update_lead] leaves every table but [lead_bucket] as it was, and in
    that one the identifiers. *)
Lemma update_lead_tables (lead_id : Z) (updates : list (string * py_value)) (d : database) :
  let d' := (update_lead lead_id updates d).1 in
  clients d' = clients d
  ∧ industry_data d' = industry_data d
  ∧ tailored_solutions d' = tailored_solutions d
  ∧ outreach_log d' = outreach_log d
  ∧ lead.id <$> lead_bucket d' = lead.id <$> lead_bucket d.
Proof.
  cbv zeta. unfold update_lead. destruct (update_fields updates); [done|].
  destruct (bind_parameters _); [|done]. simpl. repeat split.
  rewrite <- list_fmap_compose. apply list_fmap_ext. intros _ r _. simpl.
  by case_bool_decide.
Qed.

Section client_facts.
Context `{!JsonCodec}.

(** A call never rewrites the clients table: it leaves it alone or
    appends one row under a handle the table did not hold. *)
Lemma perform_clients (c : call) (now : Z) (d : database) :
  clients (perform c now d).1 = clients d
  ∨ ∃ r, clients (perform c now d).1 = clients d ++ [r]
         ∧ client.telegram_handle r ∉ handles d.
Proof.
  destruct c; simpl; try by left.
  - unfold create_client. case_bool_decide as Hin; simpl; [by left|].
    right. eexists. split; [reflexivity|]. exact Hin.
  - left. apply update_lead_tables.
  - unfold update_solution_status. case_bool_decide; by left.
Qed.




End client_facts.


(** ** Updates of leads, solutions and outreach records *)

Lemma elem_of_update_fields (updates : list (string * py_value)) (k : string) (v : py_value) :
  (k, v) ∈ update_fields updates ↔ (k, v) ∈ updates ∧ k ∈ valid_fields.
Proof. unfold update_fields. rewrite list_elem_of_filter. simpl. tauto. Qed.

Lemma update_fields_keys (updates : list (string * py_value)) (k : string) :
  k ∈ (update_fields updates).*1 ↔ k ∈ updates.*1 ∧ k ∈ valid_fields.
Proof.
  rewrite !list_elem_of_fmap. split.
  - intros ([k' v] & -> & Hkv). apply elem_of_update_fields in Hkv as [Hkv Hk].
    split; [|done]. by exists (k', v).
  - intros [([k' v] & -> & Hkv) Hk]. exists (k', v). split; [done|].
    by apply elem_of_update_fields.
Qed.

Lemma update_fields_NoDup (updates : list (string * py_value)) :
  NoDup updates.*1 → NoDup (update_fields updates).*1.
Proof.
  intros Hdup. apply (sublist_NoDup _ _ Hdup).
  apply fmap_sublist, sublist_filter.
Qed.

(** Binding a list of parameters succeeds when each of them binds, ... *)
Lemma bind_parameters_return (params : list py_value) (bound : list sql_value) :
  bind_parameters params = Return bound
  ↔ Forall2 (λ v b, bind_parameter v = Return b) params bound.
Proof.
  revert bound. induction params as [|v params IH]; intros bound; simpl.
  - split; [intros [= <-]; constructor|]. by intros ->%Forall2_nil_inv_l.
  - destruct (bind_parameter v) as [b|e] eqn:Hv.
    + destruct (bind_parameters params) as [bs|e] eqn:Hparams.
      * split.
        -- intros [= <-]. constructor; [done|]. by apply IH.
        -- intros (b' & bs' & Hb & Hbs & ->)%Forall2_cons_inv_l.
           apply IH in Hbs. congruence.
      * split; [done|]. intros (b' & bs' & _ & Hbs & _)%Forall2_cons_inv_l.
        by apply IH in Hbs.
    + split; [done|]. intros (b' & bs' & Hb & _)%Forall2_cons_inv_l. congruence.
Qed.

Lemma bind_parameters_bindable (params : list py_value) :
  Forall bindable params → ∃ bound, bind_parameters params = Return bound.
Proof.
  induction 1 as [|v params [b Hb] _ [bs Hbs]]; simpl; [by eexists|].
  rewrite Hb, Hbs. by eexists.
Qed.

(** ... and raises what the first parameter that does not bind raises. *)
Lemma bind_parameters_raise (before after : list py_value) (v : py_value) (e : exn) :
  Forall bindable before → bind_parameter v = Raise e →
  bind_parameters (before ++ v :: after) = Raise e.
Proof.
  intros Hbefore Hv. induction Hbefore as [|w before [b Hb] _ IH]; simpl.
  - by rewrite Hv.
  - by rewrite Hb, IH.
Qed.

Lemma bind_int64 (n : Z) : int64 n → bind_parameter (PyInt n) = Return (SqlInteger n).
Proof. intros Hn. simpl. by rewrite bool_decide_eq_true_2. Qed.

(** The columns a [SET] clause over distinct names assigns. *)
Lemma assigned_Some (sets : list (string * text_cell)) (k : string) (c : text_cell) :
  NoDup sets.*1 → (k, c) ∈ sets → assigned k sets = Some c.
Proof.
  intros Hdup Hk. unfold assigned. apply elem_of_list_to_map_1.
  - by rewrite fmap_reverse, reverse_Permutation.
  - by apply elem_of_reverse.
Qed.

Lemma assigned_None (sets : list (string * text_cell)) (k : string) :
  k ∉ sets.*1 → assigned k sets = None.
Proof.
  intros Hk. unfold assigned. apply not_elem_of_list_to_map_1.
  by rewrite fmap_reverse, elem_of_reverse.
Qed.

Lemma zip_app_short {A B} (l : list A) (k k' : list B) :
  length l = length k → zip l (k ++ k') = zip l k.
Proof.
  revert k. induction l as [|x l IH]; intros [|y k] Hlen; simpl in *; try done.
  f_equal. apply IH. lia.
Qed.

(** What [update_lead] does once a recognised field remains and the
    parameters bind: the statement runs with one assignment per
    recognised field, of the value as a TEXT column stores it. *)
Lemma update_lead_applies (lead_id : Z) (updates : list (string * py_value)) (d : database) :
  update_fields updates ≠ [] →
  Forall bindable (update_fields updates).*2 → int64 lead_id →
  ∃ sets : list (string * text_cell),
    update_lead lead_id updates d
    = ({| clients := clients d;
          industry_data := industry_data d;
          lead_bucket :=
            (λ r, if bool_decide (lead.id r = lead_id)
                  then assign_lead sets r else r) <$> lead_bucket d;
          tailored_solutions := tailored_solutions d;
          outreach_log := outreach_log d |}, Return true)
    ∧ Forall2 (λ kv kc, kc.1 = kv.1 ∧ stored_as kv.2 kc.2) (update_fields updates) sets.
Proof.
  intros Hsome Hbind Hid. unfold update_lead.
  destruct (update_fields updates) as [|kv fields] eqn:Hfields; [done|].
  destruct (bind_parameters_bindable _ Hbind) as [bound Hbound].
  assert (bind_parameters ((kv :: fields).*2 ++ [PyInt lead_id])
          = Return (bound ++ [SqlInteger lead_id])) as ->.
  { apply bind_parameters_return. apply Forall2_app; [by apply bind_parameters_return|].
    constructor; [by apply bind_int64|constructor]. }
  eexists. split; [reflexivity|].
  apply bind_parameters_return in Hbound.
  pose proof (Forall2_length _ _ _ Hbound) as Hlen. rewrite length_fmap in Hlen.
  rewrite fmap_app, zip_app_short by (by rewrite !length_fmap).
  clear Hfields Hsome Hlen. revert Hbind bound Hbound. generalize (kv :: fields).
  induction l as [|[k v] l IH]; intros Hbind bound Hbound.
  - apply Forall2_nil_inv_l in Hbound as ->. simpl. constructor.
  - apply Forall2_cons_inv_l in Hbound as (b & bs & Hb & Hbs & ->). simpl.
    constructor; [|apply IH; [by inv Hbind|done]].
    simpl. split; [done|]. by exists b.
Qed.

(** What one column of the addressed lead holds after the statement. *)
Lemma assigned_column (updates : list (string * py_value))
    (sets : list (string * text_cell)) (name : string) (old : text_cell) :
  NoDup updates.*1 → name ∈ valid_fields →
  Forall2 (λ kv kc, kc.1 = kv.1 ∧ stored_as kv.2 kc.2) (update_fields updates) sets →
  column_updated updates name old (default old (assigned name sets)).
Proof.
  intros Hdup Hname Hsets.
  assert (sets.*1 = (update_fields updates).*1) as Hkeys.
  { clear -Hsets. induction Hsets as [|kv kc fields sets [Hk _] _ IH]; [done|].
    by rewrite !fmap_cons, Hk, IH. }
  assert (NoDup sets.*1) as Hdup' by (rewrite Hkeys; by apply update_fields_NoDup).
  split.
  - intros v Hv. assert ((name, v) ∈ update_fields updates) as Hfield
      by (by apply elem_of_update_fields).
    apply list_elem_of_lookup in Hfield as [i Hi].
    destruct (Forall2_lookup_l _ _ _ _ _ Hsets Hi) as ([k c] & Hc & Hk & Hstored).
    simpl in Hk, Hstored. subst k.
    rewrite (assigned_Some sets name c Hdup') by (by eapply list_elem_of_lookup_2).
    done.
  - intros Hnone. rewrite assigned_None; [done|].
    rewrite Hkeys, update_fields_keys. tauto.
Qed.

(** C5 (as amended): [update_lead] keeps of the mapping exactly the
    items named [company_name], [website], [contact_info] or [details];
    when none is left it returns [False] and the store is unchanged;
    otherwise, when sqlite3 binds the values of the recognised fields and
    the id, it returns [True], the addressed lead holds in each named
    column the given value as a TEXT column stores it and keeps every
    other column, and every other lead and every other table is
    unchanged; when the first recognised value that does not bind is of a
    type sqlite3 does not know, the [ProgrammingError] is caught and the
    method returns [False] with the store unchanged (the [OverflowError]
    of an [int] beyond 64 bits is not caught). *)
Theorem update_lead_allow_list_frame
    (d : database) (lead_id : Z) (updates : list (string * py_value)) :
  NoDup updates.*1 →
  (∀ k v, (k, v) ∈ update_fields updates ↔ (k, v) ∈ updates ∧ k ∈ valid_fields)
  ∧ (update_fields updates = [] → update_lead lead_id updates d = (d, Return false))
  ∧ (update_fields updates ≠ [] →
     Forall bindable (update_fields updates).*2 → int64 lead_id →
     ∃ leads',
       update_lead lead_id updates d
       = ({| clients := clients d; industry_data := industry_data d;
             lead_bucket := leads';
             tailored_solutions := tailored_solutions d;
             outreach_log := outreach_log d |}, Return true)
       ∧ Forall2 (lead_updated lead_id updates) (lead_bucket d) leads')
  ∧ (∀ before name v after e,
       update_fields updates = before ++ (name, v) :: after →
       Forall bindable before.*2 → bind_parameter v = Raise e →
       update_lead lead_id updates d
       = (d, if sqlite3_Error e then Return false else Raise e)).
Proof.
  intros Hdup. split; [apply elem_of_update_fields|]. split; [|split].
  - intros Hnone. unfold update_lead. by rewrite Hnone.
  - intros Hsome Hbind Hid.
    destruct (update_lead_applies lead_id updates d Hsome Hbind Hid) as (sets & -> & Hsets).
    eexists. split; [reflexivity|].
    apply Forall2_fmap_r, Forall_Forall2_diag, Forall_forall. intros r _.
    unfold lead_updated, compose. cbv beta. case_bool_decide as Hr; [|by repeat split].
    split; [done|]. split; [done|]. split; [done|]. intros _. simpl.
    split_and!; apply assigned_column; try done; unfold valid_fields; set_solver.
  - intros before name v after e Hfields Hbefore Hv. unfold update_lead.
    rewrite Hfields.
    assert (bind_parameters ((before ++ (name, v) :: after).*2 ++ [PyInt lead_id])
            = Raise e) as Hraise.
    { rewrite fmap_app, fmap_cons, <- app_assoc, <- app_comm_cons.
      by apply bind_parameters_raise. }
    rewrite Hraise. by destruct before.
Qed.

(** C5, run on the update of the repository's test with one more item
    under a name that is no column. *)
Lemma update_lead_allow_list_frame_witness :
  let d := (add_lead "Tech Corp" "https://techcorp.com" "contact@techcorp.com"
                     "Growing tech company" 1 empty_database).1 in
  let updates := [ ("contact_info", PyStr "new.contact@techcorp.com");
                   ("details", PyStr "Updated company details");
                   ("bogus", PyInt 1) ] in
  (∀ k v, (k, v) ∈ update_fields updates ↔ (k, v) ∈ updates ∧ k ∈ valid_fields)
  ∧ (update_fields updates = [] → update_lead 1 updates d = (d, Return false))
  ∧ (update_fields updates ≠ [] →
     Forall bindable (update_fields updates).*2 → int64 1 →
     ∃ leads',
       update_lead 1 updates d
       = ({| clients := clients d; industry_data := industry_data d;
             lead_bucket := leads';
             tailored_solutions := tailored_solutions d;
             outreach_log := outreach_log d |}, Return true)
       ∧ Forall2 (lead_updated 1 updates) (lead_bucket d) leads')
  ∧ (∀ before name v after e,
       update_fields updates = before ++ (name, v) :: after →
       Forall bindable before.*2 → bind_parameter v = Raise e →
       update_lead 1 updates d
       = (d, if sqlite3_Error e then Return false else Raise e)).
Proof.
  apply (update_lead_allow_list_frame
           (add_lead "Tech Corp" "https://techcorp.com" "contact@techcorp.com"
                     "Growing tech company" 1 empty_database).1 1
           [ ("contact_info", PyStr "new.contact@techcorp.com");
             ("details", PyStr "Updated company details");
             ("bogus", PyInt 1) ]).
  apply (bool_decide_unpack _). vm_compute. reflexivity.
Defined.

(** C5, where the sentence fails: with a recognised field in the mapping
    [update_lead] returns [False], and changes nothing, when the value
    under it is a [list]; and given the [int] 5 it returns [True] and the
    column holds the text [5], not the given value. *)
Lemma update_lead_unbindable_value_returns_false :
  let d := (add_lead "Tech Corp" "https://techcorp.com" "contact@techcorp.com"
                     "Growing tech company" 1 empty_database).1 in
  update_fields [("details", PyObject "list")] = [("details", PyObject "list")]
  ∧ update_lead 1 [("details", PyObject "list")] d = (d, Return false)
  ∧ (update_lead 1 [("details", PyInt 5)] d).2 = Return true
  ∧ lead.details <$> lead_bucket (update_lead 1 [("details", PyInt 5)] d).1 = [Text "5"].
Proof. cbv zeta. split_and!; by vm_compute. Qed.

(** C6: on an outreach record whose [response] and [updated_at] are both
    NULL, [update_outreach_response] returns [True] and the one UPDATE
    leaves the record with both columns set, [response] to the text and
    [updated_at] to the time of the statement, its other columns as they
    were; the record, listed by [get_pending_responses] before the call
    when its lead exists, is not listed after it. *)
Theorem update_outreach_response_sets_both
    (d : database) (ol : outreach.row) (text : string) (now : Z) :
  ol ∈ outreach_log d →
  outreach.response ol = None →
  outreach.updated_at ol = None →
  let updated := update_outreach_response (outreach.id ol) text now d in
  updated.2 = true
  ∧ set_response text now ol ∈ outreach_log updated.1
  ∧ (∀ ol', ol' ∈ outreach_log updated.1 → outreach.id ol' = outreach.id ol →
            outreach.response ol' = Some text ∧ outreach.updated_at ol' = Some now)
  ∧ (∀ lb, lb ∈ lead_bucket d → lead.id lb = outreach.lead_id ol →
           (ol, lead.company_name lb) ∈ get_pending_responses d)
  ∧ (∀ row, row ∈ get_pending_responses updated.1 → outreach.id row.1 ≠ outreach.id ol).
Proof.
  intros Hol Hresp Hupd. cbv zeta. unfold update_outreach_response. simpl.
  split; [done|]. split; [|split; [|split]].
  - apply list_elem_of_fmap. exists ol. by rewrite bool_decide_eq_true_2.
  - intros ol' (r & -> & Hr)%list_elem_of_fmap Hid.
    case_bool_decide as Hr_id; [done|]. done.
  - intros lb Hlb Hlead. unfold get_pending_responses.
    rewrite elem_of_order_by_desc, list_elem_of_filter. split; [done|].
    unfold outreach_join_leads. apply list_elem_of_bind. exists ol. split; [|done].
    apply list_elem_of_fmap. exists lb. split; [done|].
    by apply list_elem_of_filter.
  - intros [ol' name]. unfold get_pending_responses.
    rewrite elem_of_order_by_desc, list_elem_of_filter. simpl.
    intros [Hnull Hjoin] Hid.
    unfold outreach_join_leads in Hjoin. simpl in Hjoin.
    apply list_elem_of_bind in Hjoin as (r' & Hrow & Hr').
    apply list_elem_of_fmap in Hrow as (lb & Heq & _). injection Heq as -> _.
    apply list_elem_of_fmap in Hr' as (r & -> & _).
    case_bool_decide as Hr_id; [done|]. done.
Qed.

(** C6, run on the outreach record a [log_outreach] has just written. *)
Lemma update_outreach_response_sets_both_witness :
  let d := (log_outreach 1 "Initial contact message for lead 1" 2
              (add_lead "Tech Corp" "https://techcorp.com" "contact@techcorp.com"
                        "Growing tech company" 1 empty_database).1).1 in
  let ol := {| outreach.id := 1; outreach.lead_id := 1;
               outreach.message_sent := "Initial contact message for lead 1";
               outreach.sent_at := 2; outreach.response := None;
               outreach.updated_at := None |} in
  let updated := update_outreach_response 1 "Interested in learning more" 3 d in
  updated.2 = true
  ∧ set_response "Interested in learning more" 3 ol ∈ outreach_log updated.1
  ∧ (∀ ol', ol' ∈ outreach_log updated.1 → outreach.id ol' = 1 →
            outreach.response ol' = Some "Interested in learning more"
            ∧ outreach.updated_at ol' = Some 3)
  ∧ (∀ lb, lb ∈ lead_bucket d → lead.id lb = 1 →
           (ol, lead.company_name lb) ∈ get_pending_responses d)
  ∧ (∀ row, row ∈ get_pending_responses updated.1 → outreach.id row.1 ≠ 1).
Proof.
  apply (update_outreach_response_sets_both
           (log_outreach 1 "Initial contact message for lead 1" 2
              (add_lead "Tech Corp" "https://techcorp.com" "contact@techcorp.com"
                        "Growing tech company" 1 empty_database).1).1
           {| outreach.id := 1; outreach.lead_id := 1;
              outreach.message_sent := "Initial contact message for lead 1";
              outreach.sent_at := 2; outreach.response := None;
              outreach.updated_at := None |}).
  - vm_compute. by left.
  - reflexivity.
  - reflexivity.
Defined.

(** C10 (as amended): an update addressed to an id of the 64-bit range
    that no row carries returns [True] and leaves the store as it was:
    [update_lead] with a recognised field whose values sqlite3 binds,
    [update_solution_status] with a valid status, and
    [update_outreach_response]. *)
Theorem updates_of_missing_rows_return_true (d : database) :
  (∀ lead_id updates,
     Forall (λ r, lead.id r ≠ lead_id) (lead_bucket d) →
     update_fields updates ≠ [] →
     Forall bindable (update_fields updates).*2 → int64 lead_id →
     update_lead lead_id updates d = (d, Return true))
  ∧ (∀ solution_id status,
       Forall (λ ts, solution.id ts ≠ solution_id) (tailored_solutions d) →
       status ∈ valid_statuses → int64 solution_id →
       update_solution_status solution_id status d = (d, true))
  ∧ (∀ outreach_id text now,
       Forall (λ ol, outreach.id ol ≠ outreach_id) (outreach_log d) →
       int64 outreach_id →
       update_outreach_response outreach_id text now d = (d, true)).
Proof.
  destruct d as [cs ind leads sols outs]. simpl. split; [|split].
  - intros lead_id updates Hnone Hsome Hbind Hid.
    destruct (update_lead_applies lead_id updates
                {| clients := cs; industry_data := ind; lead_bucket := leads;
                   tailored_solutions := sols; outreach_log := outs |} Hsome Hbind Hid)
      as (sets & -> & _). simpl.
    by rewrite (fmap_unselected (λ r, lead.id r = lead_id)).
  - intros solution_id status Hnone Hvalid _. unfold update_solution_status. simpl.
    rewrite bool_decide_eq_false_2 by (by intros Hbad).
    by rewrite (fmap_unselected (λ ts, solution.id ts = solution_id)).
  - intros outreach_id text now Hnone _. unfold update_outreach_response. simpl.
    by rewrite (fmap_unselected (λ ol, outreach.id ol = outreach_id)).
Qed.

(** C10, run on a store with one lead, one solution and one outreach
    record, each under the id 1, and updates addressed to the id 999. *)
Lemma updates_of_missing_rows_return_true_witness :
  let d := (log_outreach 1 "Initial contact message for lead 1" 3
              (add_solution 1 "Custom solution for lead 1" 2
                 (add_lead "Tech Corp" "https://techcorp.com" "contact@techcorp.com"
                           "Growing tech company" 1 empty_database).1).1).1 in
  update_lead 999 [("details", PyStr "Updated company details"); ("bogus", PyInt 1)] d
  = (d, Return true)
  ∧ update_solution_status 999 "approved" d = (d, true)
  ∧ update_outreach_response 999 "Interested in learning more" 4 d = (d, true).
Proof.
  cbv zeta.
  destruct (updates_of_missing_rows_return_true
              (log_outreach 1 "Initial contact message for lead 1" 3
                 (add_solution 1 "Custom solution for lead 1" 2
                    (add_lead "Tech Corp" "https://techcorp.com" "contact@techcorp.com"
                              "Growing tech company" 1 empty_database).1).1).1)
    as (Hlead & Hsolution & Houtreach).
  split; [|split].
  - apply Hlead.
    + repeat constructor. by vm_compute.
    + by vm_compute.
    + repeat (constructor; [by eexists|]). constructor.
    + unfold int64. lia.
  - apply Hsolution.
    + repeat constructor. by vm_compute.
    + unfold valid_statuses. set_solver.
    + unfold int64. lia.
  - apply Houtreach.
    + repeat constructor. by vm_compute.
    + unfold int64. lia.
Defined.

(** C10, where the sentence fails: no lead has the id, the mapping has
    a recognised field, and [update_lead] returns [False] because the
    value is a [list]; with an id beyond 64 bits it returns nothing, the
    [OverflowError] leaves it. *)
Lemma update_of_missing_lead_not_true :
  Forall (λ r, lead.id r ≠ 999) (lead_bucket empty_database)
  ∧ update_fields [("details", PyObject "list")] ≠ []
  ∧ update_lead 999 [("details", PyObject "list")] empty_database
    = (empty_database, Return false)
  ∧ Forall (λ r, lead.id r ≠ 2 ^ 63) (lead_bucket empty_database)
  ∧ update_fields [("details", PyStr "x")] ≠ []
  ∧ update_lead (2 ^ 63) [("details", PyStr "x")] empty_database
    = (empty_database, Raise OverflowError).
Proof. split_and!; try done; by vm_compute. Qed.

(** ** Campaign statistics *)

Lemma count_by_status_lookup (rows : list solution.row) (status : string) :
  count_by_status rows !! status
  = if bool_decide (solutions_with status rows = 0) then None
    else Some (solutions_with status rows).
Proof.
  unfold solutions_with, sql_count. induction rows as [|ts rows IH]; [done|].
  change (count_by_status (ts :: rows))
    with (<[solution.status ts := 1 + default 0 (count_by_status rows !! solution.status ts)]>
            (count_by_status rows)).
  destruct (decide (solution.status ts = status)) as [Heq|Hne].
  - rewrite filter_cons_True by done. rewrite Heq, lookup_insert_eq, IH.
    rewrite (bool_decide_eq_false_2 (Z.of_nat (length (_ :: _)) = 0)) by (simpl; lia).
    case_bool_decide as Hzero; simpl; f_equal; lia.
  - rewrite filter_cons_False by done. by rewrite lookup_insert_ne.
Qed.

Lemma sum_of_responses (rows : list outreach.row) :
  foldr Z.add 0 ((λ ol, match outreach.response ol with Some _ => 1 | None => 0 end) <$> rows)
  = responded rows.
Proof.
  unfold responded, sql_count. induction rows as [|ol rows IH]; [done|].
  rewrite fmap_cons. simpl foldr. rewrite IH.
  destruct (outreach.response ol) eqn:Hresp.
  - rewrite filter_cons_True by (by rewrite Hresp). simpl. lia.
  - rewrite filter_cons_False by (rewrite Hresp; by intros Hne). lia.
Qed.

(** What [get_campaign_stats] reports on any store: the counts of the
    claim, except that [responses] is a count only when the store holds an
    outreach record. *)
Lemma get_campaign_stats_counts (d : database) :
  let stats := get_campaign_stats d in
  total_leads stats = sql_count (lead_bucket d)
  ∧ (∀ status, solution_stats stats !! status
               = if bool_decide (solutions_with status (tailored_solutions d) = 0)
                 then None else Some (solutions_with status (tailored_solutions d)))
  ∧ total_outreach (outreach_stats_of stats) = sql_count (outreach_log d)
  ∧ (outreach_log d ≠ [] →
     responses (outreach_stats_of stats) = Some (responded (outreach_log d))).
Proof.
  cbv zeta. unfold get_campaign_stats. simpl.
  split; [done|]. split; [apply count_by_status_lookup|]. split; [done|].
  intros Hsome. destruct (outreach_log d) as [|ol rows] eqn:Hlog; [done|].
  unfold sql_sum. rewrite fmap_cons. f_equal.
  exact (sum_of_responses (ol :: rows)).
Qed.

Lemma get_campaign_stats_scenario :
  get_campaign_stats (run_calls stats_scenario empty_database)
  = {| total_leads := 3;
       solution_stats := {[ "pending" := 1; "approved" := 1 ]};
       outreach_stats_of := {| total_outreach := 1; responses := Some 1 |} |}.
Proof. by vm_compute. Qed.

(** C9 fails on a store without outreach records: [SUM] over no row is
    NULL, so [get_campaign_stats] reports [responses] as [None] where the
    count of answered outreach records is 0. *)
Theorem campaign_stats_responses_null_without_outreach (d : database) :
  outreach_log d = [] →
  let stats := outreach_stats_of (get_campaign_stats d) in
  total_outreach stats = 0
  ∧ responded (outreach_log d) = 0
  ∧ responses stats = None
  ∧ responses stats ≠ Some (responded (outreach_log d)).
Proof.
  intros Hempty. cbv zeta. unfold get_campaign_stats. simpl. rewrite Hempty.
  by repeat split.
Qed.

(** C9's failing input: the store of a client with three leads and no
    outreach yet. *)
Lemma campaign_stats_responses_null_witness :
  let d := run_calls (take 3 stats_scenario) empty_database in
  let stats := outreach_stats_of (get_campaign_stats d) in
  total_outreach stats = 0
  ∧ responded (outreach_log d) = 0
  ∧ responses stats = None
  ∧ responses stats ≠ Some (responded (outreach_log d)).
Proof.
  apply (campaign_stats_responses_null_without_outreach
           (run_calls (take 3 stats_scenario) empty_database)).
  reflexivity.
Defined.

(** ** The ingestion batch *)

Lemma foldr_max_init (b : Z) (l : list Z) :
  foldr Z.max b l = Z.max b (foldr Z.max 0 l) ∨ b < 0.
Proof.
  destruct (Z.lt_ge_cases b 0) as [Hneg|Hpos]; [by right|left].
  induction l as [|x l IH]; simpl; lia.
Qed.

Lemma next_rowid_after_insert (ids : list Z) :
  next_rowid (ids ++ [next_rowid ids]) = next_rowid ids + 1.
Proof.
  pose proof (next_rowid_positive ids) as Hpos.
  unfold next_rowid in *. rewrite foldr_app. simpl.
  destruct (foldr_max_init (Z.max (1 + foldr Z.max 0 ids) 0) ids) as [->|Hneg]; lia.
Qed.

Section crawl_facts.
Context `{!JsonCodec}.
Variable page_content : nat → string → option string.
Variable normalize : string → option (option string * string).
Variable clock : nat → Z.
Variable isoformat_now : nat → string.

Local Abbreviation processed := (processed page_content normalize).
Local Abbreviation successes_from := (successes_from page_content normalize).
Local Abbreviation row_of := (row_of clock isoformat_now).
Local Abbreviation crawl_one := (crawl_one page_content normalize clock isoformat_now).
Local Abbreviation crawl_from := (crawl_from page_content normalize clock isoformat_now).
Local Abbreviation crawl_industry_data :=
  (crawl_industry_data page_content normalize clock isoformat_now).

Lemma successes_sublist (i : nat) (urls : list string) :
  s_url <$> successes_from i urls `sublist_of` urls.
Proof.
  revert i. induction urls as [|url urls IH]; intros i; simpl; [constructor|].
  destruct (processed i url) as [[title markdown]|].
  - rewrite fmap_cons. simpl. by apply sublist_skip.
  - by apply sublist_cons.
Qed.

Lemma crawl_one_spec (i : nat) (url : string) (tags : option (list string)) (d : database) :
  crawl_one i url tags d
  = match processed i url with
    | None => None
    | Some (title, markdown) =>
        let s := {| s_index := i; s_url := url; s_title := title;
                    s_markdown := markdown |} in
        let rowid := next_rowid (industry.id <$> industry_data d) in
        Some ({| clients := clients d;
                 industry_data := industry_data d ++ [row_of tags rowid s];
                 lead_bucket := lead_bucket d;
                 tailored_solutions := tailored_solutions d;
                 outreach_log := outreach_log d |},
              outcome_of tags rowid s)
    end.
Proof.
  unfold crawl_one, processed. destruct (page_content i url) as [content|]; [|done].
  destruct (str_truthy content); simpl; [|done].
  destruct (normalize content) as [[title markdown]|]; [|done].
  unfold add_industry_data, row_of, outcome_of. simpl.
  destruct tags as [[|t l]|]; reflexivity.
Qed.

Lemma crawl_from_spec (urls : list string) (tags : option (list string)) :
  ∀ (i : nat) (d : database) (results : list crawl_result),
    crawl_from i urls tags d results
    = ({| clients := clients d;
          industry_data :=
            industry_data d
            ++ numbered (row_of tags) (next_rowid (industry.id <$> industry_data d))
                        (successes_from i urls);
          lead_bucket := lead_bucket d;
          tailored_solutions := tailored_solutions d;
          outreach_log := outreach_log d |},
       results
       ++ numbered (outcome_of tags) (next_rowid (industry.id <$> industry_data d))
                   (successes_from i urls)).
Proof.
  induction urls as [|url urls IH]; intros i d results.
  - simpl. rewrite !app_nil_r. by destruct d.
  - simpl. rewrite crawl_one_spec.
    destruct (processed i url) as [[title markdown]|]; cbv zeta.
    + simpl. rewrite IH. simpl.
      rewrite fmap_app. simpl. rewrite next_rowid_after_insert.
      by rewrite <- !app_assoc.
    + by rewrite IH.
Qed.

(** The successes of a batch are exactly its positions that go through:
    listed by increasing position, each one the url at its position with
    the title and markdown its processing gives, and every position that
    goes through is listed. *)
Lemma successes_from_spec (urls : list string) (k : nat) :
  StronglySorted lt (s_index <$> successes_from k urls)
  ∧ Forall (λ s, (k ≤ s_index s)%nat
                 ∧ urls !! (s_index s - k)%nat = Some (s_url s)
                 ∧ processed (s_index s) (s_url s) = Some (s_title s, s_markdown s))
           (successes_from k urls)
  ∧ (∀ i url title markdown,
       urls !! i = Some url → processed (k + i) url = Some (title, markdown) →
       {| s_index := (k + i)%nat; s_url := url; s_title := title;
          s_markdown := markdown |} ∈ successes_from k urls).
Proof.
  revert k. induction urls as [|u urls IH]; intros k.
  - simpl. split; [constructor|]. split; [constructor|]. by intros i url t m Hi.
  - destruct (IH (S k)) as (Hsorted & Hsound & Hcomplete).
    assert (Forall (λ s, (k ≤ s_index s)%nat
                         ∧ (u :: urls) !! (s_index s - k)%nat = Some (s_url s)
                         ∧ processed (s_index s) (s_url s)
                           = Some (s_title s, s_markdown s))
                   (successes_from (S k) urls)) as Hshift.
    { eapply Forall_impl; [exact Hsound|]. simpl. intros s (Hge & Hurl & Hp).
      split; [lia|]. split; [|done].
      replace (s_index s - k)%nat with (S (s_index s - S k)) by lia. done. }
    assert (∀ i url title markdown,
              urls !! i = Some url → processed (k + S i) url = Some (title, markdown) →
              {| s_index := (k + S i)%nat; s_url := url; s_title := title;
                 s_markdown := markdown |} ∈ successes_from (S k) urls) as Hlater.
    { intros i url t m Hi Hp. replace (k + S i)%nat with (S k + i)%nat in * by lia.
      by apply Hcomplete. }
    simpl. destruct (processed k u) as [[title markdown]|] eqn:Hp.
    + split; [|split].
      * rewrite fmap_cons. constructor; [done|]. simpl.
        apply Forall_fmap. eapply Forall_impl; [exact Hsound|].
        simpl. intros s (Hge & _). lia.
      * constructor; [|done]. simpl. rewrite Nat.sub_diag. by split.
      * intros [|i] url t m Hi Hpi; simpl in Hi.
        -- injection Hi as ->. rewrite Nat.add_0_r in *.
           rewrite Hp in Hpi. injection Hpi as -> ->. by left.
        -- right. by apply Hlater.
    + split; [done|]. split; [done|].
      intros [|i] url t m Hi Hpi; simpl in Hi.
      * injection Hi as ->. rewrite Nat.add_0_r in Hpi. congruence.
      * by apply Hlater.
Qed.

(** C7 (as amended): a batch returns one outcome for each url that goes
    through (its fetch yields non-empty content and its normalisation
    raises nothing), in input order, with the identifier of the stored
    entry and the content cut to 200 characters; every other url is
    skipped without ending the batch and adds no row: the store gains
    exactly the rows of the urls that went through, under consecutive new
    identifiers, and nothing else in it changes. *)
Theorem crawl_industry_data_batch
    (urls : list string) (tags : option (list string)) (d : database) :
  let ok := successes_from 0 urls in
  let rowid := next_rowid (industry.id <$> industry_data d) in
  crawl_industry_data urls tags d
  = ({| clients := clients d;
        industry_data := industry_data d ++ numbered (row_of tags) rowid ok;
        lead_bucket := lead_bucket d;
        tailored_solutions := tailored_solutions d;
        outreach_log := outreach_log d |},
     numbered (outcome_of tags) rowid ok)
  ∧ s_url <$> ok `sublist_of` urls
  ∧ StronglySorted lt (s_index <$> ok)
  ∧ (∀ s, s ∈ ok →
       urls !! s_index s = Some (s_url s)
       ∧ processed (s_index s) (s_url s) = Some (s_title s, s_markdown s))
  ∧ (∀ i url title markdown,
       urls !! i = Some url → processed i url = Some (title, markdown) →
       {| s_index := i; s_url := url; s_title := title; s_markdown := markdown |} ∈ ok).
Proof.
  cbv zeta. destruct (successes_from_spec urls 0) as (Hsorted & Hsound & Hcomplete).
  split; [|split; [|split; [|split]]].
  - unfold crawl_industry_data. by rewrite crawl_from_spec.
  - apply successes_sublist.
  - exact Hsorted.
  - intros s Hs. rewrite Forall_forall in Hsound.
    destruct (Hsound s Hs) as (_ & Hurl & Hp). rewrite Nat.sub_0_r in Hurl. done.
  - exact Hcomplete.
Qed.
End crawl_facts.

(** The scenario of the specification: the fetch of the second of three
    urls fails; the batch returns two outcomes, for the first and the
    third url in that order, and the store holds no entry for the
    second. *)
Lemma crawl_industry_data_scenario :
  let page_content := λ (_ : nat) (url : string),
    if bool_decide (url = "https://b.example") then None
    else Some ("<html><body>" +:+ url +:+ "</body></html>") in
  let normalize := λ content : string, Some (Some "title", content) in
  let batch := crawl_industry_data page_content normalize (λ i, Z.of_nat i) (λ _, "2025-01-01")
                 ["https://a.example"; "https://b.example"; "https://c.example"]
                 (Some ["sales_statistics"]) empty_database in
  (λ res, (r_id res, r_source res)) <$> batch.2
    = [(1, "https://a.example"); (2, "https://c.example")]
  ∧ industry.source <$> industry_data batch.1
    = ["https://a.example"; "https://c.example"].
Proof. by vm_compute. Qed.

(** C7 as stated fails: a url can be fetched and still yield no outcome.
    The page of the second url comes back, its normalisation raises, the
    [except Exception] branch skips it; two urls were fetched and one
    outcome is returned. *)
Lemma fetched_url_without_outcome :
  let page_content := λ (_ : nat) (url : string),
    Some ("<html><body>" +:+ url +:+ "</body></html>") in
  let normalize := λ content : string,
    if bool_decide (content = "<html><body>https://b.example</body></html>")
    then None else Some (None, content) in
  let urls := ["https://a.example"; "https://b.example"] in
  let batch := crawl_industry_data page_content normalize (λ i, Z.of_nat i) (λ _, "2025-01-01")
                 urls None empty_database in
  (∀ i url, urls !! i = Some url → opt_str_truthy (page_content i url) = true)
  ∧ r_source <$> batch.2 = ["https://a.example"]
  ∧ length batch.2 ≠ length urls.
Proof.
  cbv zeta. split; [|split; by vm_compute].
  intros [|[|i]] url Hi; simpl in Hi; [by injection Hi as <-..|done].
Qed.

(** ** Stores of different clients *)

Lemma list_ascii_of_append (a b : string) :
  String.list_ascii_of_string (a +:+ b)
  = String.list_ascii_of_string a ++ String.list_ascii_of_string b.
Proof. induction a as [|c a IH]; simpl; [done|]. by rewrite IH. Qed.

Lemma append_inj_r (a b t : string) : a +:+ t = b +:+ t → a = b.
Proof.
  intros Heq. apply (f_equal String.list_ascii_of_string) in Heq.
  rewrite !list_ascii_of_append in Heq. apply app_inv_tail in Heq.
  rewrite <- (String.string_of_list_ascii_of_string a).
  rewrite <- (String.string_of_list_ascii_of_string b). by rewrite Heq.
Qed.

Lemma relative_file_name (client_id : string) :
  has_sep client_id = false → startswith_sep (client_id +:+ ".db") = false.
Proof.
  destruct client_id as [|c s]; [done|]. simpl.
  destruct (Ascii.eqb_spec c "/") as [->|Hc]; [done|]. intros _.
  destruct c as [[] [] [] [] [] [] [] []]; done.
Qed.

(** Clients whose identifiers hold no separator have different files. *)
Lemma get_db_path_inj (module_dir a b : string) :
  has_sep a = false → has_sep b = false →
  _get_db_path module_dir a = _get_db_path module_dir b → a = b.
Proof.
  intros Ha Hb. unfold _get_db_path.
  generalize (os_path_join module_dir "client_dbs"). intros db_dir.
  unfold os_path_join. rewrite !relative_file_name by done.
  destruct (negb (str_truthy _) || endswith_sep _).
  - intros Heq%(inj (String.app _)). by apply append_inj_r in Heq.
  - intros Heq%(inj (String.app _))%(inj (String.app _)).
    by apply append_inj_r in Heq.
Qed.

Section tenants.
Context `{!JsonCodec} `{!FileSystem}.

Lemma call_method_other_file (module_dir client_id : string) (c : call) (now : Z)
    (files : gmap string database) (path : string) :
  path ≠ _get_db_path module_dir client_id →
  connect path (call_method module_dir client_id c now files).1 = connect path files.
Proof.
  intros Hne. unfold call_method, connect.
  destruct (can_open _); simpl; [|done]. by rewrite lookup_insert_ne.
Qed.

Lemma call_methods_other_file (module_dir client_id : string) (session : list (call * Z))
    (files : gmap string database) (path : string) :
  path ≠ _get_db_path module_dir client_id →
  connect path (call_methods module_dir client_id session files) = connect path files.
Proof.
  intros Hne. revert files. induction session as [|[c now] session IH]; intros files.
  - done.
  - change (call_methods module_dir client_id ((c, now) :: session) files)
      with (call_methods module_dir client_id session
              (call_method module_dir client_id c now files).1).
    by rewrite IH, call_method_other_file.
Qed.

(** C1 (as amended): for two different client identifiers without a
    path separator, whatever is done through the store of the first, in
    any number of calls, shows in no answer of the store of the second:
    every call on the second store returns what it would have returned
    had the first client done nothing. *)
Theorem tenant_isolation
    (module_dir a b : string) (files : gmap string database)
    (session : list (call * Z)) (q : call) (now : Z) :
  has_sep a = false → has_sep b = false → a ≠ b →
  (call_method module_dir b q now (call_methods module_dir a session files)).2
  = (call_method module_dir b q now files).2.
Proof.
  intros Ha Hb Hne. unfold call_method.
  destruct (can_open (_get_db_path module_dir b)); [|done]. simpl.
  rewrite call_methods_other_file; [done|].
  intros Heq. apply Hne. symmetry. by apply (get_db_path_inj module_dir).
Qed.
End tenants.

(** C1, run on the two client identifiers of the repository's tests. *)
Lemma tenant_isolation_witness :
  (call_method "/srv/gurilla7/database" "6115501596" (GetLeads None 50) 2
     (call_methods "/srv/gurilla7/database" "test_client"
        [(AddLead "Tech Corp" "https://techcorp.com" "contact@techcorp.com"
                  "Growing tech company", 1)] ∅)).2
  = (call_method "/srv/gurilla7/database" "6115501596" (GetLeads None 50) 2 ∅).2.
Proof.
  apply (tenant_isolation "/srv/gurilla7/database" "test_client" "6115501596");
    [reflexivity | reflexivity | discriminate].
Defined.

(** C1 as stated fails: [os.path.join] lets an absolute file name replace
    the directory, so the identifier that spells out the path of another
    client's file opens that file, and the lead the one client adds is
    listed for the other. *)
Lemma absolute_identifier_shares_store :
  let module_dir := "/srv/gurilla7/database" in
  let a := "acme" in
  let b := "/srv/gurilla7/database/client_dbs/acme" in
  let written := (call_method module_dir a
                    (AddLead "Tech Corp" "https://techcorp.com" "contact@techcorp.com"
                             "Growing tech company") 1 ∅).1 in
  a ≠ b
  ∧ _get_db_path module_dir a = _get_db_path module_dir b
  ∧ (call_method module_dir b (GetLeads None 50) 2 ∅).2 = RLeads []
  ∧ (call_method module_dir b (GetLeads None 50) 2 written).2
    = RLeads [({| lead.id := 1; lead.company_name := Text "Tech Corp";
                  lead.website := Text "https://techcorp.com";
                  lead.contact_info := Text "contact@techcorp.com";
                  lead.details := Text "Growing tech company";
                  lead.created_at := 1 |}, None)].
Proof. cbv zeta. split; [discriminate|]. split; [by vm_compute|]. split; by vm_compute. Qed.

(** * Further properties of the code *)

(** ** [LIKE] with the pattern of [search_industry_data] *)

Lemma append_nil_l (s : string) : "" +:+ s = s.
Proof. reflexivity. Qed.

Lemma append_cons (c : ascii) (a b : string) : String c a +:+ b = String c (a +:+ b).
Proof. reflexivity. Qed.

Ltac simpl_append := rewrite ?append_nil_l, ?append_cons in *.

Lemma like_percent (s : string) : like "%" s = true.
Proof.
  induction s as [|c s IH]; [done|].
  change (like "%" (String c s)) with (like "" (String c s) || like "%" s).
  by rewrite IH, orb_true_r.
Qed.

Lemma like_star (p s : string) :
  like (String "%" p) s = true ↔ ∃ pre t, s = pre +:+ t ∧ like p t = true.
Proof.
  induction s as [|c s IH].
  - change (like (String "%" p) "") with (like p "" || false). rewrite orb_false_r.
    split.
    + intros Hp. by exists "", "".
    + intros (pre & t & Heq & Hp). destruct pre; simpl_append; [|done]. by subst t.
  - change (like (String "%" p) (String c s))
      with (like p (String c s) || like (String "%" p) s).
    rewrite orb_true_iff, IH. split.
    + intros [Hp|(pre & t & -> & Hp)].
      * by exists "", (String c s).
      * by exists (String c pre), t.
    + intros (pre & t & Heq & Hp). destruct pre as [|c' pre]; simpl_append.
      * left. by subst t.
      * right. injection Heq as -> ->. by exists pre, t.
Qed.




Lemma string_app_assoc (a b c : string) : (a +:+ b) +:+ c = a +:+ b +:+ c.
Proof. induction a as [|x a IH]; simpl_append; [done|]. by rewrite IH. Qed.



Lemma filter_all {A} (P : A → Prop) `{!∀ x, Decision (P x)} (l : list A) :
  Forall P l → filter P l = l.
Proof.
  induction 1 as [|x l Hx _ IH]; [done|]. by rewrite filter_cons_True, IH.
Qed.

Lemma like_percent_only (keyword s : string) :
  percent_only keyword = true → like ("%" +:+ keyword +:+ "%") s = true.
Proof.
  intros Hk. simpl_append. apply like_star. exists "", s. split; [done|].
  revert Hk. induction keyword as [|c k IH]; intros Hk; simpl_append.
  - apply like_percent.
  - simpl in Hk. apply andb_true_iff in Hk as [Hc Hk].
    apply Ascii.eqb_eq in Hc as ->. apply like_star. exists "", s. split; [done|].
    by apply IH.
Qed.

(** ** Keyword search *)

Section search_facts.
Context `{!JsonCodec}.


(** X2: [search_industry_data] does not escape the keyword: an empty
    keyword, or one made of [%] only, restricts nothing, and the search
    is [get_industry_data] without a limit under the same tags. *)
Theorem search_industry_data_percent
    (keyword : string) (tags : option (list string)) (d : database) :
  percent_only keyword = true →
  search_industry_data keyword tags d = get_industry_data (-1) tags d.
Proof.
  intros Hk. unfold search_industry_data, get_industry_data.
  rewrite sql_limit_negative by done.
  assert (∀ r : industry.row,
            like ("%" +:+ keyword +:+ "%") (industry.content r)
            || like_nullable ("%" +:+ keyword +:+ "%") (industry.title r) = true) as Hmatch.
  { intros r. by rewrite (like_percent_only _ _ Hk). }
  destruct (opt_list_truthy tags).
  - f_equal. f_equal. apply list_filter_iff. intros r.
    rewrite andb_true_iff. split; [tauto|]. intros ?. split; [done|apply Hmatch].
  - f_equal. f_equal. apply filter_all, Forall_forall. intros r _. apply Hmatch.
Qed.
End search_facts.


(** X2, run on the keyword [%%]. *)
Lemma search_industry_data_percent_witness :
  search_industry_data "%%" None crawled_store = get_industry_data (-1) None crawled_store.
Proof.
  apply (search_industry_data_percent "%%" None crawled_store). reflexivity.
Defined.

(** ** Leads, solutions and outreach as the read methods list them *)

Lemma elem_of_leads_left_join (d : database) (lb : lead.row) (st : option string) :
  (lb, st) ∈ leads_left_join_solutions d ↔
  lb ∈ lead_bucket d
  ∧ match st with
    | None => solutions_of lb d = []
    | Some s => ∃ ts, ts ∈ solutions_of lb d ∧ solution.status ts = s
    end.
Proof.
  unfold leads_left_join_solutions. rewrite list_elem_of_bind. split.
  - intros (lb' & Hrow & Hlb'). fold (solutions_of lb' d) in Hrow.
    destruct (solutions_of lb' d) as [|ts0 rest] eqn:Hsol.
    + apply list_elem_of_singleton in Hrow. injection Hrow as -> ->. by split.
    + apply list_elem_of_fmap in Hrow as (ts & Heq & Hts). injection Heq as -> ->.
      split; [done|]. exists ts. by rewrite Hsol.
  - intros (Hlb & Hst). exists lb. split; [|done]. fold (solutions_of lb d).
    destruct st as [s|].
    + destruct Hst as (ts & Hts & <-).
      destruct (solutions_of lb d) as [|ts0 rest]; [by apply elem_of_nil in Hts|].
      apply list_elem_of_fmap. by exists ts.
    + rewrite Hst. by left.
Qed.



(** X4: [get_solutions] returns, newest first by [generated_at], the
    solutions that pass both optional conditions: [lead_id] filters
    whenever it is not [None] (also for the id 0), [status] only when it
    is a non-empty string; without conditions every solution is listed. *)
Theorem get_solutions_filters (d : database) (lead_id : option Z) (status : option string) :
  StronglySorted (not_older solution.generated_at) (get_solutions lead_id status d)
  ∧ (∀ ts, ts ∈ get_solutions lead_id status d ↔
       ts ∈ tailored_solutions d
       ∧ (∀ l, lead_id = Some l → solution.lead_id ts = l)
       ∧ (opt_str_truthy status = true → Some (solution.status ts) = status))
  ∧ get_solutions None None d ≡ₚ tailored_solutions d
  ∧ get_solutions lead_id (Some "") d = get_solutions lead_id None d.
Proof.
  unfold get_solutions. split; [apply order_by_desc_sorted|]. split; [|split].
  - intros ts. rewrite elem_of_order_by_desc, list_elem_of_filter, andb_true_iff.
    destruct lead_id as [l|], (opt_str_truthy status);
      rewrite ?bool_decide_eq_true; split; intros; intuition (congruence || auto).
  - rewrite order_by_desc_perm. simpl. by rewrite filter_all by (by apply Forall_forall).
  - done.
Qed.

Lemma elem_of_outreach_join (d : database) (ol : outreach.row) (name : text_cell) :
  (ol, name) ∈ outreach_join_leads d ↔
  ol ∈ outreach_log d
  ∧ ∃ lb, lb ∈ lead_bucket d ∧ lead.id lb = outreach.lead_id ol
          ∧ name = lead.company_name lb.
Proof.
  unfold outreach_join_leads. rewrite list_elem_of_bind. split.
  - intros (ol' & Hrow & Hol'). apply list_elem_of_fmap in Hrow as (lb & Heq & Hlb).
    injection Heq as -> ->. apply list_elem_of_filter in Hlb as [Hid Hlb].
    split; [done|]. by exists lb.
  - intros (Hol & lb & Hlb & Hid & ->). exists ol. split; [|done].
    apply list_elem_of_fmap. exists lb. split; [done|]. by apply list_elem_of_filter.
Qed.

(** X5: [get_pending_responses] lists, newest first by [sent_at], the
    outreach records without response that belong to an existing lead,
    each with that lead's company name; a record whose [lead_id] matches
    no lead is not listed, although [get_campaign_stats] counts it. *)
Theorem get_pending_responses_lists (d : database) :
  StronglySorted (not_older (λ row, outreach.sent_at row.1)) (get_pending_responses d)
  ∧ (∀ ol name, (ol, name) ∈ get_pending_responses d ↔
       ol ∈ outreach_log d ∧ outreach.response ol = None
       ∧ ∃ lb, lb ∈ lead_bucket d ∧ lead.id lb = outreach.lead_id ol
               ∧ name = lead.company_name lb)
  ∧ (∀ ol, Forall (λ lb, lead.id lb ≠ outreach.lead_id ol) (lead_bucket d) →
       ∀ name, (ol, name) ∉ get_pending_responses d)
  ∧ total_outreach (outreach_stats_of (get_campaign_stats d)) = sql_count (outreach_log d).
Proof.
  assert (∀ ol name, (ol, name) ∈ get_pending_responses d ↔
            ol ∈ outreach_log d ∧ outreach.response ol = None
            ∧ ∃ lb, lb ∈ lead_bucket d ∧ lead.id lb = outreach.lead_id ol
                    ∧ name = lead.company_name lb) as Hmem.
  { intros ol name. unfold get_pending_responses.
    rewrite elem_of_order_by_desc, list_elem_of_filter, elem_of_outreach_join.
    simpl. tauto. }
  split; [apply order_by_desc_sorted|]. split; [exact Hmem|]. split; [|done].
  intros ol Horphan name (_ & _ & lb & Hlb & Hid & _)%Hmem.
  rewrite Forall_forall in Horphan. by apply (Horphan lb).
Qed.

(** X6: [get_outreach_history] lists, newest first by [sent_at] and cut
    by [limit], the outreach records of existing leads with the lead's
    company name; [lead_id] filters whenever it is not [None]. *)
Theorem get_outreach_history_lists (d : database) (lead_id : option Z) (limit : Z) :
  ∃ joined : list (outreach.row * text_cell),
    get_outreach_history lead_id limit d = sql_limit limit joined
    ∧ StronglySorted (not_older (λ row, outreach.sent_at row.1)) joined
    ∧ (∀ ol name, (ol, name) ∈ joined ↔
         ol ∈ outreach_log d
         ∧ (∃ lb, lb ∈ lead_bucket d ∧ lead.id lb = outreach.lead_id ol
                  ∧ name = lead.company_name lb)
         ∧ (∀ l, lead_id = Some l → outreach.lead_id ol = l))
    ∧ (0 ≤ limit → Z.of_nat (length (get_outreach_history lead_id limit d)) ≤ limit)
    ∧ (limit < 0 → get_outreach_history lead_id limit d = joined).
Proof.
  unfold get_outreach_history. eexists. split; [reflexivity|].
  split; [apply order_by_desc_sorted|]. split; [|split].
  - intros ol name. rewrite elem_of_order_by_desc. destruct lead_id as [l|].
    + rewrite list_elem_of_filter, elem_of_outreach_join. simpl.
      split; intros; intuition (congruence || auto).
    + rewrite elem_of_outreach_join. intuition discriminate.
  - apply sql_limit_length.
  - apply sql_limit_negative.
Qed.

(** ** Updates composed *)

Lemma fmap_select_twice {A} (P : A → Prop) `{!∀ x, Decision (P x)} (f g : A → A) (l : list A) :
  (∀ x, P x → P (f x)) →
  (λ x, if bool_decide (P x) then g x else x)
    <$> ((λ x, if bool_decide (P x) then f x else x) <$> l)
  = (λ x, if bool_decide (P x) then g (f x) else x) <$> l.
Proof.
  intros Hkeep. rewrite <- list_fmap_compose. apply list_fmap_ext. intros _ x _. simpl.
  destruct (decide (P x)) as [Hx|Hx].
  - rewrite (bool_decide_eq_true_2 (P x)) by done.
    by rewrite bool_decide_eq_true_2 by auto.
  - rewrite (bool_decide_eq_false_2 (P x)) by done.
    by rewrite bool_decide_eq_false_2.
Qed.


(** X8: [update_outreach_response] has no guard against a second answer:
    called again on the same record it overwrites [response] and
    [updated_at], and the store is the one the later call alone would
    have produced. *)
Theorem update_outreach_response_overwrites
    (d : database) (outreach_id : Z) (first second : string) (t1 t2 : Z) :
  update_outreach_response outreach_id second t2
    (update_outreach_response outreach_id first t1 d).1
  = update_outreach_response outreach_id second t2 d
  ∧ ∀ ol, ol ∈ outreach_log (update_outreach_response outreach_id second t2
                               (update_outreach_response outreach_id first t1 d).1).1 →
          outreach.id ol = outreach_id →
          outreach.response ol = Some second ∧ outreach.updated_at ol = Some t2.
Proof.
  assert (update_outreach_response outreach_id second t2
            (update_outreach_response outreach_id first t1 d).1
          = update_outreach_response outreach_id second t2 d) as Heq.
  { unfold update_outreach_response. simpl. f_equal. f_equal.
    by rewrite (fmap_select_twice (λ ol, outreach.id ol = outreach_id)) by done. }
  split; [exact Heq|]. rewrite Heq. unfold update_outreach_response. simpl.
  intros ol (r & -> & _)%list_elem_of_fmap Hid.
  case_bool_decide; [done|]. done.
Qed.

Lemma elem_of_dict_merge (u1 u2 : list (string * py_value)) (k : string) (v : py_value) :
  NoDup u2.*1 →
  (k, v) ∈ dict_merge u1 u2 ↔ (k, v) ∈ u2 ∨ ((k, v) ∈ u1 ∧ k ∉ u2.*1).
Proof.
  intros Hdup. unfold dict_merge, dict_get.
  rewrite elem_of_app, list_elem_of_fmap, list_elem_of_filter. simpl. split.
  - intros [([k1 v1] & Heq & Hkv)|[_ Hkv]]; [|by left]. simpl in Heq.
    destruct ((list_to_map u2 : gmap string py_value) !! k1) as [v2|] eqn:Hget;
      simpl in Heq; injection Heq as -> ->.
    + left. by apply elem_of_list_to_map.
    + right. split; [done|]. by apply not_elem_of_list_to_map.
  - intros [Hkv|[Hkv Hk]].
    + destruct (decide (k ∈ u1.*1)) as [Hin|Hout]; [|by right].
      left. apply list_elem_of_fmap in Hin as ([k1 v1] & -> & Hin).
      exists (k1, v1). split; [|done]. simpl.
      by rewrite (elem_of_list_to_map_1 u2 k1 v Hdup Hkv).
    + left. exists (k, v). split; [|done]. simpl.
      by rewrite (not_elem_of_list_to_map_1 u2 k Hk).
Qed.

Lemma dict_merge_keys (u1 u2 : list (string * py_value)) :
  (dict_merge u1 u2).*1 = u1.*1 ++ (filter (λ kv, kv.1 ∉ u1.*1) u2).*1.
Proof.
  unfold dict_merge. rewrite fmap_app. f_equal.
  rewrite <- list_fmap_compose. by apply list_fmap_ext.
Qed.

Lemma dict_merge_NoDup (u1 u2 : list (string * py_value)) :
  NoDup u1.*1 → NoDup u2.*1 → NoDup (dict_merge u1 u2).*1.
Proof.
  intros Hdup1 Hdup2. rewrite dict_merge_keys. apply NoDup_app. split_and!.
  - done.
  - intros k Hk ([k' v] & -> & Hkv)%list_elem_of_fmap.
    by apply list_elem_of_filter in Hkv as [Hout _].
  - apply (sublist_NoDup _ _ Hdup2), fmap_sublist, sublist_filter.
Qed.

Lemma stored_as_unique (v : py_value) (c c' : text_cell) :
  stored_as v c → stored_as v c' → c = c'.
Proof. intros (b & Hb & ->) (b' & Hb' & ->). congruence. Qed.

(** The mapping and the column before determine the column after. *)
Lemma column_updated_unique (updates : list (string * py_value)) (name : string)
    (old new new' : text_cell) :
  column_updated updates name old new → column_updated updates name old new' → new = new'.
Proof.
  intros [Hin Hout] [Hin' Hout'].
  destruct (decide (name ∈ updates.*1)) as [Hname|Hname].
  - apply list_elem_of_fmap in Hname as ([k v] & -> & Hkv).
    eapply stored_as_unique; eauto.
  - by rewrite Hout, Hout'.
Qed.

Lemma column_updated_merge (u1 u2 : list (string * py_value)) (name : string)
    (old mid new : text_cell) :
  NoDup u2.*1 →
  column_updated u1 name old mid → column_updated u2 name mid new →
  column_updated (dict_merge u1 u2) name old new.
Proof.
  intros Hdup [Hin1 Hout1] [Hin2 Hout2]. split.
  - intros v [Hv|[Hv Hname]]%(elem_of_dict_merge _ _ _ _ Hdup); [by apply Hin2|].
    rewrite (Hout2 Hname). by apply Hin1.
  - rewrite dict_merge_keys, elem_of_app. intros Hname.
    assert (name ∉ u2.*1) as Hname2.
    { intros Hin. apply Hname. destruct (decide (name ∈ u1.*1)); [by left|right].
      apply list_elem_of_fmap in Hin as ([k v] & -> & Hkv).
      apply list_elem_of_fmap. exists (k, v). split; [done|].
      by apply list_elem_of_filter. }
    rewrite Hout2, Hout1 by tauto. done.
Qed.

(** X9: two [update_lead] calls on the same lead, each with a recognised
    field and values sqlite3 binds, amount to one call with the two
    mappings merged, the later one taking precedence on the fields both
    name. *)
Theorem update_lead_twice
    (d : database) (lead_id : Z) (u1 u2 : list (string * py_value)) :
  NoDup u1.*1 → NoDup u2.*1 →
  update_fields u1 ≠ [] → update_fields u2 ≠ [] →
  Forall bindable (update_fields u1).*2 → Forall bindable (update_fields u2).*2 →
  int64 lead_id →
  (update_lead lead_id u1 d).2 = Return true
  ∧ update_lead lead_id u2 (update_lead lead_id u1 d).1
    = update_lead lead_id (dict_merge u1 u2) d
  ∧ (update_lead lead_id (dict_merge u1 u2) d).2 = Return true.
Proof.
  intros Hdup1 Hdup2 Hsome1 Hsome2 Hbind1 Hbind2 Hid.
  assert (∀ k v, (k, v) ∈ update_fields (dict_merge u1 u2) →
                 (k, v) ∈ update_fields u1 ∨ (k, v) ∈ update_fields u2) as Hfrom.
  { intros k v [Hkv Hk]%elem_of_update_fields.
    apply (elem_of_dict_merge _ _ _ _ Hdup2) in Hkv as [Hkv|[Hkv _]].
    - right. by apply elem_of_update_fields.
    - left. by apply elem_of_update_fields. }
  assert (update_fields (dict_merge u1 u2) ≠ []) as Hsome.
  { destruct (update_fields u2) as [|[k v] fields] eqn:Hfields; [done|].
    assert ((k, v) ∈ update_fields u2) as Hkv by (rewrite Hfields; left).
    apply elem_of_update_fields in Hkv as [Hkv Hk].
    assert ((k, v) ∈ update_fields (dict_merge u1 u2)) as Hin.
    { apply elem_of_update_fields. split; [|done]. apply elem_of_dict_merge; auto. }
    intros Hnil. rewrite Hnil in Hin. by apply elem_of_nil in Hin. }
  assert (Forall bindable (update_fields (dict_merge u1 u2)).*2) as Hbind.
  { apply Forall_fmap, Forall_forall. intros [k v] Hkv. simpl.
    rewrite Forall_fmap, Forall_forall in Hbind1, Hbind2.
    destruct (Hfrom k v Hkv) as [Hin|Hin]; [apply (Hbind1 _ Hin)|apply (Hbind2 _ Hin)]. }
  destruct (update_lead_applies lead_id u1 d Hsome1 Hbind1 Hid) as (sets1 & -> & Hsets1).
  cbn [fst snd]. split; [done|].
  destruct (update_lead_applies lead_id u2
              {| clients := clients d; industry_data := industry_data d;
                 lead_bucket := (λ r, if bool_decide (lead.id r = lead_id)
                                      then assign_lead sets1 r else r) <$> lead_bucket d;
                 tailored_solutions := tailored_solutions d;
                 outreach_log := outreach_log d |} Hsome2 Hbind2 Hid)
    as (sets2 & -> & Hsets2).
  destruct (update_lead_applies lead_id (dict_merge u1 u2) d Hsome Hbind Hid)
    as (sets & -> & Hsets).
  cbn [fst snd clients industry_data lead_bucket tailored_solutions outreach_log].
  split; [|done]. f_equal. f_equal.
  rewrite (fmap_select_twice (λ r, lead.id r = lead_id)) by done.
  apply list_fmap_ext. intros _ r _. case_bool_decide; [|done].
  pose proof (dict_merge_NoDup u1 u2 Hdup1 Hdup2) as Hdup.
  unfold assign_lead. cbn [lead.id lead.company_name lead.website lead.contact_info
                           lead.details lead.created_at].
  f_equal.
  all: eapply column_updated_unique;
    [eapply (column_updated_merge u1 u2); [done| |]|];
    eapply assigned_column; try eassumption; unfold valid_fields; set_solver.
Qed.

(** X9, run on the update of the repository's test followed by a second
    one. *)
Lemma update_lead_twice_witness :
  let d := (add_lead "Tech Corp" "https://techcorp.com" "contact@techcorp.com"
                     "Growing tech company" 1 empty_database).1 in
  let u1 := [ ("contact_info", PyStr "new.contact@techcorp.com");
              ("details", PyStr "Updated company details") ] in
  let u2 := [ ("details", PyStr "Second update"); ("bogus", PyInt 1);
              ("website", PyNone) ] in
  (update_lead 1 u1 d).2 = Return true
  ∧ update_lead 1 u2 (update_lead 1 u1 d).1 = update_lead 1 (dict_merge u1 u2) d
  ∧ (update_lead 1 (dict_merge u1 u2) d).2 = Return true.
Proof.
  apply (update_lead_twice
           (add_lead "Tech Corp" "https://techcorp.com" "contact@techcorp.com"
                     "Growing tech company" 1 empty_database).1 1
           [ ("contact_info", PyStr "new.contact@techcorp.com");
             ("details", PyStr "Updated company details") ]
           [ ("details", PyStr "Second update"); ("bogus", PyInt 1);
             ("website", PyNone) ]).
  - apply (bool_decide_unpack _). vm_compute. reflexivity.
  - apply (bool_decide_unpack _). vm_compute. reflexivity.
  - vm_compute. discriminate.
  - vm_compute. discriminate.
  - repeat (constructor; [by eexists|]). constructor.
  - repeat (constructor; [by eexists|]). constructor.
  - unfold int64. lia.
Defined.

(** ** What holds of every store the methods have built *)

Section store_invariants.
Context `{!JsonCodec}.

(** A property the new file has and every call keeps holds after any
    session. *)
Lemma run_calls_invariant (P : database → Prop) :
  P empty_database →
  (∀ d c now, P d → P (perform c now d).1) →
  ∀ session, P (run_calls session empty_database).
Proof.
  intros Hempty Hstep session. revert Hempty. generalize empty_database.
  induction session as [|[c now] session IH]; intros d Hd; [done|].
  change (run_calls ((c, now) :: session) d) with (run_calls session (perform c now d).1).
  by apply IH, Hstep.
Qed.

Lemma consecutive_snoc (first : Z) (n : nat) :
  consecutive first n ++ [first + Z.of_nat n] = consecutive first (S n).
Proof.
  revert first. induction n as [|n IH]; intros first.
  - simpl. by rewrite Z.add_0_r.
  - change (consecutive first (S n)) with (first :: consecutive (first + 1) n).
    rewrite <- app_comm_cons. f_equal.
    replace (first + Z.of_nat (S n)) with (first + 1 + Z.of_nat n) by lia.
    by rewrite IH.
Qed.

Lemma max_consecutive (first : Z) (n : nat) :
  0 < first →
  foldr Z.max 0 (consecutive first n) = if n is O then 0 else first + Z.of_nat n - 1.
Proof.
  revert first. induction n as [|n IH]; intros first Hpos; [done|].
  simpl consecutive. simpl foldr. rewrite IH by lia. destruct n; lia.
Qed.

Lemma next_rowid_consecutive (n : nat) : next_rowid (consecutive 1 n) = 1 + Z.of_nat n.
Proof. unfold next_rowid. rewrite max_consecutive by lia. destruct n; lia. Qed.

Lemma consecutive_insert (ids : list Z) (n : nat) :
  ids = consecutive 1 n → ids ++ [next_rowid ids] = consecutive 1 (S n).
Proof. intros ->. by rewrite next_rowid_consecutive, consecutive_snoc. Qed.

Lemma fmap_id_preserved {A} (key : A → Z) (f : A → A) (l : list A) :
  (∀ x, key (f x) = key x) → key <$> (f <$> l) = key <$> l.
Proof.
  intros Hkey. rewrite <- list_fmap_compose. apply list_fmap_ext. intros _ x _. apply Hkey.
Qed.

Lemma insert_keeps_consecutive {A} (key : A → Z) (rows : list A) (r : A) :
  key <$> rows = consecutive 1 (length rows) →
  key r = next_rowid (key <$> rows) →
  key <$> (rows ++ [r]) = consecutive 1 (length (rows ++ [r])).
Proof.
  intros Hrows Hr. rewrite fmap_app, length_app. simpl. rewrite Hr.
  rewrite Nat.add_1_r. by apply consecutive_insert.
Qed.

Lemma update_keeps_consecutive {A} (key : A → Z) (f : A → A) (rows : list A) :
  (∀ x, key (f x) = key x) →
  key <$> rows = consecutive 1 (length rows) →
  key <$> (f <$> rows) = consecutive 1 (length (f <$> rows)).
Proof. intros Hkey Hrows. by rewrite fmap_id_preserved, length_fmap. Qed.

Lemma perform_rowids_consecutive (d : database) (c : call) (now : Z) :
  rowids_consecutive d → rowids_consecutive (perform c now d).1.
Proof.
  intros (Hi & Hl & Hs & Ho). destruct c; simpl; try done.
  - unfold create_client. by case_bool_decide.
  - unfold rowids_consecutive. simpl. split; [|done].
    by apply insert_keeps_consecutive.
  - unfold rowids_consecutive. simpl. split; [done|]. split; [|done].
    by apply insert_keeps_consecutive.
  - unfold rowids_consecutive. simpl. split; [done|]. split; [done|]. split; [|done].
    by apply insert_keeps_consecutive.
  - unfold rowids_consecutive. simpl. split; [done|]. split; [done|]. split; [done|].
    by apply insert_keeps_consecutive.
  - unfold rowids_consecutive. simpl. split; [done|]. split; [done|]. split; [done|].
    apply update_keeps_consecutive; [|done]. intros ol. by case_bool_decide.
  - destruct (update_lead_tables lead_id updates d) as (_ & Hi' & Hs' & Ho' & Hl').
    unfold rowids_consecutive.
    rewrite Hi', Hs', Ho', Hl', <- (length_fmap lead.id (lead_bucket _)), Hl', length_fmap.
    done.
  - unfold update_solution_status. case_bool_decide; [done|].
    unfold rowids_consecutive. simpl. split; [done|]. split; [done|]. split; [|done].
    apply update_keeps_consecutive; [|done]. intros ts. by case_bool_decide.
Qed.

(** X10: in every store built by the methods from a new file, the rows of
    each numbered table carry the identifiers 1, 2, ..., n in insertion
    order, so identifiers are unique, none is reused and the next insert
    returns n + 1; no update changes an identifier. *)
Theorem rowids_are_consecutive (session : list (call * Z)) :
  let d := run_calls session empty_database in
  rowids_consecutive d
  ∧ (∀ company website contact details now,
       (add_lead company website contact details now d).2
       = 1 + Z.of_nat (length (lead_bucket d)))
  ∧ (∀ lead_id text now,
       (add_solution lead_id text now d).2 = 1 + Z.of_nat (length (tailored_solutions d)))
  ∧ (∀ lead_id message now,
       (log_outreach lead_id message now d).2 = 1 + Z.of_nat (length (outreach_log d)))
  ∧ (∀ source content pain title tags crawled now,
       (add_industry_data source content pain title tags crawled now d).2
       = 1 + Z.of_nat (length (industry_data d))).
Proof.
  cbv zeta.
  pose proof (run_calls_invariant rowids_consecutive) as Hinv.
  destruct (Hinv (conj eq_refl (conj eq_refl (conj eq_refl eq_refl)))
                 perform_rowids_consecutive session) as (Hi & Hl & Hs & Ho).
  split; [done|]. unfold add_lead, add_solution, log_outreach, add_industry_data. simpl.
  rewrite Hi, Hl, Hs, Ho, !next_rowid_consecutive. done.
Qed.

(** X11: in every store built by the methods, each solution's status is
    one of the five valid values: [add_solution] writes [pending] and
    [update_solution_status] refuses anything else. *)
Theorem statuses_stay_valid (session : list (call * Z)) :
  Forall (λ ts, solution.status ts ∈ valid_statuses)
         (tailored_solutions (run_calls session empty_database)).
Proof.
  apply (run_calls_invariant
           (λ d, Forall (λ ts, solution.status ts ∈ valid_statuses) (tailored_solutions d)));
    [constructor|].
  intros d c now Hd. destruct c; simpl; try done.
  - unfold create_client. by case_bool_decide.
  - apply Forall_app. split; [done|]. constructor; [|constructor]. simpl.
    unfold valid_statuses. set_solver.
  - by destruct (update_lead_tables lead_id updates d) as (_ & _ & -> & _).
  - unfold update_solution_status. case_bool_decide as Hvalid; [done|]. simpl.
    apply Forall_fmap. eapply Forall_impl; [exact Hd|]. simpl. intros ts Hts.
    case_bool_decide; [|done]. exact Hvalid.
Qed.

(** X12: in every store built by the methods, an outreach record has a
    response exactly when it has an [updated_at]: [log_outreach] leaves
    both NULL and [update_outreach_response] sets both. *)
Theorem response_and_updated_at_agree (session : list (call * Z)) :
  Forall (λ ol, outreach.response ol = None ↔ outreach.updated_at ol = None)
         (outreach_log (run_calls session empty_database)).
Proof.
  apply (run_calls_invariant
           (λ d, Forall (λ ol, outreach.response ol = None ↔ outreach.updated_at ol = None)
                        (outreach_log d))); [constructor|].
  intros d c now Hd. destruct c; simpl; try done.
  - unfold create_client. by case_bool_decide.
  - apply Forall_app. split; [done|]. by constructor.
  - apply Forall_fmap. eapply Forall_impl; [exact Hd|]. simpl. intros ol Hol.
    case_bool_decide; [|done]. by simpl.
  - by destruct (update_lead_tables lead_id updates d) as (_ & _ & _ & -> & _).
  - unfold update_solution_status. by case_bool_decide.
Qed.

(** The tags cells of a store the methods have built. *)
Lemma run_calls_cells (session : list (call * Z)) :
  Forall (λ r, ∃ l, industry.tags r = stored_cell l)
         (industry_data (run_calls session empty_database)).
Proof.
  apply (run_calls_invariant
           (λ d, Forall (λ r, ∃ l, industry.tags r = stored_cell l) (industry_data d)));
    [constructor|].
  intros d c now Hd. destruct c; simpl; try done.
  - unfold create_client. by case_bool_decide.
  - apply Forall_app. split; [done|]. constructor; [|constructor]. simpl.
    destruct tags as [[|t l]|]; [by exists []|by exists (t :: l)|by exists []].
  - by destruct (update_lead_tables lead_id updates d) as (_ & -> & _).
  - unfold update_solution_status. by case_bool_decide.
Qed.

(** [json.loads] reads each of them: the store is [decodable]. *)
Lemma run_calls_decodable (session : list (call * Z)) :
  decodable (run_calls session empty_database).
Proof.
  unfold decodable. eapply Forall_impl; [apply run_calls_cells|].
  cbv beta. intros r [l Hl] text Htext e Hraise. rewrite Hl in Htext.
  destruct l as [|t l]; [discriminate Htext|].
  unfold stored_cell in Htext. injection Htext as <-.
  rewrite json_loads_dumps_strings in Hraise. discriminate Hraise.
Qed.

(** X13: in every store built by the methods, a tags cell is NULL or the
    text [json.dumps] wrote for a non-empty list of strings, so the reads
    never meet text that fails to parse: each entry [get_industry_data]
    or [search_industry_data] returns carries [None] or a list of strings
    under ['tags']. *)
Theorem stored_tags_always_parse (session : list (call * Z)) :
  let d := run_calls session empty_database in
  Forall (λ r, ∃ l, industry.tags r = stored_cell l) (industry_data d)
  ∧ ∀ limit keyword tags e,
      e ∈ get_industry_data limit tags d ∨ e ∈ search_industry_data keyword tags d →
      ∃ l, e_tags e = read_back l.
Proof.
  cbv zeta. pose proof (run_calls_cells session) as Hcells.
  split; [exact Hcells|]. rewrite Forall_forall in Hcells.
  intros limit keyword tags e He.
  assert (∃ r, r ∈ industry_data (run_calls session empty_database) ∧ e = decode_row r)
    as (r & Hr & ->).
  { unfold get_industry_data, search_industry_data in He.
    destruct He as [He|He]; apply list_elem_of_fmap in He as (r & -> & Hr); exists r;
      (split; [|done]).
    - apply elem_of_sql_limit, elem_of_order_by_desc in Hr.
      destruct (opt_list_truthy tags); [by apply list_elem_of_filter in Hr as [_ Hr]|done].
    - apply elem_of_order_by_desc in Hr.
      destruct (opt_list_truthy tags); by apply list_elem_of_filter in Hr as [_ Hr]. }
  destruct (Hcells r Hr) as [l Hl]. exists l. simpl. rewrite Hl. apply decode_stored_cell.
Qed.

(** X14: in every store built by the methods, no two client rows carry
    the same handle. *)
Theorem client_handles_stay_unique (session : list (call * Z)) :
  NoDup (handles (run_calls session empty_database)).
Proof.
  apply (run_calls_invariant (λ d, NoDup (handles d))); [constructor|].
  intros d c now Hd. destruct (perform_clients c now d) as [Hsame|(r & Hr & Hfresh)].
  - unfold handles in *. by rewrite Hsame.
  - unfold handles in *. rewrite Hr, fmap_app. simpl.
    apply NoDup_app. split; [done|]. split.
    + intros h Hh ->%list_elem_of_singleton. done.
    + apply NoDup_singleton.
Qed.
End store_invariants.

(** ** What is written is read back *)

(** A limit that does not cut: it is negative, or at least the number
    of rows the listing has without limit.  The listing is then the
    whole one. *)
Lemma get_leads_uncut (status : option string) (limit : Z) (d : database) :
  limit < 0 ∨ Z.of_nat (length (get_leads status (-1) d)) ≤ limit →
  get_leads status limit d = get_leads status (-1) d.
Proof.
  unfold get_leads. rewrite (sql_limit_negative (-1)) by done. apply sql_limit_all.
Qed.

Lemma get_outreach_history_uncut (lead_id : option Z) (limit : Z) (d : database) :
  limit < 0 ∨ Z.of_nat (length (get_outreach_history lead_id (-1) d)) ≤ limit →
  get_outreach_history lead_id limit d = get_outreach_history lead_id (-1) d.
Proof.
  unfold get_outreach_history. rewrite (sql_limit_negative (-1)) by done.
  apply sql_limit_all.
Qed.

Lemma elem_of_get_leads_all (status : option string) (d : database)
    (row : lead.row * option string) :
  row ∈ get_leads status (-1) d
  ↔ row ∈ leads_left_join_solutions d ∧ (opt_str_truthy status = true → row.2 = status).
Proof.
  unfold get_leads. rewrite sql_limit_negative, elem_of_order_by_desc by done.
  destruct (opt_str_truthy status).
  - rewrite list_elem_of_filter. tauto.
  - intuition discriminate.
Qed.

(** X15: [add_lead] returns an identifier above every identifier of the
    table and stores the lead under it with the four texts; under a limit
    that does not cut the listing, [get_leads] without filter then lists
    that lead, with a NULL status when no solution refers to the new
    identifier, and still lists every row it listed before. *)
Theorem add_lead_is_listed
    (d : database) (company website contact details : string) (now limit : Z) :
  let added := add_lead company website contact details now d in
  let row := {| lead.id := added.2; lead.company_name := Text company;
                lead.website := Text website; lead.contact_info := Text contact;
                lead.details := Text details; lead.created_at := now |} in
  Forall (λ r, lead.id r < added.2) (lead_bucket d)
  ∧ lead_bucket added.1 = lead_bucket d ++ [row]
  ∧ (limit < 0 ∨ Z.of_nat (length (get_leads None (-1) added.1)) ≤ limit →
     (∃ st, (row, st) ∈ get_leads None limit added.1)
     ∧ (Forall (λ ts, solution.lead_id ts ≠ added.2) (tailored_solutions d) →
        (row, None) ∈ get_leads None limit added.1)
     ∧ (∀ lb st, (lb, st) ∈ get_leads None limit d →
                 (lb, st) ∈ get_leads None limit added.1)).
Proof.
  cbv zeta. unfold add_lead. simpl.
  set (row := {| lead.id := next_rowid (lead.id <$> lead_bucket d);
                 lead.company_name := Text company; lead.website := Text website;
                 lead.contact_info := Text contact; lead.details := Text details;
                 lead.created_at := now |}).
  set (d' := {| clients := clients d; industry_data := industry_data d;
                lead_bucket := lead_bucket d ++ [row];
                tailored_solutions := tailored_solutions d;
                outreach_log := outreach_log d |}).
  assert (row ∈ lead_bucket d') as Hrow.
  { simpl. apply elem_of_app. right. by left. }
  split; [|split; [done|]].
  - pose proof (next_rowid_fresh (lead.id <$> lead_bucket d)) as Hfresh.
    by rewrite Forall_fmap in Hfresh.
  - intros Huncut. rewrite (get_leads_uncut None limit d') by done.
    assert (∀ lb st, (lb, st) ∈ get_leads None (-1) d' ↔ (lb, st) ∈ leads_left_join_solutions d')
      as Hall.
    { intros lb st. rewrite elem_of_get_leads_all. simpl. intuition discriminate. }
    split; [|split].
    + destruct (solutions_of row d') as [|ts rest] eqn:Hsol.
      * exists None. apply Hall, elem_of_leads_left_join. by split.
      * exists (Some (solution.status ts)). apply Hall, elem_of_leads_left_join.
        split; [done|]. exists ts. split; [|done]. rewrite Hsol. by left.
    + intros Hnone. apply Hall, elem_of_leads_left_join. split; [done|].
      apply filter_none. exact Hnone.
    + intros lb st Hlisted. unfold get_leads in Hlisted. simpl in Hlisted.
      apply elem_of_sql_limit, elem_of_order_by_desc in Hlisted.
      apply Hall. rewrite elem_of_leads_left_join in *. destruct Hlisted as [Hlb Hst].
      split; [|done]. simpl. apply elem_of_app. by left.
Qed.

(** X16: [add_solution], for a [lead_id] in range, stores the solution
    with the status [pending], whether or not a lead carries [lead_id];
    [get_solutions] lists it under its lead and under [pending]; a lead
    with that identifier is listed by [get_leads] under [pending] when
    the limit does not cut the listing, and when there is no such lead
    every [get_leads] listing stays as it was. *)
Theorem add_solution_starts_pending
    (d : database) (lead_id : Z) (text : string) (now : Z) :
  int64 lead_id →
  let added := add_solution lead_id text now d in
  let row := {| solution.id := added.2; solution.lead_id := lead_id;
                solution.solution_text := text; solution.generated_at := now;
                solution.status := "pending" |} in
  Forall (λ ts, solution.id ts < added.2) (tailored_solutions d)
  ∧ tailored_solutions added.1 = tailored_solutions d ++ [row]
  ∧ row ∈ get_solutions (Some lead_id) (Some "pending") added.1
  ∧ (∀ limit lb,
       limit < 0 ∨ Z.of_nat (length (get_leads (Some "pending") (-1) added.1)) ≤ limit →
       lb ∈ lead_bucket d → lead.id lb = lead_id →
       (lb, Some "pending") ∈ get_leads (Some "pending") limit added.1)
  ∧ (Forall (λ lb, lead.id lb ≠ lead_id) (lead_bucket d) →
     ∀ status limit, get_leads status limit added.1 = get_leads status limit d).
Proof.
  intros _. cbv zeta. unfold add_solution. simpl.
  set (row := {| solution.id := next_rowid (solution.id <$> tailored_solutions d);
                 solution.lead_id := lead_id; solution.solution_text := text;
                 solution.generated_at := now; solution.status := "pending" |}).
  split; [|split; [done|split; [|split]]].
  - pose proof (next_rowid_fresh (solution.id <$> tailored_solutions d)) as Hfresh.
    by rewrite Forall_fmap in Hfresh.
  - unfold get_solutions. simpl. apply elem_of_order_by_desc, list_elem_of_filter.
    split; [by rewrite bool_decide_eq_true_2|]. apply elem_of_app. right. by left.
  - intros limit lb Huncut Hlb Hid. rewrite get_leads_uncut by done.
    apply elem_of_get_leads_all. split; [|done].
    apply elem_of_leads_left_join. split; [done|]. exists row. split; [|done].
    unfold solutions_of. simpl. apply list_elem_of_filter. split; [done|].
    apply elem_of_app. right. by left.
  - intros Hnone status limit. unfold get_leads. simpl. f_equal.
    assert (leads_left_join_solutions
              {| clients := clients d; industry_data := industry_data d;
                 lead_bucket := lead_bucket d;
                 tailored_solutions := tailored_solutions d ++ [row];
                 outreach_log := outreach_log d |}
            = leads_left_join_solutions d) as ->; [|done].
    unfold leads_left_join_solutions. simpl.
    apply Forall_bind_ext. eapply Forall_impl; [exact Hnone|]. simpl. intros lb Hlb.
    rewrite filter_app, (filter_cons_False _ row) by (simpl; congruence).
    by rewrite filter_nil, app_nil_r.
Qed.

(** X16, run on a solution for the one lead of a store. *)
Lemma add_solution_starts_pending_witness :
  let d := (add_lead "Tech Corp" "https://techcorp.com" "contact@techcorp.com"
                     "Growing tech company" 1 empty_database).1 in
  let added := add_solution 1 "Custom solution for lead 1" 2 d in
  let row := {| solution.id := added.2; solution.lead_id := 1;
                solution.solution_text := "Custom solution for lead 1";
                solution.generated_at := 2; solution.status := "pending" |} in
  Forall (λ ts, solution.id ts < added.2) (tailored_solutions d)
  ∧ tailored_solutions added.1 = tailored_solutions d ++ [row]
  ∧ row ∈ get_solutions (Some 1) (Some "pending") added.1
  ∧ (∀ limit lb,
       limit < 0 ∨ Z.of_nat (length (get_leads (Some "pending") (-1) added.1)) ≤ limit →
       lb ∈ lead_bucket d → lead.id lb = 1 →
       (lb, Some "pending") ∈ get_leads (Some "pending") limit added.1)
  ∧ (Forall (λ lb, lead.id lb ≠ 1) (lead_bucket d) →
     ∀ status limit, get_leads status limit added.1 = get_leads status limit d).
Proof.
  apply (add_solution_starts_pending
           (add_lead "Tech Corp" "https://techcorp.com" "contact@techcorp.com"
                     "Growing tech company" 1 empty_database).1 1
           "Custom solution for lead 1" 2).
  unfold int64. lia.
Defined.

(** X17: [log_outreach], for a [lead_id] in range, stores the record
    without response, whether or not a lead carries [lead_id].  When one
    does, the record is listed by [get_pending_responses] and, under a
    limit that does not cut the listing, by [get_outreach_history], with
    that lead's company name; when none does, every listing of the two
    methods stays as it was while [get_campaign_stats] counts one
    outreach more. *)
Theorem log_outreach_is_pending
    (d : database) (lead_id : Z) (message : string) (now : Z) :
  int64 lead_id →
  let added := log_outreach lead_id message now d in
  let row := {| outreach.id := added.2; outreach.lead_id := lead_id;
                outreach.message_sent := message; outreach.sent_at := now;
                outreach.response := None; outreach.updated_at := None |} in
  Forall (λ ol, outreach.id ol < added.2) (outreach_log d)
  ∧ outreach_log added.1 = outreach_log d ++ [row]
  ∧ (∀ lb, lb ∈ lead_bucket d → lead.id lb = lead_id →
       (row, lead.company_name lb) ∈ get_pending_responses added.1
       ∧ ∀ limit,
           limit < 0
           ∨ Z.of_nat (length (get_outreach_history (Some lead_id) (-1) added.1)) ≤ limit →
           (row, lead.company_name lb) ∈ get_outreach_history (Some lead_id) limit added.1)
  ∧ (Forall (λ lb, lead.id lb ≠ lead_id) (lead_bucket d) →
     get_pending_responses added.1 = get_pending_responses d
     ∧ (∀ filter limit,
          get_outreach_history filter limit added.1 = get_outreach_history filter limit d)
     ∧ total_outreach (outreach_stats_of (get_campaign_stats added.1))
       = total_outreach (outreach_stats_of (get_campaign_stats d)) + 1).
Proof.
  intros _. cbv zeta. unfold log_outreach. simpl.
  set (row := {| outreach.id := next_rowid (outreach.id <$> outreach_log d);
                 outreach.lead_id := lead_id; outreach.message_sent := message;
                 outreach.sent_at := now; outreach.response := None;
                 outreach.updated_at := None |}).
  set (d' := {| clients := clients d; industry_data := industry_data d;
                lead_bucket := lead_bucket d; tailored_solutions := tailored_solutions d;
                outreach_log := outreach_log d ++ [row] |}).
  split; [|split; [done|split]].
  - pose proof (next_rowid_fresh (outreach.id <$> outreach_log d)) as Hfresh.
    by rewrite Forall_fmap in Hfresh.
  - intros lb Hlb Hid.
    assert ((row, lead.company_name lb) ∈ outreach_join_leads d') as Hjoin.
    { apply elem_of_outreach_join. split; [apply elem_of_app; right; by left|].
      by exists lb. }
    split.
    + unfold get_pending_responses.
      apply elem_of_order_by_desc, list_elem_of_filter. by split.
    + intros limit Huncut. rewrite get_outreach_history_uncut by done.
      unfold get_outreach_history. rewrite sql_limit_negative by done.
      apply elem_of_order_by_desc, list_elem_of_filter. by split.
  - intros Hnone.
    assert (outreach_join_leads d' = outreach_join_leads d) as Hjoin.
    { unfold outreach_join_leads. simpl. rewrite bind_app. simpl.
      rewrite (filter_none (λ lb, lead.id lb = outreach.lead_id row)) by exact Hnone.
      simpl. by rewrite app_nil_r. }
    split; [|split].
    + unfold get_pending_responses. by rewrite Hjoin.
    + intros filter limit. unfold get_outreach_history. by rewrite Hjoin.
    + unfold get_campaign_stats, sql_count. simpl. rewrite length_app. simpl. lia.
Qed.

(** X17, run on an outreach to the one lead of a store. *)
Lemma log_outreach_is_pending_witness :
  let d := (add_lead "Tech Corp" "https://techcorp.com" "contact@techcorp.com"
                     "Growing tech company" 1 empty_database).1 in
  let added := log_outreach 1 "Initial contact message for lead 1" 2 d in
  let row := {| outreach.id := added.2; outreach.lead_id := 1;
                outreach.message_sent := "Initial contact message for lead 1";
                outreach.sent_at := 2; outreach.response := None;
                outreach.updated_at := None |} in
  Forall (λ ol, outreach.id ol < added.2) (outreach_log d)
  ∧ outreach_log added.1 = outreach_log d ++ [row]
  ∧ (∀ lb, lb ∈ lead_bucket d → lead.id lb = 1 →
       (row, lead.company_name lb) ∈ get_pending_responses added.1
       ∧ ∀ limit,
           limit < 0
           ∨ Z.of_nat (length (get_outreach_history (Some 1) (-1) added.1)) ≤ limit →
           (row, lead.company_name lb) ∈ get_outreach_history (Some 1) limit added.1)
  ∧ (Forall (λ lb, lead.id lb ≠ 1) (lead_bucket d) →
     get_pending_responses added.1 = get_pending_responses d
     ∧ (∀ filter limit,
          get_outreach_history filter limit added.1 = get_outreach_history filter limit d)
     ∧ total_outreach (outreach_stats_of (get_campaign_stats added.1))
       = total_outreach (outreach_stats_of (get_campaign_stats d)) + 1).
Proof.
  apply (log_outreach_is_pending
           (add_lead "Tech Corp" "https://techcorp.com" "contact@techcorp.com"
                     "Growing tech company" 1 empty_database).1 1
           "Initial contact message for lead 1" 2).
  unfold int64. lia.
Defined.

Section client_reads.
Context `{!JsonCodec}.

(** X18: [get_client] answers [None] for a handle the store does not
    hold; after a [create_client] under that handle it answers the
    profile as it was given, with [created_at] the time of the insert and
    [campaign_parameters] whatever [json.loads] reads from the text
    [json.dumps] wrote. *)
Theorem get_client_round_trip
    (d : database) (h email industry location : string)
    (params decoded : json_value) (now : Z) :
  h ∉ handles d →
  json_loads (json_dumps params) = Return decoded →
  get_client h d = Return None
  ∧ get_client h (create_client h email industry location params now d).1
    = Return (Some {| ci_telegram_handle := h; ci_email := email;
                      ci_industry := industry; ci_location := location;
                      ci_campaign_parameters := decoded; ci_created_at := now |}).
Proof.
  intros Hfresh Hdecode.
  assert (filter (λ r, client.telegram_handle r = h) (clients d) = []) as Hnone.
  { apply filter_none, Forall_forall. intros r Hr Heq. apply Hfresh.
    unfold handles. rewrite <- Heq. by apply list_elem_of_fmap_2. }
  split.
  - unfold get_client. by rewrite Hnone.
  - unfold create_client. rewrite bool_decide_eq_false_2 by exact Hfresh.
    unfold get_client. simpl. rewrite filter_app, Hnone. simpl.
    rewrite filter_cons_True by done. simpl. by rewrite Hdecode.
Qed.

End client_reads.

(** X18, run on a profile whose parameters are a list of strings. *)
Lemma get_client_round_trip_witness :
  let params := json_of_strings ["iteration_count"; "search_depth"; "lead_quantity"] in
  get_client "@test_user" empty_database = Return None
  ∧ get_client "@test_user"
      (create_client "@test_user" "test@example.com" "Technology" "Silicon Valley"
                     params 1 empty_database).1
    = Return (Some {| ci_telegram_handle := "@test_user"; ci_email := "test@example.com";
                      ci_industry := "Technology"; ci_location := "Silicon Valley";
                      ci_campaign_parameters := params; ci_created_at := 1 |}).
Proof.
  apply (get_client_round_trip empty_database "@test_user").
  - unfold handles. simpl. apply not_elem_of_nil.
  - apply json_loads_dumps_strings.
Defined.

(** ** The batch and the reads of the crawler *)

Lemma elem_of_numbered {B} (f : Z → success → B) (rowid : Z) (ok : list success) (x : B) :
  x ∈ numbered f rowid ok ↔ ∃ k s, ok !! k = Some s ∧ x = f (rowid + Z.of_nat k) s.
Proof.
  revert rowid. induction ok as [|s0 ok IH]; intros rowid; simpl.
  - split; [by intros ?%elem_of_nil|]. by intros (k & s & ? & _).
  - rewrite elem_of_cons, IH. split.
    + intros [->|(k & s & Hk & ->)].
      * exists 0%nat, s0. by rewrite Z.add_0_r.
      * exists (S k), s. split; [done|]. f_equal. lia.
    + intros ([|k] & s & Hk & ->); simpl in Hk.
      * left. injection Hk as ->. by rewrite Z.add_0_r.
      * right. exists k, s. split; [done|]. f_equal. lia.
Qed.

Lemma numbered_ids {B} (f : Z → success → B) (key : B → Z) (rowid : Z) (ok : list success) :
  (∀ i s, key (f i s) = i) →
  key <$> numbered f rowid ok = consecutive rowid (length ok).
Proof.
  intros Hkey. revert rowid. induction ok as [|s ok IH]; intros rowid; [done|].
  simpl. by rewrite Hkey, IH.
Qed.

Lemma length_numbered {B} (f : Z → success → B) (rowid : Z) (ok : list success) :
  length (numbered f rowid ok) = length ok.
Proof. revert rowid. induction ok as [|s ok IH]; intros rowid; simpl; [done|]. by rewrite IH. Qed.

Section crawl_reads.
Context `{!JsonCodec}.
Variable page_content : nat → string → option string.
Variable normalize : string → option (option string * string).
Variable clock : nat → Z.
Variable isoformat_now : nat → string.

Local Abbreviation processed := (processed page_content normalize).
Local Abbreviation successes_from := (successes_from page_content normalize).
Local Abbreviation row_of := (row_of clock isoformat_now).
Local Abbreviation crawl_industry_data :=
  (crawl_industry_data page_content normalize clock isoformat_now).

Lemma crawl_industry_data_spec (urls : list string) (tags : option (list string)) (d : database) :
  crawl_industry_data urls tags d
  = ({| clients := clients d;
        industry_data :=
          industry_data d
          ++ numbered (row_of tags) (next_rowid (industry.id <$> industry_data d))
                      (successes_from 0 urls);
        lead_bucket := lead_bucket d;
        tailored_solutions := tailored_solutions d;
        outreach_log := outreach_log d |},
     numbered (outcome_of tags) (next_rowid (industry.id <$> industry_data d))
              (successes_from 0 urls)).
Proof. unfold crawl_industry_data. by rewrite crawl_from_spec. Qed.

(** X20: what a batch stores under a tag list is found under each of its
    tags: on a store whose tags cells [json.loads] reads or rejects, for
    every outcome of [crawl_industry_data], [get_recent_data] filtered by
    one of the batch's tags, under a limit that does not cut the listing,
    returns the entry with the outcome's identifier, source and title,
    carrying the whole tag list. *)
Theorem crawled_entries_found_by_tag
    (urls : list string) (tags : list string) (t : string) (limit : Z) (d : database) :
  decodable d → t ∈ tags →
  let batch := crawl_industry_data urls (Some tags) d in
  limit < 0 ∨ Z.of_nat (length (get_recent_data (-1) (Some [t]) batch.1)) ≤ limit →
  Forall (λ res, ∃ e, e ∈ get_recent_data limit (Some [t]) batch.1
                      ∧ e_id e = r_id res ∧ e_source e = r_source res
                      ∧ e_title e = r_title res
                      ∧ e_tags e = Some (json_of_strings tags))
         batch.2.
Proof.
  intros _ Ht. cbv zeta. rewrite crawl_industry_data_spec. simpl. intros Huncut.
  assert (∀ d', limit < 0 ∨ Z.of_nat (length (get_recent_data (-1) (Some [t]) d')) ≤ limit →
                get_recent_data limit (Some [t]) d' = get_recent_data (-1) (Some [t]) d')
    as Hall.
  { intros d'. unfold get_recent_data, get_industry_data. simpl.
    rewrite (sql_limit_negative (-1)), !length_fmap by done.
    intros Hlimit. by rewrite sql_limit_all. }
  rewrite Hall by done.
  apply Forall_forall. intros res (k & s & Hk & ->)%elem_of_numbered.
  set (rowid := next_rowid (industry.id <$> industry_data d) + Z.of_nat k).
  exists (decode_row (row_of (Some tags) rowid s)). split; [|split; [done|split; [done|split]]].
  - unfold get_recent_data, get_industry_data. simpl.
    rewrite sql_limit_negative by done.
    apply list_elem_of_fmap_2, elem_of_order_by_desc, list_elem_of_filter. split.
    + apply (proj2 (tag_conditions_spec [t] (row_of (Some tags) rowid s))).
      exists t. split; [by left|]. simpl. by rewrite tag_set_stored_cell.
    + apply elem_of_app. right. apply elem_of_numbered. by exists k, s.
  - done.
  - simpl. rewrite decode_stored_cell. destruct tags; [by apply elem_of_nil in Ht|done].
Qed.

(** X21: the outcomes of a batch carry consecutive identifiers that start
    above every identifier the store held, in the order of the outcomes;
    the store's entries are the old ones followed by one per outcome; a
    batch has at most as many outcomes as urls; and a batch in which no
    url goes through returns no outcome and leaves the store as it was. *)
Theorem crawl_outcome_identifiers
    (urls : list string) (tags : option (list string)) (d : database) :
  let batch := crawl_industry_data urls tags d in
  r_id <$> batch.2
  = consecutive (next_rowid (industry.id <$> industry_data d)) (length batch.2)
  ∧ industry.id <$> industry_data batch.1
    = (industry.id <$> industry_data d) ++ (r_id <$> batch.2)
  ∧ (length batch.2 ≤ length urls)%nat
  ∧ ((∀ i url, urls !! i = Some url → processed i url = None) → batch = (d, [])).
Proof.
  cbv zeta. rewrite crawl_industry_data_spec. simpl.
  split; [|split; [|split]].
  - rewrite length_numbered. by apply numbered_ids.
  - rewrite fmap_app. f_equal.
    by rewrite (numbered_ids _ industry.id), (numbered_ids _ r_id).
  - rewrite length_numbered.
    pose proof (successes_sublist page_content normalize 0 urls) as Hsub.
    apply sublist_length in Hsub. by rewrite length_fmap in Hsub.
  - intros Hfail.
    assert (successes_from 0 urls = []) as ->.
    { destruct (successes_from_spec page_content normalize urls 0) as (_ & Hsound & _).
      destruct (successes_from 0 urls) as [|s ok]; [done|].
      apply Forall_cons in Hsound as [(_ & Hurl & Hp) _].
      rewrite Nat.sub_0_r in Hurl. by rewrite (Hfail _ _ Hurl) in Hp. }
    simpl. rewrite app_nil_r. by destruct d.
Qed.
End crawl_reads.

(** X20, run on the first batch of the repository's crawler test with
    the default limit of [get_recent_data]. *)
Lemma crawled_entries_found_by_tag_witness :
  let page_content := λ (_ : nat) (url : string),
    Some ("<html><body>" +:+ url +:+ "</body></html>") in
  let normalize := λ content : string, Some (Some "Sales statistics", content) in
  let batch := crawl_industry_data page_content normalize (λ i, Z.of_nat i) (λ _, "2025-01-01")
                 ["https://www.pipedrive.com/en/blog/sales-statistics"]
                 (Some ["sales_statistics"; "industry_insights"]) empty_database in
  Forall (λ res, ∃ e, e ∈ get_recent_data 10 (Some ["industry_insights"]) batch.1
                      ∧ e_id e = r_id res ∧ e_source e = r_source res
                      ∧ e_title e = r_title res
                      ∧ e_tags e
                        = Some (json_of_strings ["sales_statistics"; "industry_insights"]))
         batch.2.
Proof.
  apply (crawled_entries_found_by_tag
           (λ _ url, Some ("<html><body>" +:+ url +:+ "</body></html>"))
           (λ content, Some (Some "Sales statistics", content))
           (λ i, Z.of_nat i) (λ _, "2025-01-01")
           ["https://www.pipedrive.com/en/blog/sales-statistics"]
           ["sales_statistics"; "industry_insights"] "industry_insights" 10 empty_database).
  - apply Forall_nil. done.
  - right. by left.
  - right. vm_compute. discriminate.
Defined.

(** ** Entries without tags *)

Section untagged_and_files.
Context `{!JsonCodec}.


End untagged_and_files.

(** ** The onboarding conversation *)

Section onboarding_facts.
Context `{!JsonCodec} `{!FileSystem}.
Variable module_dir : string.

Local Abbreviation db_path_of user := (_get_db_path module_dir (client_id_of user)).

Lemma dispatch_all_from (user : telegram_user) (msgs : list (incoming * Z)) (b : bot)
    (sent : list bot_reply) :
  foldl (λ br m, let '(b', r) := dispatch module_dir user m.1 m.2 br.1 in
                 (b', br.2 ++ option_list r))
        (b, sent) msgs
  = ((dispatch_all module_dir user msgs b).1,
     sent ++ (dispatch_all module_dir user msgs b).2).
Proof.
  unfold dispatch_all. revert b sent.
  induction msgs as [|m msgs IH]; intros b sent.
  - simpl. by rewrite app_nil_r.
  - cbn [foldl fst snd]. destruct (dispatch module_dir user m.1 m.2 b) as [b' r].
    rewrite (IH b' (sent ++ option_list r)), (IH b' ([] ++ option_list r)).
    cbn [fst snd]. by rewrite app_nil_l, app_assoc.
Qed.

Lemma dispatch_all_cons (user : telegram_user) (m : incoming) (now : Z)
    (msgs : list (incoming * Z)) (b : bot) :
  dispatch_all module_dir user ((m, now) :: msgs) b
  = ((dispatch_all module_dir user msgs (dispatch module_dir user m now b).1).1,
     option_list (dispatch module_dir user m now b).2
     ++ (dispatch_all module_dir user msgs (dispatch module_dir user m now b).1).2).
Proof.
  unfold dispatch_all at 1. simpl.
  destruct (dispatch module_dir user m now b) as [b' r]. simpl. apply dispatch_all_from.
Qed.

Lemma start_names (user : telegram_user) (ud : gmap string string)
    (fs : gmap string database) :
  start module_dir user ud fs
  = let user_data' := <["display_name" := display_name_of user]>
                        (<["client_id" := client_id_of user]> ud) in
    match DatabaseManager_init module_dir (client_id_of user) fs with
    | Return files' =>
        {| h_user_data := user_data'; h_files := files';
           h_result := Some (Welcome (display_name_of user), EMAIL) |}
    | Raise _ => {| h_user_data := user_data'; h_files := fs; h_result := None |}
    end.
Proof.
  unfold start, client_id_of, display_name_of.
  by destruct (user_username user) as [[|c u]|].
Qed.

Lemma init_opens (client_id : string) (fs : gmap string database) :
  can_open (_get_db_path module_dir client_id) = true →
  DatabaseManager_init module_dir client_id fs
  = Return (_init_database (_get_db_path module_dir client_id) fs).
Proof. intros Hopen. unfold DatabaseManager_init. by rewrite Hopen. Qed.

Lemma init_raises (client_id : string) (fs : gmap string database) :
  can_open (_get_db_path module_dir client_id) = false →
  DatabaseManager_init module_dir client_id fs = Raise OperationalError.
Proof. intros Hopen. unfold DatabaseManager_init. by rewrite Hopen. Qed.

Lemma connect_init (db_path : string) (fs : gmap string database) :
  connect db_path (_init_database db_path fs) = connect db_path fs.
Proof. unfold _init_database, connect at 1. by rewrite lookup_insert_eq. Qed.

Lemma dispatch_start (user : telegram_user) (now : Z)
    (ud : gmap string string) (fs : gmap string database) :
  can_open (db_path_of user) = true →
  dispatch module_dir user (Command "start") now
    {| conversation := None; user_data := ud; files := fs |}
  = ({| conversation := Some EMAIL;
        user_data := <["display_name" := display_name_of user]>
                       (<["client_id" := client_id_of user]> ud);
        files := _init_database (db_path_of user) fs |},
     Some (Welcome (display_name_of user))).
Proof.
  intros Hopen.
  change (dispatch module_dir user (Command "start") now
            {| conversation := None; user_data := ud; files := fs |})
    with (settle None (start module_dir user ud fs)).
  rewrite start_names. cbv zeta. by rewrite init_opens.
Qed.

(** [start] for a client whose store cannot be opened: the two names are
    written, the handler raises, and no conversation opens. *)
Lemma dispatch_start_raises (user : telegram_user) (now : Z)
    (ud : gmap string string) (fs : gmap string database) :
  can_open (db_path_of user) = false →
  dispatch module_dir user (Command "start") now
    {| conversation := None; user_data := ud; files := fs |}
  = ({| conversation := None;
        user_data := <["display_name" := display_name_of user]>
                       (<["client_id" := client_id_of user]> ud);
        files := fs |}, None).
Proof.
  intros Hopen.
  change (dispatch module_dir user (Command "start") now
            {| conversation := None; user_data := ud; files := fs |})
    with (settle None (start module_dir user ud fs)).
  rewrite start_names. cbv zeta. by rewrite init_raises.
Qed.

Lemma store_answer_replies (key : string) (reply : bot_reply) (next : conversation_state)
    (text : string) (ud : gmap string string) (fs : gmap string database) :
  is_Some (ud !! "display_name") → key ≠ "display_name" →
  store_answer key reply next text ud fs
  = {| h_user_data := <[key := text]> ud; h_files := fs; h_result := Some (reply, next) |}.
Proof.
  intros [dn Hdn] Hkey. unfold store_answer. by rewrite lookup_insert_ne, Hdn by done.
Qed.

Lemma dispatch_email (user : telegram_user) (text : string) (now : Z)
    (ud : gmap string string) (fs : gmap string database) :
  text ≠ "" → is_Some (ud !! "display_name") →
  dispatch module_dir user (Message text) now
    {| conversation := Some EMAIL; user_data := ud; files := fs |}
  = ({| conversation := Some INDUSTRY; user_data := <["email" := text]> ud; files := fs |},
     Some AskIndustry).
Proof.
  intros Htext Hdn. destruct text as [|c text]; [done|].
  change (dispatch module_dir user (Message (String c text)) now
            {| conversation := Some EMAIL; user_data := ud; files := fs |})
    with (settle (Some EMAIL) (store_answer "email" AskIndustry INDUSTRY (String c text) ud fs)).
  by rewrite store_answer_replies.
Qed.

Lemma dispatch_industry (user : telegram_user) (text : string) (now : Z)
    (ud : gmap string string) (fs : gmap string database) :
  text ≠ "" → is_Some (ud !! "display_name") →
  dispatch module_dir user (Message text) now
    {| conversation := Some INDUSTRY; user_data := ud; files := fs |}
  = ({| conversation := Some LOCATION; user_data := <["industry" := text]> ud; files := fs |},
     Some AskLocation).
Proof.
  intros Htext Hdn. destruct text as [|c text]; [done|].
  change (dispatch module_dir user (Message (String c text)) now
            {| conversation := Some INDUSTRY; user_data := ud; files := fs |})
    with (settle (Some INDUSTRY) (store_answer "industry" AskLocation LOCATION (String c text) ud fs)).
  by rewrite store_answer_replies.
Qed.

Lemma dispatch_location (user : telegram_user) (text : string) (now : Z)
    (ud : gmap string string) (fs : gmap string database) :
  text ≠ "" → is_Some (ud !! "display_name") →
  dispatch module_dir user (Message text) now
    {| conversation := Some LOCATION; user_data := ud; files := fs |}
  = ({| conversation := Some CAMPAIGN_PARAMS; user_data := <["location" := text]> ud;
        files := fs |},
     Some AskCampaignParams).
Proof.
  intros Htext Hdn. destruct text as [|c text]; [done|].
  change (dispatch module_dir user (Message (String c text)) now
            {| conversation := Some LOCATION; user_data := ud; files := fs |})
    with (settle (Some LOCATION)
            (store_answer "location" AskCampaignParams CAMPAIGN_PARAMS (String c text) ud fs)).
  by rewrite store_answer_replies.
Qed.

Lemma dispatch_campaign_params (user : telegram_user) (text : string) (now : Z)
    (ud : gmap string string) (fs : gmap string database)
    (params : json_value) (display_name client_id email industry location : string) :
  json_loads text = Return params →
  ud !! "display_name" = Some display_name → ud !! "client_id" = Some client_id →
  ud !! "email" = Some email → ud !! "industry" = Some industry →
  ud !! "location" = Some location →
  let db_path := _get_db_path module_dir client_id in
  let created := create_client display_name email industry location params now
                               (connect db_path fs) in
  can_open db_path = true →
  dispatch module_dir user (Message text) now
    {| conversation := Some CAMPAIGN_PARAMS; user_data := ud; files := fs |}
  = ({| conversation := None; user_data := ud;
        files := <[db_path := created.1]> (_init_database db_path fs) |},
     Some (if created.2 then OnboardingComplete else ProfileIssue)).
Proof.
  intros Hparams K1 K2 K3 K4 K5. cbv zeta. intros Hopen.
  destruct text as [|c text]; [by rewrite json_loads_empty in Hparams|].
  change (dispatch module_dir user (Message (String c text)) now
            {| conversation := Some CAMPAIGN_PARAMS; user_data := ud; files := fs |})
    with (settle (Some CAMPAIGN_PARAMS)
            (handle_campaign_params module_dir (String c text) now ud fs)).
  unfold handle_campaign_params. rewrite Hparams, K1, K2, init_opens, K3, K4, K5 by done.
  by rewrite connect_init.
Qed.

(** In [CAMPAIGN_PARAMS] a text that parses gets no answer when the store
    cannot be opened: the handler raises, and nothing changes. *)
Lemma dispatch_cannot_open (user : telegram_user) (text : string) (now : Z)
    (ud : gmap string string) (fs : gmap string database)
    (params : json_value) (display_name client_id : string) :
  json_loads text = Return params →
  ud !! "display_name" = Some display_name → ud !! "client_id" = Some client_id →
  can_open (_get_db_path module_dir client_id) = false →
  dispatch module_dir user (Message text) now
    {| conversation := Some CAMPAIGN_PARAMS; user_data := ud; files := fs |}
  = ({| conversation := Some CAMPAIGN_PARAMS; user_data := ud; files := fs |}, None).
Proof.
  intros Hparams K1 K2 Hopen.
  destruct text as [|c text]; [by rewrite json_loads_empty in Hparams|].
  change (dispatch module_dir user (Message (String c text)) now
            {| conversation := Some CAMPAIGN_PARAMS; user_data := ud; files := fs |})
    with (settle (Some CAMPAIGN_PARAMS)
            (handle_campaign_params module_dir (String c text) now ud fs)).
  unfold handle_campaign_params. by rewrite Hparams, K1, K2, init_raises.
Qed.

(** In [CAMPAIGN_PARAMS] a text that [json.loads] rejects changes
    nothing, ... *)
Lemma dispatch_invalid_json (user : telegram_user) (text : string) (now : Z) (b : bot) :
  conversation b = Some CAMPAIGN_PARAMS →
  text ≠ "" → json_loads text = Raise JSONDecodeError →
  dispatch module_dir user (Message text) now b = (b, Some InvalidJson).
Proof.
  intros Hstate Htext Hbad. destruct b as [conv ud fs]. simpl in Hstate. subst conv.
  destruct text as [|c text]; [done|].
  change (dispatch module_dir user (Message (String c text)) now
            {| conversation := Some CAMPAIGN_PARAMS; user_data := ud; files := fs |})
    with (settle (Some CAMPAIGN_PARAMS)
            (handle_campaign_params module_dir (String c text) now ud fs)).
  unfold handle_campaign_params. by rewrite Hbad.
Qed.

(** ... and so does a message without text, in every state: no handler
    takes it. *)
Lemma dispatch_no_text (user : telegram_user) (now : Z) (b : bot) :
  dispatch module_dir user (Message "") now b = (b, None).
Proof. unfold dispatch. by destruct (conversation b). Qed.

(** A text on which [json.loads] raises another exception gets no
    answer: the handler raises, and the conversation stays where it
    was. *)
Lemma dispatch_json_raises (user : telegram_user) (text : string) (now : Z) (b : bot)
    (e : exn) :
  conversation b = Some CAMPAIGN_PARAMS →
  json_loads text = Raise e → e ≠ JSONDecodeError →
  dispatch module_dir user (Message text) now b = (b, None).
Proof.
  intros Hstate Hraise He. destruct b as [conv ud fs]. simpl in Hstate. subst conv.
  destruct text as [|c text].
  { rewrite json_loads_empty in Hraise. by injection Hraise as <-. }
  change (dispatch module_dir user (Message (String c text)) now
            {| conversation := Some CAMPAIGN_PARAMS; user_data := ud; files := fs |})
    with (settle (Some CAMPAIGN_PARAMS)
            (handle_campaign_params module_dir (String c text) now ud fs)).
  unfold handle_campaign_params. rewrite Hraise. by destruct e.
Qed.

(** The conversation that runs to its end: the replies, and the client's
    file after the [create_client] of the last step. *)
Lemma onboarding_run (user : telegram_user) (email industry location text : string)
    (params : json_value) (t0 t1 t2 t3 t4 : Z)
    (ud : gmap string string) (fs : gmap string database) :
  can_open (db_path_of user) = true →
  email ≠ "" → industry ≠ "" → location ≠ "" →
  json_loads text = Return params →
  let created := create_client (display_name_of user) email industry location params t4
                               (connect (db_path_of user) fs) in
  let run := dispatch_all module_dir user
               (onboarding_messages email industry location text t0 t1 t2 t3 t4)
               {| conversation := None; user_data := ud; files := fs |} in
  run.2 = [Welcome (display_name_of user); AskIndustry; AskLocation; AskCampaignParams;
           if created.2 then OnboardingComplete else ProfileIssue]
  ∧ conversation run.1 = None
  ∧ connect (db_path_of user) (files run.1) = created.1
  ∧ ∀ path, path ≠ db_path_of user → files run.1 !! path = fs !! path.
Proof.
  intros Hopen Hemail Hindustry Hlocation Hparams. cbv zeta. unfold onboarding_messages.
  set (ud1 := <["display_name" := display_name_of user]>
                (<["client_id" := client_id_of user]> ud)).
  set (fs1 := _init_database (db_path_of user) fs).
  set (ud4 := <["location" := location]> (<["industry" := industry]>
                (<["email" := email]> ud1))).
  assert (ud4 !! "display_name" = Some (display_name_of user)
          ∧ ud4 !! "client_id" = Some (client_id_of user)
          ∧ ud4 !! "email" = Some email ∧ ud4 !! "industry" = Some industry
          ∧ ud4 !! "location" = Some location) as (K1 & K2 & K3 & K4 & K5).
  { unfold ud4, ud1.
    repeat split; repeat (rewrite lookup_insert_ne by done); by rewrite lookup_insert_eq. }
  assert (dispatch_all module_dir user
            [(Command "start", t0); (Message email, t1); (Message industry, t2);
             (Message location, t3); (Message text, t4)]
            {| conversation := None; user_data := ud; files := fs |}
          = ({| conversation := None; user_data := ud4;
                files := <[db_path_of user :=
                             (create_client (display_name_of user) email industry location
                                            params t4 (connect (db_path_of user) fs)).1]>
                           (_init_database (db_path_of user) fs1) |},
             [Welcome (display_name_of user); AskIndustry; AskLocation; AskCampaignParams;
              if (create_client (display_name_of user) email industry location params t4
                                (connect (db_path_of user) fs)).2
              then OnboardingComplete else ProfileIssue])) as ->.
  { rewrite dispatch_all_cons, dispatch_start by done. cbn [fst snd]. fold ud1 fs1.
    rewrite dispatch_all_cons, dispatch_email
      by (try done; unfold ud1; by rewrite lookup_insert_eq).
    cbn [fst snd].
    rewrite dispatch_all_cons, dispatch_industry
      by (try done; unfold ud1; rewrite lookup_insert_ne by done;
          by rewrite lookup_insert_eq).
    cbn [fst snd].
    rewrite dispatch_all_cons, dispatch_location
      by (try done; unfold ud1; rewrite !lookup_insert_ne by done;
          by rewrite lookup_insert_eq).
    cbn [fst snd]. fold ud4.
    rewrite dispatch_all_cons.
    rewrite (dispatch_campaign_params user text t4 ud4 fs1 params
               (display_name_of user) (client_id_of user) email industry location)
      by done.
    cbn [fst snd].
    assert (connect (db_path_of user) fs1 = connect (db_path_of user) fs) as Hconn
      by apply connect_init.
    rewrite !Hconn. reflexivity. }
  cbn [fst snd conversation files].
  split; [done|]. split; [done|]. split.
  - unfold connect at 1. by rewrite lookup_insert_eq.
  - intros path Hpath. unfold fs1, _init_database.
    by rewrite !lookup_insert_ne by done.
Qed.
Lemma prefixed_differs (p s : string) : p ≠ "" → p +:+ s ≠ s.
Proof.
  intros Hp Heq. apply (f_equal String.list_ascii_of_string) in Heq.
  rewrite list_ascii_of_append in Heq. apply (f_equal length) in Heq.
  rewrite length_app in Heq. destruct p; [done|]. simpl in Heq. lia.
Qed.

Lemma display_name_is_not_client_id (user : telegram_user) :
  display_name_of user ≠ client_id_of user.
Proof.
  unfold display_name_of, client_id_of.
  destruct (user_username user) as [[|c u]|]; by apply prefixed_differs.
Qed.

(** X24: a conversation that runs from [/start] through the four answers,
    each a text that is not empty and the last one a text that parses as
    JSON, for a user whose store can be opened and does not hold the
    user's display name yet: the
    bot asks the three questions in order and confirms, the conversation
    is closed, and the store of the user's client holds one row under the
    display name with exactly the three answers, the parsed parameters
    serialised again, and the time of the last message; the files of
    other clients are untouched. *)
Theorem onboarding_stores_profile
    (user : telegram_user) (email industry location text : string)
    (params : json_value) (t0 t1 t2 t3 t4 : Z)
    (ud : gmap string string) (fs : gmap string database) :
  can_open (db_path_of user) = true →
  email ≠ "" → industry ≠ "" → location ≠ "" →
  json_loads text = Return params →
  display_name_of user ∉ handles (connect (db_path_of user) fs) →
  let run := dispatch_all module_dir user
               (onboarding_messages email industry location text t0 t1 t2 t3 t4)
               {| conversation := None; user_data := ud; files := fs |} in
  run.2 = [Welcome (display_name_of user); AskIndustry; AskLocation; AskCampaignParams;
           OnboardingComplete]
  ∧ conversation run.1 = None
  ∧ rows_of_handle (display_name_of user) (connect (db_path_of user) (files run.1))
    = [{| client.telegram_handle := display_name_of user; client.email := email;
          client.industry := industry; client.location := location;
          client.campaign_parameters := json_dumps params; client.created_at := t4 |}]
  ∧ ∀ path, path ≠ db_path_of user → files run.1 !! path = fs !! path.
Proof.
  intros Hopen Hemail Hindustry Hlocation Hparams Hfresh. cbv zeta.
  destruct (onboarding_run user email industry location text params t0 t1 t2 t3 t4 ud fs
              Hopen Hemail Hindustry Hlocation Hparams)
    as (Hreplies & Hconv & Hstore & Hothers).
  rewrite Hreplies, Hstore. unfold create_client.
  rewrite bool_decide_eq_false_2 by exact Hfresh. cbn [fst snd].
  split; [done|]. split; [done|]. split; [|done].
  unfold rows_of_handle. cbn [clients]. rewrite filter_app.
  rewrite (filter_none (λ r, client.telegram_handle r = display_name_of user)
                       (clients (connect (db_path_of user) fs))).
  - by rewrite filter_cons_True by done.
  - apply Forall_forall. intros r Hr Heq. apply Hfresh. unfold handles.
    apply list_elem_of_fmap. by exists r.
Qed.

(** X25: a user who is already onboarded and runs the conversation again,
    with answers that are not empty and parameters that parse, is told
    that there was an issue, and the store of the client is left exactly
    as it was: the first profile stays. *)
Theorem second_onboarding_keeps_profile
    (user : telegram_user) (email industry location text : string)
    (params : json_value) (t0 t1 t2 t3 t4 : Z)
    (ud : gmap string string) (fs : gmap string database) :
  can_open (db_path_of user) = true →
  email ≠ "" → industry ≠ "" → location ≠ "" →
  json_loads text = Return params →
  display_name_of user ∈ handles (connect (db_path_of user) fs) →
  let run := dispatch_all module_dir user
               (onboarding_messages email industry location text t0 t1 t2 t3 t4)
               {| conversation := None; user_data := ud; files := fs |} in
  run.2 = [Welcome (display_name_of user); AskIndustry; AskLocation; AskCampaignParams;
           ProfileIssue]
  ∧ conversation run.1 = None
  ∧ connect (db_path_of user) (files run.1) = connect (db_path_of user) fs.
Proof.
  intros Hopen Hemail Hindustry Hlocation Hparams Hheld. cbv zeta.
  destruct (onboarding_run user email industry location text params t0 t1 t2 t3 t4 ud fs
              Hopen Hemail Hindustry Hlocation Hparams) as (Hreplies & Hconv & Hstore & _).
  rewrite Hreplies, Hstore. unfold create_client.
  rewrite bool_decide_eq_true_2 by exact Hheld. done.
Qed.

(** X26: the client row is stored under the display name ([@name] or
    [User id]), never under the identifier that names the store: after a
    completed onboarding, [get_client] with the client identifier still
    answers [None] on a store that held no row under it. *)
Theorem client_row_is_keyed_by_display_name
    (user : telegram_user) (email industry location text : string)
    (params : json_value) (t0 t1 t2 t3 t4 : Z)
    (ud : gmap string string) (fs : gmap string database) :
  can_open (db_path_of user) = true →
  email ≠ "" → industry ≠ "" → location ≠ "" →
  json_loads text = Return params →
  display_name_of user ∉ handles (connect (db_path_of user) fs) →
  client_id_of user ∉ handles (connect (db_path_of user) fs) →
  let run := dispatch_all module_dir user
               (onboarding_messages email industry location text t0 t1 t2 t3 t4)
               {| conversation := None; user_data := ud; files := fs |} in
  let store := connect (db_path_of user) (files run.1) in
  display_name_of user ≠ client_id_of user
  ∧ display_name_of user ∈ handles store
  ∧ get_client (client_id_of user) store = Return None.
Proof.
  intros Hopen Hemail Hindustry Hlocation Hparams Hfresh Hid. cbv zeta.
  destruct (onboarding_run user email industry location text params t0 t1 t2 t3 t4 ud fs
              Hopen Hemail Hindustry Hlocation Hparams) as (_ & _ & Hstore & _).
  rewrite Hstore. unfold create_client. rewrite bool_decide_eq_false_2 by exact Hfresh.
  pose proof (display_name_is_not_client_id user) as Hne.
  split; [done|]. split.
  - unfold handles. simpl. rewrite fmap_app. apply elem_of_app. right. by left.
  - unfold get_client. simpl. rewrite filter_app.
    rewrite (filter_none (λ r, client.telegram_handle r = client_id_of user)
                         (clients (connect (db_path_of user) fs))).
    + simpl. by rewrite filter_cons_False by done.
    + apply Forall_forall. intros r Hr Heq. apply Hid. unfold handles.
      apply list_elem_of_fmap. by exists r.
Qed.

(** X27: while the bot waits for the campaign parameters, texts that
    [json.loads] rejects change nothing, however many are sent: each is
    answered with the format reminder, the conversation stays open in the
    same state, and [context.user_data] and the files are as before. *)
Theorem invalid_json_keeps_waiting
    (user : telegram_user) (texts : list (string * Z)) (b : bot) :
  conversation b = Some CAMPAIGN_PARAMS →
  Forall (λ m, m.1 ≠ "" ∧ json_loads m.1 = Raise JSONDecodeError) texts →
  dispatch_all module_dir user ((λ m, (Message m.1, m.2)) <$> texts) b
  = (b, replicate (length texts) InvalidJson).
Proof.
  intros Hstate. induction 1 as [|[text now] texts [Htext Hbad] _ IH]; [done|].
  rewrite fmap_cons. cbn [fst snd]. rewrite dispatch_all_cons.
  rewrite (dispatch_invalid_json user text now b Hstate Htext Hbad). cbn [fst snd].
  by rewrite IH.
Qed.

Lemma keys_present_step (user : telegram_user) (m : incoming) (now : Z) (b : bot) :
  keys_present b → keys_present (dispatch module_dir user m now b).1.
Proof.
  destruct m as [name|[|c text]]; [| by rewrite dispatch_no_text |].
  - destruct b as [[state|] ud fs]; unfold keys_present; cbn [conversation user_data].
    + intros Hkeys. unfold dispatch. cbn [conversation user_data files].
      case_bool_decide; [|done]. by destruct state.
    + intros _. destruct (decide (name = "start")) as [->|Hname].
      2: { unfold dispatch. cbn [conversation user_data files].
           by rewrite bool_decide_eq_false_2 by done. }
      destruct (can_open (db_path_of user)) eqn:Hopen;
        [|by rewrite dispatch_start_raises].
      rewrite dispatch_start by done. cbn [fst conversation user_data]. unfold keys_held.
      rewrite !Forall_cons. rewrite lookup_insert_eq, lookup_insert_ne, lookup_insert_eq by done.
      naive_solver.
  - destruct b as [[state|] ud fs]; unfold keys_present; cbn [conversation user_data];
      [|done].
    destruct state; try done; intros Hkeys.
    + rewrite dispatch_email by (try done; by inversion Hkeys).
      cbn [fst conversation user_data].
      unfold keys_held in Hkeys |- *. rewrite !Forall_cons in Hkeys. rewrite !Forall_cons.
      repeat (rewrite lookup_insert_ne by done). rewrite lookup_insert_eq.
      destruct_and!. split_and!; eauto.
    + rewrite dispatch_industry by (try done; by inversion Hkeys).
      cbn [fst conversation user_data].
      unfold keys_held in Hkeys |- *. rewrite !Forall_cons in Hkeys. rewrite !Forall_cons.
      repeat (rewrite lookup_insert_ne by done). rewrite lookup_insert_eq.
      destruct_and!. split_and!; eauto.
    + rewrite dispatch_location by (try done; by inversion Hkeys).
      cbn [fst conversation user_data].
      unfold keys_held in Hkeys |- *. rewrite !Forall_cons in Hkeys. rewrite !Forall_cons.
      repeat (rewrite lookup_insert_ne by done). rewrite lookup_insert_eq.
      destruct_and!. split_and!; eauto.
    + destruct (json_loads (String c text)) as [params|e] eqn:Hparams.
      * pose proof Hkeys as Hheld.
        unfold keys_held in Hheld. rewrite !Forall_cons in Hheld.
        destruct Hheld as ([dn K1] & [cid K2] & [e K3] & [i K4] & [l K5] & _).
        destruct (can_open (_get_db_path module_dir cid)) eqn:Hopen.
        -- by rewrite (dispatch_campaign_params user _ now ud fs params dn cid e i l).
        -- by rewrite (dispatch_cannot_open user _ now ud fs params dn cid).
      * destruct (decide (e = JSONDecodeError)) as [->|He].
        -- by rewrite dispatch_invalid_json.
        -- by rewrite (dispatch_json_raises user _ now _ e).
Qed.

(** No handler of an open conversation touches ['client_id'], and
    [start] opens a conversation only after it has opened the store. *)
Lemma store_opens_step (user : telegram_user) (m : incoming) (now : Z) (b : bot) :
  store_opens module_dir b → store_opens module_dir (dispatch module_dir user m now b).1.
Proof.
  destruct m as [name|[|c text]]; [| by rewrite dispatch_no_text |].
  - destruct b as [[state|] ud fs]; unfold store_opens; cbn [conversation user_data].
    + intros Hopen. unfold dispatch. cbn [conversation user_data files].
      by case_bool_decide.
    + intros _. destruct (decide (name = "start")) as [->|Hname].
      2: { unfold dispatch. cbn [conversation user_data files].
           by rewrite bool_decide_eq_false_2 by done. }
      destruct (can_open (db_path_of user)) eqn:Hopen;
        [|by rewrite dispatch_start_raises].
      rewrite dispatch_start by done. cbn [fst conversation user_data].
      exists (client_id_of user). split; [|done].
      by rewrite lookup_insert_ne, lookup_insert_eq by done.
  - destruct b as [[state|] ud fs]; unfold store_opens; cbn [conversation user_data];
      [|done].
    intros (cid & Hcid & Hopen).
    change (dispatch module_dir user (Message (String c text)) now
              {| conversation := Some state; user_data := ud; files := fs |})
      with (match state with
            | EMAIL => settle (Some state) (handle_email (String c text) ud fs)
            | INDUSTRY => settle (Some state) (handle_industry (String c text) ud fs)
            | LOCATION => settle (Some state) (handle_location (String c text) ud fs)
            | CAMPAIGN_PARAMS =>
                settle (Some state)
                       (handle_campaign_params module_dir (String c text) now ud fs)
            | END => ({| conversation := Some state; user_data := ud; files := fs |}, None)
            end).
    destruct state.
    1-3: unfold handle_email, handle_industry, handle_location, store_answer, settle;
      cbn [h_result h_user_data h_files fst conversation user_data];
      destruct (_ !! "display_name"); cbn [conversation user_data];
      exists cid; by rewrite lookup_insert_ne by done.
    + unfold handle_campaign_params, settle.
      repeat case_match; simplify_eq/=; try done; eauto.
    + by exists cid.
Qed.

(** X28: however the messages of a user arrive after a state without
    open conversation, an open conversation always finds in
    [context.user_data] the keys its handlers read: no handler raises
    [KeyError], and every message with a text sent into an open
    conversation is answered, unless the bot is waiting for the campaign
    parameters and [json.loads] raises on the text an exception other
    than [JSONDecodeError]. *)
Theorem conversation_finds_its_keys
    (user : telegram_user) (msgs : list (incoming * Z)) (b0 : bot) :
  conversation b0 = None →
  let b := (dispatch_all module_dir user msgs b0).1 in
  keys_present b
  ∧ ∀ text now,
      is_Some (conversation b) → text ≠ "" →
      (conversation b = Some CAMPAIGN_PARAMS →
       ∀ e, json_loads text = Raise e → e = JSONDecodeError) →
      is_Some (dispatch module_dir user (Message text) now b).2.
Proof.
  intros Hnone. cbv zeta.
  assert (keys_present (dispatch_all module_dir user msgs b0).1
          ∧ store_opens module_dir (dispatch_all module_dir user msgs b0).1)
    as [Hkeys Hopens].
  { assert (keys_present b0 ∧ store_opens module_dir b0) as Hb0
      by (unfold keys_present, store_opens; by rewrite Hnone).
    clear Hnone. revert b0 Hb0.
    induction msgs as [|[m now] msgs IH]; intros b0 [Hkeys Hopens]; [done|].
    rewrite dispatch_all_cons. cbn [fst].
    apply IH. split; [by apply keys_present_step|by apply store_opens_step]. }
  split; [exact Hkeys|]. intros text now [state Hstate] Htext Hjson.
  destruct (dispatch_all module_dir user msgs b0).1 as [conv ud fs].
  cbn [conversation] in Hstate, Hjson. subst conv.
  unfold keys_present in Hkeys. cbn [conversation user_data] in Hkeys.
  unfold store_opens in Hopens. cbn [conversation user_data] in Hopens.
  destruct state; try done.
  - rewrite dispatch_email by (try done; by inversion Hkeys). done.
  - rewrite dispatch_industry by (try done; by inversion Hkeys). done.
  - rewrite dispatch_location by (try done; by inversion Hkeys). done.
  - destruct (json_loads text) as [params|e] eqn:Hparams.
    + unfold keys_held in Hkeys. rewrite !Forall_cons in Hkeys.
      destruct Hkeys as ([dn K1] & [cid K2] & [e K3] & [i K4] & [l K5] & _).
      destruct Hopens as (cid' & Hcid & Hopen).
      assert (cid' = cid) as -> by congruence.
      by rewrite (dispatch_campaign_params user text now ud fs params dn cid e i l).
    + rewrite (Hjson eq_refl e eq_refl) in Hparams. by rewrite dispatch_invalid_json.
Qed.
End onboarding_facts.

(** X24, run for [test_user] on a directory without files. *)
Lemma onboarding_stores_profile_witness :
  let run := dispatch_all test_module_dir test_user
               (onboarding_messages "test@example.com" "Technology" "Silicon Valley"
                                    (json_dumps test_params) 1 2 3 4 5)
               {| conversation := None; user_data := ∅; files := ∅ |} in
  run.2 = [Welcome "@test_user"; AskIndustry; AskLocation; AskCampaignParams;
           OnboardingComplete]
  ∧ conversation run.1 = None
  ∧ rows_of_handle "@test_user"
      (connect (_get_db_path test_module_dir "test_user") (files run.1))
    = [{| client.telegram_handle := "@test_user"; client.email := "test@example.com";
          client.industry := "Technology"; client.location := "Silicon Valley";
          client.campaign_parameters := json_dumps test_params; client.created_at := 5 |}]
  ∧ ∀ path, path ≠ _get_db_path test_module_dir "test_user" →
            files run.1 !! path = (∅ : gmap string database) !! path.
Proof.
  apply (onboarding_stores_profile test_module_dir test_user "test@example.com" "Technology"
           "Silicon Valley" (json_dumps test_params) test_params 1 2 3 4 5 ∅ ∅);
    try discriminate.
  - by vm_compute.
  - apply json_loads_dumps_strings.
  - unfold connect. rewrite lookup_empty. apply not_elem_of_nil.
Defined.

(** X25, run for [test_user] after a first onboarding. *)
Lemma second_onboarding_keeps_profile_witness :
  let run := dispatch_all test_module_dir test_user
               (onboarding_messages "test@example.com" "Technology" "Silicon Valley"
                                    (json_dumps test_params) 1 2 3 4 5)
               {| conversation := None; user_data := ∅; files := onboarded_files |} in
  run.2 = [Welcome "@test_user"; AskIndustry; AskLocation; AskCampaignParams; ProfileIssue]
  ∧ conversation run.1 = None
  ∧ connect (_get_db_path test_module_dir "test_user") (files run.1)
    = connect (_get_db_path test_module_dir "test_user") onboarded_files.
Proof.
  apply (second_onboarding_keeps_profile test_module_dir test_user "test@example.com"
           "Technology" "Silicon Valley" (json_dumps test_params) test_params 1 2 3 4 5 ∅
           onboarded_files); try discriminate.
  - by vm_compute.
  - apply json_loads_dumps_strings.
  - unfold connect, onboarded_files. rewrite lookup_singleton_eq.
    unfold handles. simpl. apply list_elem_of_here.
Defined.

(** X26, run for [test_user] on a directory without files. *)
Lemma client_row_is_keyed_by_display_name_witness :
  let run := dispatch_all test_module_dir test_user
               (onboarding_messages "test@example.com" "Technology" "Silicon Valley"
                                    (json_dumps test_params) 1 2 3 4 5)
               {| conversation := None; user_data := ∅; files := ∅ |} in
  let store := connect (_get_db_path test_module_dir "test_user") (files run.1) in
  "@test_user" ≠ "test_user"
  ∧ "@test_user" ∈ handles store
  ∧ get_client "test_user" store = Return None.
Proof.
  apply (client_row_is_keyed_by_display_name test_module_dir test_user "test@example.com"
           "Technology" "Silicon Valley" (json_dumps test_params) test_params 1 2 3 4 5 ∅ ∅);
    try discriminate.
  - by vm_compute.
  - apply json_loads_dumps_strings.
  - unfold connect. rewrite lookup_empty. apply not_elem_of_nil.
  - unfold connect. rewrite lookup_empty. apply not_elem_of_nil.
Defined.

(** X27, run on two texts that are no JSON, sent while the parameters
    are awaited. *)
Lemma invalid_json_keeps_waiting_witness :
  let b := {| conversation := Some CAMPAIGN_PARAMS;
              user_data := {[ "display_name" := "@test_user" ]}; files := ∅ |} in
  dispatch_all test_module_dir test_user
    [(Message "iteration_count: 3", 1); (Message "not json", 2)] b
  = (b, [InvalidJson; InvalidJson]).
Proof.
  apply (invalid_json_keeps_waiting test_module_dir test_user
           [("iteration_count: 3", 1); ("not json", 2)]
           {| conversation := Some CAMPAIGN_PARAMS;
              user_data := {[ "display_name" := "@test_user" ]}; files := ∅ |}).
  - reflexivity.
  - repeat constructor; try discriminate; by vm_compute.
Defined.

(** X28, run on a conversation that was started and cancelled and
    started again. *)
Lemma conversation_finds_its_keys_witness :
  let b := (dispatch_all test_module_dir test_user
              [(Command "start", 1); (Message "test@example.com", 2); (Command "cancel", 3);
               (Command "start", 4); (Message "other@example.com", 5)]
              {| conversation := None; user_data := ∅; files := ∅ |}).1 in
  keys_present b
  ∧ ∀ text now,
      is_Some (conversation b) → text ≠ "" →
      (conversation b = Some CAMPAIGN_PARAMS →
       ∀ e, json_loads text = Raise e → e = JSONDecodeError) →
      is_Some (dispatch test_module_dir test_user (Message text) now b).2.
Proof.
  apply (conversation_finds_its_keys test_module_dir test_user
           [(Command "start", 1); (Message "test@example.com", 2); (Command "cancel", 3);
            (Command "start", 4); (Message "other@example.com", 5)]
           {| conversation := None; user_data := ∅; files := ∅ |}).
  reflexivity.
Defined.
